(** * Snowball game: a shallow embedding of the [XmasGame] class

    The repository holds two copies of the game script: [src/game.js] and a
    later revision of the same class ([src/unnamed/part_000]).  Both are
    embedded here; the places where they differ are selected by a [Revision].

    Conventions of the embedding:
    - JavaScript numbers are idealised as real numbers ([R]); [Math.max],
      [Math.min], [Math.cos], [Math.sin], [Math.sqrt] and [Math.PI] are the
      functions and the constant of the Standard Library's reals.  The one
      exception is the snow density slider of the later revision, whose
      listener rounds a product down to an integer: there the rounding of
      the arithmetic decides the result, and the numbers are the binary64
      numbers of JavaScript ([float]).
    - JavaScript objects that are shared by reference (snowball records,
      meshes, physics bodies) live in heaps indexed by a reference [Ref];
      [new] takes the next unused reference.
    - The rendering and physics engines are third-party code.  What the game
      needs from the rendering engine is the interface [Three]; what the
      physics engine does during [world.step] is an input of [animate]. *)

From Stdlib Require Import PrimFloat FloatOps SpecFloat.
From Stdlib Require Import Reals Lra ZArith List.
From stdpp Require Import base gmap list.

Open Scope R_scope.

(** ** Numbers, vectors, quaternions *)

Definition ltb (a b : R) : bool := if Rlt_dec a b then true else false.
Definition gtb (a b : R) : bool := ltb b a.

Record Vec3 := mkVec3 { vx : R; vy : R; vz : R }.
Record Quat := mkQuat { qx : R; qy : R; qz : R; qw : R }.

Definition vec3_zero : Vec3 := mkVec3 0 0 0.
Definition quat_identity : Quat := mkQuat 0 0 0 1.

(** [a.add(b)] *)
Definition vadd (a b : Vec3) : Vec3 :=
  mkVec3 (vx a + vx b) (vy a + vy b) (vz a + vz b).

(** [a.multiplyScalar(s)] *)
Definition multiplyScalar (a : Vec3) (s : R) : Vec3 :=
  mkVec3 (vx a * s) (vy a * s) (vz a * s).

(** CANNON's [a.negate(target)] *)
Definition negate (a : Vec3) : Vec3 := mkVec3 (- vx a) (- vy a) (- vz a).

(** [v.length()] *)
Definition vlength (a : Vec3) : R :=
  sqrt (vx a * vx a + vy a * vy a + vz a * vz a).

(** [v.normalize()], that is [v.divideScalar(v.length() || 1)]. *)
Definition normalize (a : Vec3) : Vec3 :=
  let len := vlength a in
  let d := if Req_dec_T len 0 then 1 else len in
  mkVec3 (vx a / d) (vy a / d) (vz a / d).

(** References to heap objects. *)
Abbreviation Ref := nat.

(** The two copies of the script: [game_js] is [src/game.js], [part_000] is
    the later revision [src/unnamed/part_000]. *)
Inductive Revision := game_js | part_000.

(** ** The rendering engine's interface

    [Euler] is the orientation state of an [Object3D] (its [rotation]);
    [euler_zero] is the state after [rotation.set(0, 0, 0)]. *)
Class Three := {
  Euler : Type;
  euler_zero : Euler;
  rotateY : R -> Euler -> Euler;
  rotateX : R -> Euler -> Euler;
  applyEuler : Euler -> Vec3 -> Vec3;
  (** [obj.worldToLocal(v)] for an object at the given position and
      quaternion *)
  worldToLocal : Vec3 -> Quat -> Vec3 -> Vec3
}.

(** ** The 2D canvas of a snow overlay *)

Record RGBA := mkRGBA { red : R; green : R; blue : R; alpha : R }.

Record ArcSeg := mkArc {
  arc_x : R; arc_y : R; arc_radius : R; arc_start : R; arc_end : R
}.

Inductive DrawOp :=
| FillRect (style : RGBA) (x y w h : R)
| FillPath (style : RGBA) (segs : list ArcSeg).

(** A canvas together with its 2D context. *)
Record Canvas := mkCanvas {
  width : nat;
  height : nat;
  fillStyle : RGBA;
  path : list ArcSeg;
  painted : list DrawOp
}.

Definition set_fillStyle (s : RGBA) (c : Canvas) : Canvas :=
  mkCanvas (width c) (height c) s (path c) (painted c).

Definition fillRect (x y w h : R) (c : Canvas) : Canvas :=
  mkCanvas (width c) (height c) (fillStyle c) (path c)
           (painted c ++ [FillRect (fillStyle c) x y w h]).

Definition beginPath (c : Canvas) : Canvas :=
  mkCanvas (width c) (height c) (fillStyle c) [] (painted c).

Definition arc (x y r a0 a1 : R) (c : Canvas) : Canvas :=
  mkCanvas (width c) (height c) (fillStyle c)
           (path c ++ [mkArc x y r a0 a1]) (painted c).

Definition fill (c : Canvas) : Canvas :=
  mkCanvas (width c) (height c) (fillStyle c) (path c)
           (painted c ++ [FillPath (fillStyle c) (path c)]).

(** [document.createElement('canvas')] with the given size, its context's
    [fillStyle] set to [rgba(0, 0, 0, 0)] and the whole canvas filled. *)
Definition new_snow_canvas (w h : nat) : Canvas :=
  fillRect 0 0 (INR w) (INR h)
    (set_fillStyle (mkRGBA 0 0 0 0)
       (mkCanvas w h (mkRGBA 0 0 0 1) [] [])).

(** A canvas texture.  The game only ever assigns [needsUpdate = true],
    which in the rendering engine is a setter that increments the texture's
    [version]. *)
Record Texture := mkTexture { version : nat }.

Definition needsUpdate_true (t : Texture) : Texture := mkTexture (S (version t)).

(** ** The card *)

Record CardMesh := mkCardMesh {
  geometry_width : R;
  geometry_height : R;
  card_position : Vec3;
  card_quaternion : Quat
}.

(** Everything [setupCard] assigns on [this]. *)
Record CardSetup := mkCardSetup {
  card : CardMesh;
  cardBody : Ref;
  anchorBody : Ref;
  snowCanvasFront : Canvas;
  snowCanvasBack : Canvas;
  snowOverlayFront : Texture;
  snowOverlayBack : Texture
}.

(** ** The decal painter *)

Section Painter.
Context `{Three}.

(** The values [Math.random()] returns during one call of
    [addSnowSplat], in call order. *)
Variable random : nat -> R.

(** The five small circles around the main splat: iterations
    [i], [i+1], ..., 4 of the loop, [todo] of them. *)
Fixpoint small_circles (todo i : nat) (x y size : R) (c : Canvas) : Canvas :=
  match todo with
  | O => c
  | S todo' =>
      let smallSize := size * (0.2 + random (2 + 3 * i) * 0.3) in
      let angle := random (2 + 3 * i + 1) * PI * 2 in
      let distance := size * (0.5 + random (2 + 3 * i + 2) * 0.5) in
      let smallX := Rmax 0 (Rmin (INR (width c)) (x + cos angle * distance)) in
      let smallY := Rmax 0 (Rmin (INR (height c)) (y + sin angle * distance)) in
      small_circles todo' (S i) x y size
        (fill (arc smallX smallY smallSize 0 (PI * 2) (beginPath c)))
  end.

Definition splat_u (localPosition : Vec3) : R := (vx localPosition / 1.5 + 1) * 0.5.
Definition splat_v (localPosition : Vec3) : R := (vy localPosition / 2.25 + 1) * 0.5.

(** The pixel of the main splat on canvas [c]. *)
Definition splat_x (localPosition : Vec3) (c : Canvas) : R :=
  let clampedU := Rmax 0 (Rmin 1 (splat_u localPosition)) in
  clampedU * INR (width c).

Definition splat_y (localPosition : Vec3) (c : Canvas) : R :=
  let clampedV := Rmax 0 (Rmin 1 (splat_v localPosition)) in
  (1 - clampedV) * INR (height c).

(** The drawing part of [addSnowSplat], on the chosen canvas. *)
Definition draw_splat (localPosition : Vec3) (c : Canvas) : Canvas :=
  let x := splat_x localPosition c in
  let y := splat_y localPosition c in
  let size := 20 + random 0 * 20 in
  let opacity := 0.3 + random 1 * 0.3 in
  let c1 := set_fillStyle (mkRGBA 255 255 255 opacity) c in
  let c2 := fill (arc x y size 0 (PI * 2) (beginPath c1)) in
  small_circles 5 0 x y size c2.

(** The normal in the card's local space, normalised. *)
Definition localNormal (cm : CardMesh) (normal : Vec3) : Vec3 :=
  normalize (worldToLocal (card_position cm) (card_quaternion cm)
               (vadd normal (card_position cm))).

Definition hitFront (cm : CardMesh) (normal : Vec3) : bool :=
  ltb (vz (localNormal cm normal)) 0.

(** [addSnowSplat]: the canvas, context and overlay of the side that was
    hit are selected, the splat is drawn on that canvas and that overlay's
    texture is flagged for upload. *)
Definition addSnowSplat (localPosition normal : Vec3) (cs : CardSetup) : CardSetup :=
  let hitFront := hitFront (card cs) normal in
  mkCardSetup (card cs) (cardBody cs) (anchorBody cs)
    (if hitFront then draw_splat localPosition (snowCanvasFront cs)
     else snowCanvasFront cs)
    (if hitFront then snowCanvasBack cs
     else draw_splat localPosition (snowCanvasBack cs))
    (if hitFront then needsUpdate_true (snowOverlayFront cs)
     else snowOverlayFront cs)
    (if hitFront then snowOverlayBack cs
     else needsUpdate_true (snowOverlayBack cs)).

End Painter.

(** ** Arrays and sets of references *)

(** [array.includes(x)] and [set.has(x)] *)
Definition includes (x : Ref) (l : list Ref) : bool := bool_decide (x ∈ l).

(** [array.indexOf(x)]: the first index of [x], or [-1]. *)
Fixpoint indexOf (x : Ref) (l : list Ref) : Z :=
  match l with
  | [] => (-1)%Z
  | y :: t =>
      if Nat.eqb x y then 0%Z
      else let i := indexOf x t in
           if (i <? 0)%Z then (-1)%Z else (i + 1)%Z
  end.

(** [array.splice(index, 1)] for a valid [index] *)
Definition splice1 (index : Z) (l : list Ref) : list Ref :=
  take (Z.to_nat index) l ++ drop (S (Z.to_nat index)) l.

(** [indexOf] followed by [splice] when the index is not [-1]: what
    [scene.remove], [world.removeBody] and [cleanupPhysics] do to their
    arrays. *)
Definition array_remove (x : Ref) (l : list Ref) : list Ref :=
  let index := indexOf x l in
  if (index >? -1)%Z then splice1 index l else l.

(** [set.add(x)] on a set kept in insertion order *)
Definition set_add (x : Ref) (l : list Ref) : list Ref :=
  if includes x l then l else l ++ [x].

(** ** Physics bodies, meshes, snowballs *)

Inductive BodyType := DYNAMIC | STATIC.

Inductive Shape :=
| Plane
| Box (halfExtents : Vec3)
| Sphere (radius : R).

Record Body := mkBody {
  mass : R;
  body_type : BodyType;
  shapes : list Shape;
  linearDamping : R;
  angularDamping : R;
  position : Vec3;
  quaternion : Quat;
  velocity : Vec3
}.

(** A snowball's mesh: a [SphereGeometry] of the given radius. *)
Record Mesh := mkMesh {
  sphere_radius : R;
  mesh_position : Vec3;
  mesh_quaternion : Quat
}.

(** The object literal [{ mesh, body, timeAlive, isCollided }]. *)
Record Snowball := mkSnowball {
  mesh : Ref;
  body : Ref;
  timeAlive : R;
  isCollided : bool
}.

(** ** Inputs *)

Record MouseEvent := mkMouseEvent { clientX : R; clientY : R }.

Record DOMRect := mkDOMRect {
  rect_left : R; rect_top : R; rect_width : R; rect_height : R
}.

(** A contact equation of the physics engine; [bi] is the id of its first
    body (a body's id is its reference). *)
Record Contact := mkContact {
  bi : Ref;
  ri : Vec3;
  rj : Vec3;
  ni : Vec3
}.

(** A [collide] event dispatched on body [target]; [e_body] is the other
    body, [e_random] the values [Math.random()] gives while it is handled. *)
Record CollideEvent := mkCollide {
  target : Ref;
  e_body : Ref;
  e_contact : Contact;
  e_random : nat -> R
}.

(** What the engine does to a body in one internal step. *)
Record Kinematics := mkKinematics {
  k_position : Vec3;
  k_quaternion : Quat;
  k_velocity : Vec3
}.

(** One internal step of the physics engine: the collide events it
    dispatches, then the motion it integrates. *)
Record Substep := mkSubstep {
  collisions : list CollideEvent;
  motion : Ref -> Body -> Kinematics
}.

(** What [world.step] does in one frame: the internal steps it is due, and
    whether it then raises an error. *)
Record StepOutcome := mkStepOutcome {
  substeps : list Substep;
  step_throws : bool
}.

(** ** The game state

    [this.world] and [this.scene] are created by the constructor and never
    reassigned, so the guard [if (this.world)] of [animate] holds in every
    state.  Of [scene.children] only the snowball meshes are kept: the
    lights, ground, cannon, card and decorations are added during setup and
    never removed.  The power bar of [src/game.js] and the snowfall of the
    later revision share nothing with this state and are embedded on their
    own below; the aim guide of the later revision is left out. *)

Section Game.
Context `{Three}.

Record Game := mkGame {
  (** [this.snowballs]: references to snowball objects *)
  snowballs : list Ref;
  (** [this.toRemove]: a [Set], in insertion order *)
  toRemove : list Ref;
  (** the snowball objects *)
  objects : gmap Ref Snowball;
  (** the snowball meshes *)
  meshes : gmap Ref Mesh;
  (** the physics bodies *)
  bodies : gmap Ref Body;
  (** body |-> the snowball captured by the [collide] listener added to it *)
  listeners : gmap Ref Ref;
  (** the next unused reference *)
  next_ref : Ref;
  (** the snowball meshes among [scene.children] *)
  scene : list Ref;
  (** [world.bodies] *)
  world_bodies : list Ref;
  isAiming : bool;
  aimingStart : R * R;
  currentAim : R * R;
  throwPower : option R;
  (** [cannonMesh.position] *)
  cannon_position : Vec3;
  (** [cannonMesh.rotation] *)
  cannon_rotation : Euler;
  (** the points of [aimLine.geometry] *)
  aimLine : list Vec3;
  currentPower : R;
  maxThrowPower : R;
  (** [parseFloat(this.sizeSlider.value)] *)
  sizeSlider : R;
  (** [renderer.domElement.getBoundingClientRect()] *)
  canvasRect : DOMRect;
  cardSetup : option CardSetup
}.

Definition set_snowballs (x : list Ref) (g : Game) : Game :=
  mkGame x (toRemove g) (objects g) (meshes g) (bodies g) (listeners g)
    (next_ref g) (scene g) (world_bodies g) (isAiming g) (aimingStart g)
    (currentAim g) (throwPower g) (cannon_position g) (cannon_rotation g)
    (aimLine g) (currentPower g) (maxThrowPower g) (sizeSlider g)
    (canvasRect g) (cardSetup g).

Definition set_toRemove (x : list Ref) (g : Game) : Game :=
  mkGame (snowballs g) x (objects g) (meshes g) (bodies g) (listeners g)
    (next_ref g) (scene g) (world_bodies g) (isAiming g) (aimingStart g)
    (currentAim g) (throwPower g) (cannon_position g) (cannon_rotation g)
    (aimLine g) (currentPower g) (maxThrowPower g) (sizeSlider g)
    (canvasRect g) (cardSetup g).

Definition set_objects (x : gmap Ref Snowball) (g : Game) : Game :=
  mkGame (snowballs g) (toRemove g) x (meshes g) (bodies g) (listeners g)
    (next_ref g) (scene g) (world_bodies g) (isAiming g) (aimingStart g)
    (currentAim g) (throwPower g) (cannon_position g) (cannon_rotation g)
    (aimLine g) (currentPower g) (maxThrowPower g) (sizeSlider g)
    (canvasRect g) (cardSetup g).

Definition set_meshes (x : gmap Ref Mesh) (g : Game) : Game :=
  mkGame (snowballs g) (toRemove g) (objects g) x (bodies g) (listeners g)
    (next_ref g) (scene g) (world_bodies g) (isAiming g) (aimingStart g)
    (currentAim g) (throwPower g) (cannon_position g) (cannon_rotation g)
    (aimLine g) (currentPower g) (maxThrowPower g) (sizeSlider g)
    (canvasRect g) (cardSetup g).

Definition set_bodies (x : gmap Ref Body) (g : Game) : Game :=
  mkGame (snowballs g) (toRemove g) (objects g) (meshes g) x (listeners g)
    (next_ref g) (scene g) (world_bodies g) (isAiming g) (aimingStart g)
    (currentAim g) (throwPower g) (cannon_position g) (cannon_rotation g)
    (aimLine g) (currentPower g) (maxThrowPower g) (sizeSlider g)
    (canvasRect g) (cardSetup g).

Definition set_listeners (x : gmap Ref Ref) (g : Game) : Game :=
  mkGame (snowballs g) (toRemove g) (objects g) (meshes g) (bodies g) x
    (next_ref g) (scene g) (world_bodies g) (isAiming g) (aimingStart g)
    (currentAim g) (throwPower g) (cannon_position g) (cannon_rotation g)
    (aimLine g) (currentPower g) (maxThrowPower g) (sizeSlider g)
    (canvasRect g) (cardSetup g).

Definition set_next_ref (x : Ref) (g : Game) : Game :=
  mkGame (snowballs g) (toRemove g) (objects g) (meshes g) (bodies g)
    (listeners g) x (scene g) (world_bodies g) (isAiming g) (aimingStart g)
    (currentAim g) (throwPower g) (cannon_position g) (cannon_rotation g)
    (aimLine g) (currentPower g) (maxThrowPower g) (sizeSlider g)
    (canvasRect g) (cardSetup g).

Definition set_scene (x : list Ref) (g : Game) : Game :=
  mkGame (snowballs g) (toRemove g) (objects g) (meshes g) (bodies g)
    (listeners g) (next_ref g) x (world_bodies g) (isAiming g) (aimingStart
    g) (currentAim g) (throwPower g) (cannon_position g) (cannon_rotation g)
    (aimLine g) (currentPower g) (maxThrowPower g) (sizeSlider g)
    (canvasRect g) (cardSetup g).

Definition set_world_bodies (x : list Ref) (g : Game) : Game :=
  mkGame (snowballs g) (toRemove g) (objects g) (meshes g) (bodies g)
    (listeners g) (next_ref g) (scene g) x (isAiming g) (aimingStart g)
    (currentAim g) (throwPower g) (cannon_position g) (cannon_rotation g)
    (aimLine g) (currentPower g) (maxThrowPower g) (sizeSlider g)
    (canvasRect g) (cardSetup g).

Definition set_isAiming (x : bool) (g : Game) : Game :=
  mkGame (snowballs g) (toRemove g) (objects g) (meshes g) (bodies g)
    (listeners g) (next_ref g) (scene g) (world_bodies g) x (aimingStart g)
    (currentAim g) (throwPower g) (cannon_position g) (cannon_rotation g)
    (aimLine g) (currentPower g) (maxThrowPower g) (sizeSlider g)
    (canvasRect g) (cardSetup g).

Definition set_aimingStart (x : R * R) (g : Game) : Game :=
  mkGame (snowballs g) (toRemove g) (objects g) (meshes g) (bodies g)
    (listeners g) (next_ref g) (scene g) (world_bodies g) (isAiming g) x
    (currentAim g) (throwPower g) (cannon_position g) (cannon_rotation g)
    (aimLine g) (currentPower g) (maxThrowPower g) (sizeSlider g)
    (canvasRect g) (cardSetup g).

Definition set_currentAim (x : R * R) (g : Game) : Game :=
  mkGame (snowballs g) (toRemove g) (objects g) (meshes g) (bodies g)
    (listeners g) (next_ref g) (scene g) (world_bodies g) (isAiming g)
    (aimingStart g) x (throwPower g) (cannon_position g) (cannon_rotation g)
    (aimLine g) (currentPower g) (maxThrowPower g) (sizeSlider g)
    (canvasRect g) (cardSetup g).

Definition set_throwPower (x : option R) (g : Game) : Game :=
  mkGame (snowballs g) (toRemove g) (objects g) (meshes g) (bodies g)
    (listeners g) (next_ref g) (scene g) (world_bodies g) (isAiming g)
    (aimingStart g) (currentAim g) x (cannon_position g) (cannon_rotation g)
    (aimLine g) (currentPower g) (maxThrowPower g) (sizeSlider g)
    (canvasRect g) (cardSetup g).

Definition set_cannon_position (x : Vec3) (g : Game) : Game :=
  mkGame (snowballs g) (toRemove g) (objects g) (meshes g) (bodies g)
    (listeners g) (next_ref g) (scene g) (world_bodies g) (isAiming g)
    (aimingStart g) (currentAim g) (throwPower g) x (cannon_rotation g)
    (aimLine g) (currentPower g) (maxThrowPower g) (sizeSlider g)
    (canvasRect g) (cardSetup g).

Definition set_cannon_rotation (x : Euler) (g : Game) : Game :=
  mkGame (snowballs g) (toRemove g) (objects g) (meshes g) (bodies g)
    (listeners g) (next_ref g) (scene g) (world_bodies g) (isAiming g)
    (aimingStart g) (currentAim g) (throwPower g) (cannon_position g) x
    (aimLine g) (currentPower g) (maxThrowPower g) (sizeSlider g)
    (canvasRect g) (cardSetup g).

Definition set_aimLine (x : list Vec3) (g : Game) : Game :=
  mkGame (snowballs g) (toRemove g) (objects g) (meshes g) (bodies g)
    (listeners g) (next_ref g) (scene g) (world_bodies g) (isAiming g)
    (aimingStart g) (currentAim g) (throwPower g) (cannon_position g)
    (cannon_rotation g) x (currentPower g) (maxThrowPower g) (sizeSlider g)
    (canvasRect g) (cardSetup g).

Definition set_currentPower (x : R) (g : Game) : Game :=
  mkGame (snowballs g) (toRemove g) (objects g) (meshes g) (bodies g)
    (listeners g) (next_ref g) (scene g) (world_bodies g) (isAiming g)
    (aimingStart g) (currentAim g) (throwPower g) (cannon_position g)
    (cannon_rotation g) (aimLine g) x (maxThrowPower g) (sizeSlider g)
    (canvasRect g) (cardSetup g).

Definition set_maxThrowPower (x : R) (g : Game) : Game :=
  mkGame (snowballs g) (toRemove g) (objects g) (meshes g) (bodies g)
    (listeners g) (next_ref g) (scene g) (world_bodies g) (isAiming g)
    (aimingStart g) (currentAim g) (throwPower g) (cannon_position g)
    (cannon_rotation g) (aimLine g) (currentPower g) x (sizeSlider g)
    (canvasRect g) (cardSetup g).

Definition set_sizeSlider (x : R) (g : Game) : Game :=
  mkGame (snowballs g) (toRemove g) (objects g) (meshes g) (bodies g)
    (listeners g) (next_ref g) (scene g) (world_bodies g) (isAiming g)
    (aimingStart g) (currentAim g) (throwPower g) (cannon_position g)
    (cannon_rotation g) (aimLine g) (currentPower g) (maxThrowPower g) x
    (canvasRect g) (cardSetup g).

Definition set_canvasRect (x : DOMRect) (g : Game) : Game :=
  mkGame (snowballs g) (toRemove g) (objects g) (meshes g) (bodies g)
    (listeners g) (next_ref g) (scene g) (world_bodies g) (isAiming g)
    (aimingStart g) (currentAim g) (throwPower g) (cannon_position g)
    (cannon_rotation g) (aimLine g) (currentPower g) (maxThrowPower g)
    (sizeSlider g) x (cardSetup g).

Definition set_cardSetup (x : option CardSetup) (g : Game) : Game :=
  mkGame (snowballs g) (toRemove g) (objects g) (meshes g) (bodies g)
    (listeners g) (next_ref g) (scene g) (world_bodies g) (isAiming g)
    (aimingStart g) (currentAim g) (throwPower g) (cannon_position g)
    (cannon_rotation g) (aimLine g) (currentPower g) (maxThrowPower g)
    (sizeSlider g) (canvasRect g) x.

Definition set_card (x : CardMesh) (cs : CardSetup) : CardSetup :=
  mkCardSetup x (cardBody cs) (anchorBody cs) (snowCanvasFront cs)
    (snowCanvasBack cs) (snowOverlayFront cs) (snowOverlayBack cs).

(** *** Aiming *)

Definition azimuthAngle (x : R) : R := - x * PI / 2.

Definition elevationAngle (v : Revision) (y : R) : R :=
  match v with
  | game_js => Rmax 0 (Rmin (PI / 2) ((y + 1) * PI / 2))
  | part_000 => (y + 1) * PI / 4
  end.

(** The mouse position in normalised coordinates. *)
Definition ndc_x (rect : DOMRect) (event : MouseEvent) : R :=
  ((clientX event - rect_left rect) / rect_width rect) * 2 - 1.

Definition ndc_y (rect : DOMRect) (event : MouseEvent) : R :=
  - ((clientY event - rect_top rect) / rect_height rect) * 2 + 1.

(** [new THREE.Vector3(0, 0, -1)] after [applyEuler(cannonMesh.rotation)] *)
Definition aim_direction (g : Game) : Vec3 :=
  applyEuler (cannon_rotation g) (mkVec3 0 0 (-1)).

Definition updateAimVisuals (v : Revision) (event : MouseEvent) (g : Game) : Game :=
  if negb (isAiming g) then g
  else
    let rect := canvasRect g in
    let x := ndc_x rect event in
    let y := ndc_y rect event in
    let g1 :=
      set_cannon_rotation
        (rotateX (- elevationAngle v y) (rotateY (azimuthAngle x) euler_zero)) g in
    let direction := aim_direction g1 in
    let aimLength := 4 + currentPower g1 * 0.05 in
    set_aimLine
      [cannon_position g1;
       vadd (cannon_position g1) (multiplyScalar direction aimLength)] g1.

Definition startAiming (v : Revision) (event : MouseEvent) (g : Game) : Game :=
  let g1 := set_isAiming true g in
  let g2 := set_aimingStart (clientX event, clientY event) g1 in
  let g3 := set_currentAim (aimingStart g2) g2 in
  let g4 := set_throwPower (Some 0) g3 in
  updateAimVisuals v event g4.

Definition updateAiming (v : Revision) (event : MouseEvent) (g : Game) : Game :=
  if negb (isAiming g) then g
  else updateAimVisuals v event (set_currentAim (clientX event, clientY event) g).

(** The power slider's [input] listener, for the slider value [value]. *)
Definition powerInput (value : R) (g : Game) : Game :=
  set_currentPower (value / 100 * maxThrowPower g) g.

(** *** Throwing *)

Definition snowballSize (v : Revision) (g : Game) : R :=
  sizeSlider g * match v with game_js => 0.2 | part_000 => 0.1 end.

(** The damping of a snowball body: the engine's default in [src/game.js],
    set explicitly in the later revision. *)
Definition snowball_damping (v : Revision) : R :=
  match v with game_js => 0.01 | part_000 => 0.1 end.

(** [world.addBody(b)] on [world.bodies] *)
Definition addBody (b : Ref) (l : list Ref) : list Ref :=
  if includes b l then l else l ++ [b].

Definition removeSnowball (snowball : Ref) (g : Game) : Game :=
  set_toRemove (set_add snowball (toRemove g)) g.

(** [throwSnowball].  [direction.multiplyScalar(0.5)] scales [direction]
    in place ([muzzleOffset] is the same vector); the code then resets it
    with [direction.set(0, 0, -1)] and applies the rotation again before it
    computes the velocity, hence the second [aim_direction]. *)
Definition throwSnowball (v : Revision) (event : MouseEvent) (g : Game) : Game :=
  if negb (isAiming g) then g
  else
    let g := set_isAiming false g in
    let g := set_aimLine [] g in
    let snowballSize := snowballSize v g in
    (* new THREE.Mesh(geometry, material) *)
    let snowballMesh := next_ref g in
    let g := set_next_ref (S snowballMesh) g in
    let direction := aim_direction g in
    let muzzleOffset := multiplyScalar direction 0.5 in
    let mesh_pos := vadd (cannon_position g) muzzleOffset in
    let g :=
      set_meshes (<[snowballMesh := mkMesh snowballSize mesh_pos quat_identity]>
                    (meshes g)) g in
    let g := set_scene (scene g ++ [snowballMesh]) g in
    (* new CANNON.Body({...}) *)
    let snowballBody := next_ref g in
    let g := set_next_ref (S snowballBody) g in
    let direction := aim_direction g in
    let speed := currentPower g * 0.5 in
    let b :=
      mkBody 0.1 DYNAMIC [Sphere snowballSize]
        (snowball_damping v) (snowball_damping v)
        mesh_pos quat_identity
        (mkVec3 (vx direction * speed) (vy direction * speed)
                (vz direction * speed)) in
    let g := set_bodies (<[snowballBody := b]> (bodies g)) g in
    let g := set_world_bodies (addBody snowballBody (world_bodies g)) g in
    (* the object literal *)
    let snowball := next_ref g in
    let g := set_next_ref (S snowball) g in
    let g :=
      set_objects (<[snowball := mkSnowball snowballMesh snowballBody 0 false]>
                     (objects g)) g in
    let g := set_snowballs (snowballs g ++ [snowball]) g in
    set_listeners (<[snowballBody := snowball]> (listeners g)) g.

(** *** The collide listener of a snowball's body

    [snowball] is the object the listener's closure captured. *)

Definition cardIsBody1 (cs : CardSetup) (contact : Contact) : bool :=
  Nat.eqb (bi contact) (cardBody cs).

(** The contact point relative to the card body [cb]'s position. *)
Definition contactPoint (cs : CardSetup) (cb : Body) (contact : Contact) : Vec3 :=
  if cardIsBody1 cs contact then
    mkVec3 (vx (position cb) + vx (ri contact))
           (vy (position cb) + vy (ri contact))
           (vz (position cb) + vz (ri contact))
  else
    mkVec3 (vx (position cb) + vx (rj contact))
           (vy (position cb) + vy (rj contact))
           (vz (position cb) + vz (rj contact)).

(** The normal pointing from the card to the snowball. *)
Definition contactNormal (cs : CardSetup) (contact : Contact) : Vec3 :=
  if cardIsBody1 cs contact then negate (ni contact) else ni contact.

(** The contact point in the card's local coordinates. *)
Definition localPos (cs : CardSetup) (cb : Body) (contact : Contact) : Vec3 :=
  worldToLocal (card_position (card cs)) (card_quaternion (card cs))
    (contactPoint cs cb contact).

(** [snowball.isCollided = true] *)
Definition mark_collided (sb : Snowball) : Snowball :=
  mkSnowball (mesh sb) (body sb) (timeAlive sb) true.

(** The body of the listener's [if]. *)
Definition on_card_hit (snowball : Ref) (sb : Snowball) (cs : CardSetup)
    (cb : Body) (e : CollideEvent) (g : Game) : Game :=
  let g := set_objects (<[snowball := mark_collided sb]> (objects g)) g in
  let contact := e_contact e in
  let g :=
    set_cardSetup
      (Some (addSnowSplat (e_random e) (localPos cs cb contact)
               (contactNormal cs contact) cs)) g in
  removeSnowball snowball g.

(** The listener.  With no card yet (later revision, image not loaded)
    [this.cardBody] is undefined and [e.body === this.cardBody] is false;
    the other [None] branches are lookups of objects that exist. *)
Definition on_collide (snowball : Ref) (e : CollideEvent) (g : Game) : Game :=
  match objects g !! snowball, cardSetup g with
  | Some sb, Some cs =>
      if negb (isCollided sb) && Nat.eqb (e_body e) (cardBody cs) then
        match bodies g !! cardBody cs with
        | Some cb => on_card_hit snowball sb cs cb e g
        | None => g
        end
      else g
  | _, _ => g
  end.

(** [target.dispatchEvent(e)] *)
Definition dispatchEvent (g : Game) (e : CollideEvent) : Game :=
  match listeners g !! target e with
  | Some snowball => on_collide snowball e g
  | None => g
  end.

(** *** The physics step *)

(** The engine moves the bodies that are in the world. *)
Definition move (k : Kinematics) (b : Body) : Body :=
  mkBody (mass b) (body_type b) (shapes b) (linearDamping b) (angularDamping b)
    (k_position k) (k_quaternion k) (k_velocity k).

Definition integrate (m : Ref -> Body -> Kinematics) (g : Game) : Game :=
  set_bodies
    (map_imap
       (fun r b => Some (if includes r (world_bodies g) then move (m r b) b else b))
       (bodies g)) g.

Definition internalStep (g : Game) (s : Substep) : Game :=
  integrate (motion s) (fold_left dispatchEvent (collisions s) g).

(** [world.step(dt, timeSinceLastCalled, maxSubSteps)]: the engine runs
    the internal steps that are due, never more than [maxSubSteps]. *)
Definition world_step (dt timeSinceLastCalled : R) (maxSubSteps : nat)
    (o : StepOutcome) (g : Game) : Game :=
  fold_left internalStep (take maxSubSteps (substeps o)) g.

(** *** Removal *)

(** One iteration of the loop of [cleanupPhysics].  [snowball.mesh] and
    [snowball.body] are objects, so the guards on them pass. *)
Definition cleanup_one (g : Game) (snowball : Ref) : Game :=
  match objects g !! snowball with
  | Some sb =>
      let g := set_scene (array_remove (mesh sb) (scene g)) g in
      let g :=
        if includes (body sb) (world_bodies g)
        then set_world_bodies (array_remove (body sb) (world_bodies g)) g
        else g in
      let index := indexOf snowball (snowballs g) in
      if (index >? -1)%Z then set_snowballs (splice1 index (snowballs g)) g
      else g
  | None => g
  end.

Definition cleanupPhysics (g : Game) : Game :=
  set_toRemove [] (fold_left cleanup_one (toRemove g) g).

(** *** The frame *)

Definition fixedTimeStep : R := 1 / 60.
Definition maxSubSteps : nat := 3.

(** The card mesh takes the pose of the card body. *)
Definition sync_card (g : Game) : Game :=
  match cardSetup g with
  | Some cs =>
      match bodies g !! cardBody cs with
      | Some cb =>
          set_cardSetup
            (Some (set_card
                     (mkCardMesh (geometry_width (card cs)) (geometry_height (card cs))
                        (position cb) (quaternion cb)) cs)) g
      | None => g
      end
  | None => g
  end.

(** [snowball.timeAlive += fixedTimeStep] *)
Definition age (sb : Snowball) : Snowball :=
  mkSnowball (mesh sb) (body sb) (timeAlive sb + fixedTimeStep) (isCollided sb).

(** [mesh.position.copy(body.position)] and
    [mesh.quaternion.copy(body.quaternion)] *)
Definition follow (m : Mesh) (b : Body) : Mesh :=
  mkMesh (sphere_radius m) (position b) (quaternion b).

(** The condition under which the loop calls [removeSnowball]. *)
Definition expired (sb : Snowball) (b : Body) : bool :=
  gtb (timeAlive sb) 5 || ltb (vy (position b)) (-3).

(** One iteration of the loop over [this.snowballs].  The snowball, its
    body and its mesh are objects, so the first three guards pass: the
    [None] branches are lookups of objects that exist. *)
Definition update_snowball (g : Game) (snowball : Ref) : Game :=
  match objects g !! snowball with
  | Some sb =>
      match bodies g !! body sb, meshes g !! mesh sb with
      | Some b, Some m =>
          if includes (body sb) (world_bodies g)
             && negb (includes snowball (toRemove g))
          then
            let g := set_objects (<[snowball := age sb]> (objects g)) g in
            let g := set_meshes (<[mesh sb := follow m b]> (meshes g)) g in
            if expired (age sb) b
            then removeSnowball snowball g
            else g
          else g
      | _, _ => g
      end
  | None => g
  end.

(** The loop runs from the last index down to 0. *)
Definition update_snowballs (g : Game) : Game :=
  fold_left update_snowball (reverse (snowballs g)) g.

(** The calls a frame makes to the browser and the engines; [Render]
    carries what the renderer is given to draw: the card mesh and the
    snowball meshes of the scene. *)
Inductive Call :=
| RequestAnimationFrame
| WorldStep (dt timeSinceLastCalled : R) (maxSubSteps : nat)
| Render (card_mesh : option CardMesh) (scene_meshes : list (option Mesh)).

Definition render (g : Game) : Call :=
  Render (card <$> cardSetup g) (map (fun r => meshes g !! r) (scene g)).

(** [animate]: inside [try], the physics step, [cleanupPhysics], the card
    and the loop over the snowballs; if the step raises, [catch] runs
    [cleanupPhysics] alone; then the scene is rendered. *)
Definition animate (o : StepOutcome) (g : Game) : Game * list Call :=
  let g1 := world_step fixedTimeStep fixedTimeStep maxSubSteps o g in
  let g2 :=
    if step_throws o then cleanupPhysics g1
    else update_snowballs (sync_card (cleanupPhysics g1)) in
  (g2, [RequestAnimationFrame;
        WorldStep fixedTimeStep fixedTimeStep maxSubSteps;
        render g2]).

(** *** Construction *)

(** CANNON's [quaternion.setFromEuler(x, y, z)] in its default order. *)
Definition setFromEuler (x y z : R) : Quat :=
  let c1 := cos (x / 2) in let c2 := cos (y / 2) in let c3 := cos (z / 2) in
  let s1 := sin (x / 2) in let s2 := sin (y / 2) in let s3 := sin (z / 2) in
  mkQuat (s1 * c2 * c3 + c1 * s2 * s3) (c1 * s2 * c3 - s1 * c2 * s3)
         (c1 * c2 * s3 + s1 * s2 * c3) (c1 * c2 * c3 - s1 * s2 * s3).

(** The fields the constructor sets before any setup method runs, with the
    cannon of [setupCannon]; [rect] and [size] are the canvas rectangle and
    the size slider's value at that time. *)
Definition empty_game (rect : DOMRect) (size : R) : Game :=
  mkGame [] [] ∅ ∅ ∅ ∅ 0%nat [] [] false (0, 0) (0, 0) None
    (mkVec3 0 (-1.5) 4) euler_zero [] 30 60 size rect None.

Definition initPhysics (v : Revision) (g : Game) : Game :=
  let groundBody := next_ref g in
  let g := set_next_ref (S groundBody) g in
  let ground_position :=
    match v with game_js => mkVec3 0 (-2) 0 | part_000 => mkVec3 0 (-2) 60 end in
  let b :=
    mkBody 0 STATIC [Plane] 0.01 0.01 ground_position
      (setFromEuler (- PI / 2) 0 0) vec3_zero in
  let g := set_bodies (<[groundBody := b]> (bodies g)) g in
  set_world_bodies (addBody groundBody (world_bodies g)) g.

(** The part of [setupCard] that both copies share: the card mesh, the two
    snow canvases and overlays, the card body and its anchor. *)
Definition setupCard_with (cardWidth cardHeight : R) (halfExtents : Vec3)
    (canvasWidth canvasHeight : nat) (card_pos anchor_pos : Vec3)
    (g : Game) : Game :=
  let cardBody := next_ref g in
  let g := set_next_ref (S cardBody) g in
  let g :=
    set_bodies
      (<[cardBody := mkBody 1 DYNAMIC [Box halfExtents] 0.3 0.3 card_pos
                       quat_identity vec3_zero]> (bodies g)) g in
  let g := set_world_bodies (addBody cardBody (world_bodies g)) g in
  let anchorBody := next_ref g in
  let g := set_next_ref (S anchorBody) g in
  let g :=
    set_bodies
      (<[anchorBody := mkBody 0 STATIC [] 0.01 0.01 anchor_pos
                         quat_identity vec3_zero]> (bodies g)) g in
  let g := set_world_bodies (addBody anchorBody (world_bodies g)) g in
  set_cardSetup
    (Some (mkCardSetup
             (mkCardMesh cardWidth cardHeight card_pos quat_identity)
             cardBody anchorBody
             (new_snow_canvas canvasWidth canvasHeight)
             (new_snow_canvas canvasWidth canvasHeight)
             (mkTexture 1) (mkTexture 1))) g.

(** [setupCard] of [src/game.js] *)
Definition setupCard_game_js (g : Game) : Game :=
  setupCard_with 3 4.5 (mkVec3 1.5 2.25 0.1) 512 768
    (mkVec3 0 0 0) (mkVec3 0 3 0) g.

(** The texture-load callback of [setupCard] in the later revision, for an
    image of the given size. *)
Definition setupCard_part_000 (imageWidth imageHeight : nat) (g : Game) : Game :=
  let aspectRatio := INR imageHeight / INR imageWidth in
  let cardWidth := 4 in
  let cardHeight := cardWidth * aspectRatio in
  setupCard_with cardWidth cardHeight
    (mkVec3 (cardWidth / 2) (cardHeight / 2) 0.1) imageWidth imageHeight
    (mkVec3 0 0 (-1)) (mkVec3 0 (cardHeight / 2 + 0.5) (-1)) g.

(** The state the constructor leaves.  The call of [animate] in the
    constructor is the first [AnimationFrame] of the event loop below. *)
Definition constructor (v : Revision) (rect : DOMRect) (size : R) : Game :=
  let g := initPhysics v (empty_game rect size) in
  match v with
  | game_js => setupCard_game_js g
  | part_000 => g
  end.

(** *** The event loop *)

Inductive Input :=
| MouseDown (event : MouseEvent)
| MouseMove (event : MouseEvent)
| MouseUp (event : MouseEvent)
| PowerInput (value : R)
| SizeInput (value : R)
| Resize (rect : DOMRect)
| TextureLoaded (imageWidth imageHeight : nat)
| AnimationFrame (o : StepOutcome).

Definition handle (v : Revision) (g : Game) (i : Input) : Game :=
  match i with
  | MouseDown event => startAiming v event g
  | MouseMove event => updateAiming v event g
  | MouseUp event => throwSnowball v event g
  | PowerInput value => powerInput value g
  | SizeInput value => set_sizeSlider value g
  | Resize rect => set_canvasRect rect g
  | TextureLoaded w h =>
      match v, cardSetup g with
      | part_000, None => setupCard_part_000 w h g
      | _, _ => g
      end
  | AnimationFrame o => fst (animate o g)
  end.

Definition run (v : Revision) (g : Game) (inputs : list Input) : Game :=
  fold_left (handle v) inputs g.

Inductive reachable (v : Revision) : Game -> Prop :=
| reachable_init rect size : reachable v (constructor v rect size)
| reachable_step g i : reachable v g -> reachable v (handle v g i).

End Game.

(** ** Predicates used in the statements *)

(** The centre of an arc lies on the canvas. *)
Definition arc_in_canvas (c : Canvas) (a : ArcSeg) : Prop :=
  0 <= arc_x a <= INR (width c) /\ 0 <= arc_y a <= INR (height c).

(** A drawing operation that fills exactly one circle, centred on the
    canvas. *)
Definition circle_in_canvas (c : Canvas) (op : DrawOp) : Prop :=
  exists style a, op = FillPath style [a] /\ arc_in_canvas c a.

(** The pixel the spec assigns to a local coordinate: the texture
    coordinate [(local / half + 1) * 0.5], scaled by the canvas size. *)
Definition spec_u (half local : R) : R := (local / half + 1) * 0.5.
Definition spec_pixel_x (halfCardWidth canvasWidth localX : R) : R :=
  spec_u halfCardWidth localX * canvasWidth.
Definition spec_pixel_y (halfCardHeight canvasHeight localY : R) : R :=
  (1 - spec_u halfCardHeight localY) * canvasHeight.

(** The canvas [addSnowSplat] selects for a contact normal:
    [hitFront ? this.snowCanvasFront : this.snowCanvasBack]. *)
Definition hit_canvas `{Three} (normal : Vec3) (cs : CardSetup) : Canvas :=
  if hitFront (card cs) normal then snowCanvasFront cs else snowCanvasBack cs.

(** The invariant of the heaps and arrays: the arrays hold no reference
    twice and only allocated ones, and a snowball object owns the mesh and
    the body allocated just before it. *)
Record wf `{Three} (g : Game) : Prop := mk_wf {
  wf_snowballs_nodup : NoDup (snowballs g);
  wf_scene_nodup : NoDup (scene g);
  wf_world_nodup : NoDup (world_bodies g);
  wf_snowballs : forall s, s ∈ snowballs g -> is_Some (objects g !! s);
  wf_toRemove : forall s, s ∈ toRemove g -> is_Some (objects g !! s);
  wf_objects : forall s sb, objects g !! s = Some sb ->
    body sb = S (mesh sb) /\ s = S (body sb) /\ (s < next_ref g)%nat /\
    is_Some (meshes g !! mesh sb) /\ is_Some (bodies g !! body sb);
  wf_meshes : forall r m, meshes g !! r = Some m -> (r < next_ref g)%nat;
  wf_bodies : forall r b, bodies g !! r = Some b -> (r < next_ref g)%nat;
  wf_scene : forall r, r ∈ scene g -> (r < next_ref g)%nat;
  wf_world : forall r, r ∈ world_bodies g -> (r < next_ref g)%nat;
  wf_listeners : forall b s, listeners g !! b = Some s ->
    exists sb, objects g !! s = Some sb /\ body sb = b;
  wf_card : forall cs, cardSetup g = Some cs -> is_Some (bodies g !! cardBody cs)
}.

(** What never changes about the card once it is set up: its body, the
    size of its geometry and the sizes of the two snow canvases. *)
Definition card_static (cs : CardSetup) : nat * (R * R) * (nat * nat) * (nat * nat) :=
  (cardBody cs,
   (geometry_width (card cs), geometry_height (card cs)),
   (width (snowCanvasFront cs), height (snowCanvasFront cs)),
   (width (snowCanvasBack cs), height (snowCanvasBack cs))).

(** The three arrays a removal touches are the same in both states. *)
Definition keeps_arrays `{Three} (g g' : Game) : Prop :=
  snowballs g' = snowballs g /\ scene g' = scene g /\
  world_bodies g' = world_bodies g.

(** From [g] to [g'] every snowball object keeps its mesh and its body,
    and stays collided once it is. *)
Definition evolves `{Three} (g g' : Game) : Prop :=
  forall s sb, objects g !! s = Some sb ->
    exists sb', objects g' !! s = Some sb' /\
      mesh sb' = mesh sb /\ body sb' = body sb /\
      (isCollided sb = true -> isCollided sb' = true).

(** Everything a dispatch keeps, in one statement. *)
Definition dispatch_frame `{Three} (g g' : Game) : Prop :=
  keeps_arrays g g' /\ evolves g g' /\
  meshes g' = meshes g /\ bodies g' = bodies g /\
  listeners g' = listeners g /\ next_ref g' = next_ref g /\
  (forall x, x ∈ toRemove g -> x ∈ toRemove g') /\
  card_static <$> cardSetup g' = card_static <$> cardSetup g /\
  isAiming g' = isAiming g /\ cannon_rotation g' = cannon_rotation g.

(** What a whole [world.step] keeps: the same, except the bodies' motion. *)
Definition step_frame `{Three} (g g' : Game) : Prop :=
  keeps_arrays g g' /\ evolves g g' /\
  meshes g' = meshes g /\
  (forall r, is_Some (bodies g' !! r) <-> is_Some (bodies g !! r)) /\
  listeners g' = listeners g /\ next_ref g' = next_ref g /\
  (forall x, x ∈ toRemove g -> x ∈ toRemove g') /\
  card_static <$> cardSetup g' = card_static <$> cardSetup g /\
  isAiming g' = isAiming g /\ cannon_rotation g' = cannon_rotation g.

(** What [cleanupPhysics] keeps: the heaps and the card; the arrays can
    only lose elements. *)
Definition cleanup_frame `{Three} (g g' : Game) : Prop :=
  objects g' = objects g /\ meshes g' = meshes g /\ bodies g' = bodies g /\
  listeners g' = listeners g /\ next_ref g' = next_ref g /\
  cardSetup g' = cardSetup g /\
  isAiming g' = isAiming g /\ cannon_rotation g' = cannon_rotation g /\
  (forall x, x ∈ snowballs g' -> x ∈ snowballs g) /\
  (forall x, x ∈ scene g' -> x ∈ scene g) /\
  (forall x, x ∈ world_bodies g' -> x ∈ world_bodies g).

(** What the loop over the snowballs keeps. *)
Definition update_frame `{Three} (g g' : Game) : Prop :=
  keeps_arrays g g' /\ evolves g g' /\
  bodies g' = bodies g /\ listeners g' = listeners g /\
  next_ref g' = next_ref g /\ cardSetup g' = cardSetup g /\
  isAiming g' = isAiming g /\ cannon_rotation g' = cannon_rotation g /\
  (forall x, x ∈ toRemove g -> x ∈ toRemove g').

(** *** Observing the dispatches of a run

    Each collide event of a run, paired with the state it is dispatched
    in, in dispatch order. *)

Fixpoint event_dispatches `{Three} (g : Game) (es : list CollideEvent)
    : list (Game * CollideEvent) :=
  match es with
  | [] => []
  | e :: t => (g, e) :: event_dispatches (dispatchEvent g e) t
  end.

Fixpoint substep_dispatches `{Three} (g : Game) (subs : list Substep)
    : list (Game * CollideEvent) :=
  match subs with
  | [] => []
  | s :: t =>
      event_dispatches g (collisions s) ++ substep_dispatches (internalStep g s) t
  end.

Definition input_dispatches `{Three} (g : Game) (i : Input)
    : list (Game * CollideEvent) :=
  match i with
  | AnimationFrame o => substep_dispatches g (take maxSubSteps (substeps o))
  | _ => []
  end.

Fixpoint dispatches `{Three} (v : Revision) (g : Game) (inputs : list Input)
    : list (Game * CollideEvent) :=
  match inputs with
  | [] => []
  | i :: t => input_dispatches g i ++ dispatches v (handle v g i) t
  end.

(** The number of drawing operations on the two snow canvases. *)
Definition circles `{Three} (g : Game) : nat :=
  match cardSetup g with
  | Some cs =>
      length (painted (snowCanvasFront cs)) + length (painted (snowCanvasBack cs))
  | None => 0
  end.

(** The dispatch draws on a snow canvas. *)
Definition draws `{Three} (d : Game * CollideEvent) : bool :=
  negb (Nat.eqb (circles (dispatchEvent (fst d) (snd d))) (circles (fst d))).

(** The dispatch runs the listener of snowball [s], and it draws. *)
Definition splat_of `{Three} (s : Ref) (d : Game * CollideEvent) : bool :=
  bool_decide (listeners (fst d) !! target (snd d) = Some s) && draws d.

(** The number of splats snowball [s] produces in a list of dispatches. *)
Fixpoint count_splats `{Three} (s : Ref) (ds : list (Game * CollideEvent)) : nat :=
  match ds with
  | [] => 0
  | d :: t => (if splat_of s d then 1 else 0) + count_splats s t
  end.

(** The splats snowball [s] can still produce: none once it is collided. *)
Definition splats_left `{Three} (s : Ref) (g : Game) : nat :=
  match objects g !! s with
  | Some sb => if isCollided sb then 0 else 1
  | None => 1
  end.

(** ** A concrete rendering engine and sample inputs

    The engine's arithmetic over the reals, for an object without parent
    and with unit scale: an orientation is a quaternion, [rotateY] and
    [rotateX] multiply it by an axis rotation, a vector is rotated by
    conjugation, and [worldToLocal] undoes the object's translation and
    rotation.  The examples at the end of the file run on it. *)

Definition quat_mul (a b : Quat) : Quat :=
  mkQuat (qx a * qw b + qw a * qx b + qy a * qz b - qz a * qy b)
         (qy a * qw b + qw a * qy b + qz a * qx b - qx a * qz b)
         (qz a * qw b + qw a * qz b + qx a * qy b - qy a * qx b)
         (qw a * qw b - qx a * qx b - qy a * qy b - qz a * qz b).

Definition quat_conj (q : Quat) : Quat :=
  mkQuat (- qx q) (- qy q) (- qz q) (qw q).

Definition applyQuaternion (q : Quat) (v : Vec3) : Vec3 :=
  let ix := qw q * vx v + qy q * vz v - qz q * vy v in
  let iy := qw q * vy v + qz q * vx v - qx q * vz v in
  let iz := qw q * vz v + qx q * vy v - qy q * vx v in
  let iw := - qx q * vx v - qy q * vy v - qz q * vz v in
  mkVec3 (ix * qw q + iw * - qx q + iy * - qz q - iz * - qy q)
         (iy * qw q + iw * - qy q + iz * - qx q - ix * - qz q)
         (iz * qw q + iw * - qz q + ix * - qy q - iy * - qx q).

Definition three_math : Three :=
  {| Euler := Quat;
     euler_zero := quat_identity;
     rotateY := fun a q => quat_mul q (mkQuat 0 (sin (a / 2)) 0 (cos (a / 2)));
     rotateX := fun a q => quat_mul q (mkQuat (sin (a / 2)) 0 0 (cos (a / 2)));
     applyEuler := applyQuaternion;
     worldToLocal :=
       fun p q v => applyQuaternion (quat_conj q) (vadd v (negate p)) |}.

(** An 800 by 600 canvas at the page origin, and a click at its centre. *)
Definition sample_rect : DOMRect := mkDOMRect 0 0 800 600.
Definition sample_click : MouseEvent := mkMouseEvent 400 300.

(** A physics step in which nothing moves. *)
Definition still : Ref -> Body -> Kinematics :=
  fun _ b => mkKinematics (position b) (quaternion b) (velocity b).

Definition quiet_step : StepOutcome := mkStepOutcome [] false.

(** [src/game.js] after its constructor, with the size slider at 5; the
    ground, card and anchor bodies are 0, 1 and 2. *)
Definition sample_start : Game (H := three_math) :=
  constructor game_js sample_rect 5.

(** One click: the first snowball is object 5, with mesh 3 and body 4. *)
Definition sample_thrown : Game (H := three_math) :=
  run game_js sample_start [MouseDown sample_click; MouseUp sample_click].

(** The first snowball's body (4) meets the card body (1). *)
Definition sample_hit : CollideEvent :=
  mkCollide 4 1
    (mkContact 1 (mkVec3 0 0 0.1) (mkVec3 0 0 (-0.1)) (mkVec3 0 0 (-1)))
    (fun _ => 0.5).

Definition sample_hit_frame : Input :=
  AnimationFrame (mkStepOutcome [mkSubstep [sample_hit] still] false).

(** The frame of the hit: the first snowball is despawned. *)
Definition sample_despawned : Game (H := three_math) :=
  run game_js sample_thrown [sample_hit_frame].

(** A second click. *)
Definition sample_rethrown : Game (H := three_math) :=
  run game_js sample_despawned [MouseDown sample_click; MouseUp sample_click].

(** A physics step that drops the first snowball's body to y = -4. *)
Definition fall : Ref -> Body -> Kinematics :=
  fun r b =>
    if Nat.eqb r 4 then mkKinematics (mkVec3 0 (-4) 4) (quaternion b) (velocity b)
    else still r b.

Definition sample_fall_step : StepOutcome :=
  mkStepOutcome [mkSubstep [] fall] false.

(** The frame of the fall: the loop marks the first snowball. *)
Definition sample_fallen : Game (H := three_math) :=
  run game_js sample_thrown [AnimationFrame sample_fall_step].

(** A physics step that moves the first snowball's body to (0, 0, -0.8),
    just in front of the card. *)
Definition lift : Ref -> Body -> Kinematics :=
  fun r b =>
    if Nat.eqb r 4 then mkKinematics (mkVec3 0 0 (-0.8)) (quaternion b) (velocity b)
    else still r b.

(** A frame of two internal steps: the first snowball's body is moved in
    front of the card, then it meets the card. *)
Definition sample_lift_hit_step : StepOutcome :=
  mkStepOutcome [mkSubstep [] lift; mkSubstep [sample_hit] still] false.

Definition sample_hit_aloft : Game (H := three_math) :=
  run game_js sample_thrown [AnimationFrame sample_lift_hit_step].

(** ** The power bar of [src/game.js]

    [setupCannon] creates the bar's background [powerBarBg], a 0.3 by 2
    plane centred at (1, -1.5, 4), and its fill [powerBar], a 0.2 by 1.9
    plane at (1, -2.4, 4.1) whose vertical scale starts at 0.  Of the fill
    only [scale.y] and [position.y] ever change. *)
Record PowerBar := mkPowerBar { scale_y : R; position_y : R }.

(** The fill as [setupCannon] leaves it. *)
Definition powerBar_start : PowerBar := mkPowerBar 0 (-2.4).

Definition updatePowerBar `{Three} (g : Game) (powerBar : PowerBar) : PowerBar :=
  let powerScale := currentPower g / maxThrowPower g in
  mkPowerBar powerScale (-2.4 + powerScale * 0.95).

(** The power slider's [input] listener of [src/game.js]: the power is
    set, then the bar is updated ([this.powerBar] exists since
    [setupCannon]). *)
Definition powerInput_game_js `{Three} (value : R) (st : Game * PowerBar)
    : Game * PowerBar :=
  let g := powerInput value (fst st) in
  (g, updatePowerBar g (snd st)).

(** The lower and the upper edge of the fill, a plane of height 1.9 scaled
    about its centre, and those of the background, a plane of height 2
    centred at y = -1.5. *)
Definition powerBar_bottom (b : PowerBar) : R := position_y b - 1.9 * scale_y b / 2.
Definition powerBar_top (b : PowerBar) : R := position_y b + 1.9 * scale_y b / 2.
Definition powerBarBg_bottom : R := -1.5 - 2 / 2.
Definition powerBarBg_top : R := -1.5 + 2 / 2.

(** ** The snowfall of the later revision

    [positions] is the position attribute of the particle geometry and
    [snowVelocities] the velocity array, both with three consecutive
    entries per particle; [snowRandomFactors] has one entry per particle.
    The arrays are [Float32Array]s: their length is fixed when they are
    created, a read past the end gives [undefined] and a write past the end
    is ignored.  The rounding of a stored number to single precision is
    left out, as numbers are reals.  [activeSnowCount] is the number the
    density slider sets, a binary64 number. *)
Record Snow := mkSnow {
  positions : list R;
  snowVelocities : list R;
  snowRandomFactors : list R;
  snowCount : nat;
  activeSnowCount : float;
  time : R
}.

(** The integer [n] as a binary64 number; exact up to 2^53. *)
Definition number (n : Z) : float :=
  if (n <? 0)%Z then (- of_uint63 (Uint63Axioms.of_Z (- n)))%float
  else of_uint63 (Uint63Axioms.of_Z n).

(** [Math.floor]: a finite number that has a fraction is [m * 2^e] with a
    negative [e], and shifting [m] by [e] rounds it down; every other
    number is returned as it is. *)
Definition floor (x : float) : float :=
  match Prim2SF x with
  | S754_finite s m e =>
      if (0 <=? e)%Z then x
      else number (Z.shiftl (if s then Z.neg m else Z.pos m) e)
  | _ => x
  end.

(** The number of iterations of [for (let i = 0; i < bound; i += 3)].
    The comparison fails at once when [bound] is NaN, zero or negative.
    For a positive bound up to 2^52 the counter takes the exact values 0,
    3, 6, ... below the bound.  For a larger or an infinite bound the
    result is [None]: the loop then runs for more than 10^15 iterations or
    without end, and the frame is taken not to return. *)
Definition iterations (bound : float) : option Z :=
  match Prim2SF bound with
  | S754_finite false m e =>
      (* the bound rounded up to an integer *)
      let up := (- Z.shiftl (Z.neg m) e)%Z in
      if (up <=? 2 ^ 52)%Z then Some ((up + 2) / 3)%Z else None
  | S754_infinity false => None
  | _ => Some 0%Z
  end.

(** The loop of [setupSnowfall]: iterations [k], [k+1], ..., [todo] of
    them; [random] is the sequence of values [Math.random()] returns. *)
Fixpoint snow_init (random : nat -> R) (todo k : nat) : list R * list R * list R :=
  match todo with
  | O => ([], [], [])
  | S todo' =>
      let n := (7 * k)%nat in
      let '(ps, vs, fs) := snow_init random todo' (S k) in
      (random n * 60 - 30
         :: random (n + 1)%nat * 60 + 10
         :: random (n + 2)%nat * 180 - 20 :: ps,
       (random (n + 3)%nat - 0.5) * 0.03
         :: - (random (n + 4)%nat * 0.03 + 0.02)
         :: (random (n + 5)%nat - 0.5) * 0.03 :: vs,
       random (n + 6)%nat :: fs)
  end.

Definition setupSnowfall (random : nat -> R) : Snow :=
  let snowCount := Z.to_nat 10000 in
  let '(positions, velocities, randomFactors) := snow_init random snowCount 0 in
  mkSnow positions velocities randomFactors snowCount
    (number (Z.of_nat snowCount)) 0.

(** [Math.sign] *)
Definition sign (x : R) : R :=
  if ltb 0 x then 1 else if ltb x 0 then -1 else 0.

(** The arithmetic of one iteration of the snow loop of [animate], on the
    entries of one particle; [n] counts the calls of [Math.random()] made
    so far in this frame. *)
Definition move_particle (random : nat -> R) (n : nat)
    (time x y z vx vy vz randomFactor : R) : R * R * R * nat :=
  let windEffect := sin (time + x * 0.1) * 0.01 * randomFactor in
  let x := x + (vx + windEffect) in
  let y := y + vy in
  let z := z + (vz + windEffect) in
  let fell := ltb y (-2) in
  let x := if fell then random n * 60 - 30 else x in
  let y := if fell then random (n + 1)%nat * 10 + 60 else y in
  let z := if fell then random (n + 2)%nat * 180 - 20 else z in
  let n := if fell then (n + 3)%nat else n in
  let x := if gtb (Rabs x) 30 then - sign x * 30 else x in
  let z :=
    if ltb z (-20) || gtb z 160 then (if ltb z (-20) then 160 else -20) else z in
  (x, y, z, n).

(** The iteration for particle [k], that is for [i = 3 * k].  When [i] is
    past the end of the arrays every read is [undefined], the comparisons
    are false and the writes are ignored. *)
Definition update_particle (random : nat -> R) (time : R)
    (velocities factors : list R) (st : list R * nat) (k : nat) : list R * nat :=
  let i := (3 * k)%nat in
  match fst st !! i, fst st !! (i + 1)%nat, fst st !! (i + 2)%nat,
        velocities !! i, velocities !! (i + 1)%nat, velocities !! (i + 2)%nat,
        factors !! k with
  | Some x, Some y, Some z, Some vx, Some vy, Some vz, Some randomFactor =>
      let '(x', y', z', n') :=
        move_particle random (snd st) time x y z vx vy vz randomFactor in
      (<[(i + 2)%nat := z']> (<[(i + 1)%nat := y']> (<[i := x']> (fst st))), n')
  | _, _, _, _, _, _, _ => st
  end.

(** The snow part of [animate]: the clock advances, then the loop runs
    while [i < this.activeSnowCount * 3]; [None] when the loop does not
    end. *)
Definition animate_snow (random : nat -> R) (s : Snow) : option Snow :=
  let time := time s + 0.001 in
  match iterations (activeSnowCount s * 3) with
  | Some n =>
      let st :=
        fold_left
          (update_particle random time (snowVelocities s) (snowRandomFactors s))
          (seq 0 (Z.to_nat n)) (positions s, 0%nat) in
      Some (mkSnow (fst st) (snowVelocities s) (snowRandomFactors s) (snowCount s)
              (activeSnowCount s) time)
  | None => None
  end.

(** The [input] listener of the snow density slider; [value] is
    [parseFloat(e.target.value)]. *)
Definition densityInput (value : float) (s : Snow) : Snow :=
  let density := (value / 100)%float in
  mkSnow (positions s) (snowVelocities s) (snowRandomFactors s) (snowCount s)
    (floor (number (Z.of_nat (snowCount s)) * density)) (time s).

Inductive SnowInput :=
| SnowFrame (random : nat -> R)
| DensityInput (value : float).

Definition snow_handle (s : Snow) (i : SnowInput) : option Snow :=
  match i with
  | SnowFrame random => animate_snow random s
  | DensityInput value => Some (densityInput value s)
  end.

(** [Math.random()] returns a number in [0, 1). *)
Definition is_random (random : nat -> R) : Prop := forall n, 0 <= random n < 1.

Definition snow_input_ok (i : SnowInput) : Prop :=
  match i with
  | SnowFrame random => is_random random
  | DensityInput _ => True
  end.

(** The states of the snowfall: the one [setupSnowfall] leaves, and those
    the handlers that return lead to. *)
Inductive snow_reachable : Snow -> Prop :=
| snow_reachable_init random :
    is_random random -> snow_reachable (setupSnowfall random)
| snow_reachable_step s i s' :
    snow_reachable s -> snow_input_ok i -> snow_handle s i = Some s' ->
    snow_reachable s'.

(** The box the particles live in. *)
Definition in_box (x y z : R) : Prop :=
  -30 <= x <= 30 /\ -2 <= y < 70 /\ -20 <= z <= 160.

Definition particles_in_box (ps : list R) : Prop :=
  forall k x y z,
    ps !! (3 * k)%nat = Some x -> ps !! (3 * k + 1)%nat = Some y ->
    ps !! (3 * k + 2)%nat = Some z -> in_box x y z.

(** Every particle falls, by between 0.02 and 0.05 per frame. *)
Definition velocities_fall (vs : list R) : Prop :=
  forall k vy, vs !! (3 * k + 1)%nat = Some vy -> -0.05 < vy <= -0.02.

Record snow_ok (s : Snow) : Prop := mk_snow_ok {
  snow_ok_positions : length (positions s) = (3 * snowCount s)%nat;
  snow_ok_velocities : length (snowVelocities s) = (3 * snowCount s)%nat;
  snow_ok_factors : length (snowRandomFactors s) = snowCount s;
  snow_ok_box : particles_in_box (positions s);
  snow_ok_fall : velocities_fall (snowVelocities s)
}.

(** The number of active particles the density slider leaves at the
    integer position [n]: a hundredth of the 10000 particles per step,
    and one particle less at 57 and at 69, where [n / 100] is rounded to a
    number just below the quotient. *)
Definition density_count (n : Z) : Z :=
  if (n =? 57)%Z || (n =? 69)%Z then (100 * n - 1)%Z else (100 * n)%Z.

(** ** More predicates used in the statements *)

(** The body [initPhysics] creates: the first allocation. *)
Definition groundBody : Ref := 0%nat.

(** What the physics step never changes about a body. *)
Definition constants (b : Body) : R * BodyType * list Shape * R * R :=
  (mass b, body_type b, shapes b, linearDamping b, angularDamping b).

(** The mesh and the body of a snowball object. *)
Definition ids (sb : Snowball) : Ref * Ref := (mesh sb, body sb).

(** The bodies of the card and the size of its geometry. *)
Definition card_fixed (cs : CardSetup) : Ref * Ref * R * R :=
  (cardBody cs, anchorBody cs, geometry_width (card cs), geometry_height (card cs)).

(** The values the sliders control. *)
Definition controls `{Three} (g : Game) : R * R * R :=
  (currentPower g, maxThrowPower g, sizeSlider g).

(** From [g] to [g'] nothing is allocated or removed: the arrays are the
    same, every object keeps its mesh and body and does not get younger,
    every body keeps its constants and every mesh its radius. *)
Definition steady `{Three} (g g' : Game) : Prop :=
  keeps_arrays g g' /\
  (forall s, ids <$> objects g' !! s = ids <$> objects g !! s) /\
  (forall s sb sb', objects g !! s = Some sb -> objects g' !! s = Some sb' ->
     timeAlive sb <= timeAlive sb') /\
  (forall r, constants <$> bodies g' !! r = constants <$> bodies g !! r) /\
  (forall r, sphere_radius <$> meshes g' !! r = sphere_radius <$> meshes g !! r) /\
  next_ref g' = next_ref g /\
  card_fixed <$> cardSetup g' = card_fixed <$> cardSetup g /\
  controls g' = controls g.

Record sound `{Three} (v : Revision) (g : Game) : Prop := mk_sound {
  sound_mesh : forall s sb, objects g !! s = Some sb ->
    (mesh sb ∈ scene g <-> s ∈ snowballs g);
  sound_body : forall s sb, objects g !! s = Some sb ->
    (body sb ∈ world_bodies g <-> s ∈ snowballs g);
  sound_scene : forall r, r ∈ scene g ->
    exists s sb, objects g !! s = Some sb /\ mesh sb = r;
  sound_world : forall r, r ∈ world_bodies g ->
    r = groundBody \/
    (exists cs, cardSetup g = Some cs /\ (r = cardBody cs \/ r = anchorBody cs)) \/
    (exists s sb, objects g !! s = Some sb /\ body sb = r);
  sound_ground : groundBody ∈ world_bodies g /\
    exists b, bodies g !! groundBody = Some b /\
      constants b = (0, STATIC, [Plane], 0.01, 0.01);
  sound_card : forall cs, cardSetup g = Some cs ->
    cardBody cs ∈ world_bodies g /\ anchorBody cs ∈ world_bodies g /\
    exists cb ab,
      bodies g !! cardBody cs = Some cb /\
      constants cb =
        (1, DYNAMIC,
         [Box (mkVec3 (geometry_width (card cs) / 2)
                 (geometry_height (card cs) / 2) 0.1)], 0.3, 0.3) /\
      bodies g !! anchorBody cs = Some ab /\
      constants ab = (0, STATIC, [], 0.01, 0.01);
  sound_ball : forall s sb, objects g !! s = Some sb ->
    0 <= timeAlive sb /\
    exists m b,
      meshes g !! mesh sb = Some m /\ bodies g !! body sb = Some b /\
      constants b = (0.1, DYNAMIC, [Sphere (sphere_radius m)],
                     snowball_damping v, snowball_damping v)
}.

(** The number of frames among the inputs. *)
Fixpoint frames (inputs : list Input) : nat :=
  match inputs with
  | [] => 0
  | AnimationFrame _ :: t => S (frames t)
  | _ :: t => frames t
  end.

(** The physics step of a frame returns. *)
Definition returns (i : Input) : Prop :=
  match i with
  | AnimationFrame o => step_throws o = false
  | _ => True
  end.

(** What holds of the snowballs between two handlers: only listed
    snowballs are pending removal, no listed snowball has hit the card, and
    a listed snowball that is not pending is at most 5 seconds old. *)
Record rested `{Three} (g : Game) : Prop := mk_rested {
  rested_pending : forall s, s ∈ toRemove g -> s ∈ snowballs g;
  rested_fresh : forall s sb, s ∈ snowballs g -> objects g !! s = Some sb ->
    isCollided sb = false /\ (s ∉ toRemove g -> timeAlive sb <= 5)
}.

(** The same during a physics step: a listed snowball that has hit the
    card is pending removal. *)
Definition marked `{Three} (g : Game) : Prop :=
  forall s sb, s ∈ snowballs g -> objects g !! s = Some sb ->
    (isCollided sb = true -> s ∈ toRemove g) /\
    (s ∉ toRemove g -> timeAlive sb <= 5).

(** The state the mouse and the sliders control. *)
Definition ui `{Three} (g : Game)
    : bool * list Vec3 * Vec3 * Euler * (R * R) * (R * R) * option R
      * R * R * R * DOMRect :=
  (isAiming g, aimLine g, cannon_position g, cannon_rotation g, aimingStart g,
   currentAim g, throwPower g, currentPower g, maxThrowPower g, sizeSlider g,
   canvasRect g).

(** Whether the mouse button is held after the inputs, when [b] says
    whether it was held before. *)
Fixpoint held (b : bool) (inputs : list Input) : bool :=
  match inputs with
  | [] => b
  | MouseDown _ :: t => held true t
  | MouseUp _ :: t => held false t
  | _ :: t => held b t
  end.

(** The value ranges of the two sliders of the page
    ([src/unnamed/part_001]): the size slider runs from 1 to 5, the power
    slider from 0 to 100. *)
Definition in_range (i : Input) : Prop :=
  match i with
  | PowerInput value => 0 <= value <= 100
  | SizeInput value => 1 <= value <= 5
  | _ => True
  end.

(** The smallest and the largest radius of a snowball. *)
Definition min_radius (v : Revision) : R :=
  match v with game_js => 0.2 | part_000 => 0.1 end.
Definition max_radius (v : Revision) : R :=
  match v with game_js => 1 | part_000 => 0.5 end.

(** The aim line is hidden when not aiming and starts at the cannon when
    aiming; the cannon stays where [setupCannon] puts it. *)
Definition aim_shown `{Three} (g : Game) : Prop :=
  cannon_position g = mkVec3 0 (-1.5) 4 /\
  if isAiming g then exists tip, aimLine g = [cannon_position g; tip]
  else aimLine g = [].

(** The slider values, and the radii of all meshes, are in range. *)
Definition ranged `{Three} (v : Revision) (g : Game) : Prop :=
  maxThrowPower g = 60 /\ 0 <= currentPower g <= 60 /\
  1 <= sizeSlider g <= 5 /\
  forall r m, meshes g !! r = Some m ->
    min_radius v <= sphere_radius m <= max_radius v.

(** The drawing operations made so far on the front and on the back snow
    canvas; none before the card is set up. *)
Definition snow_front (ocs : option CardSetup) : list DrawOp :=
  match ocs with Some cs => painted (snowCanvasFront cs) | None => [] end.

Definition snow_back (ocs : option CardSetup) : list DrawOp :=
  match ocs with Some cs => painted (snowCanvasBack cs) | None => [] end.

(** A drawing operation that fills one full circle, from angle 0 to
    [2 * PI], in white of some opacity, centred on the canvas. *)
Definition snow_disc (c : Canvas) (op : DrawOp) : Prop :=
  exists opacity a,
    op = FillPath (mkRGBA 255 255 255 opacity) [a] /\
    arc_in_canvas c a /\ arc_start a = 0 /\ arc_end a = PI * 2.

(** A snow canvas holds the transparent fill of [setupCard], then only
    white full circles centred on the canvas. *)
Definition snow_only (c : Canvas) : Prop :=
  exists ops,
    painted c =
      FillRect (mkRGBA 0 0 0 0) 0 0 (INR (width c)) (INR (height c)) :: ops /\
    Forall (snow_disc c) ops.

Definition card_snow_only (ocs : option CardSetup) : Prop :=
  match ocs with
  | Some cs => snow_only (snowCanvasFront cs) /\ snow_only (snowCanvasBack cs)
  | None => True
  end.

(** The images the texture loads deliver satisfy [ok]. *)
Definition accepts (ok : nat -> nat -> Prop) (i : Input) : Prop :=
  match i with
  | TextureLoaded imageWidth imageHeight => ok imageWidth imageHeight
  | _ => True
  end.

(** The image a texture load delivers is not empty. *)
Definition loads_image : Input -> Prop :=
  accepts (fun imageWidth _ => (0 < imageWidth)%nat).

(** The snow canvases have the proportions of the card. *)
Definition snow_fits_card (ocs : option CardSetup) : Prop :=
  match ocs with
  | Some cs =>
      (INR (width (snowCanvasFront cs)) * geometry_height (card cs) =
         INR (height (snowCanvasFront cs)) * geometry_width (card cs)) /\
      (INR (width (snowCanvasBack cs)) * geometry_height (card cs) =
         INR (height (snowCanvasBack cs)) * geometry_width (card cs))
  | None => True
  end.

(** The card of the later revision is 4 wide. *)
Definition card_is_4_wide (ocs : option CardSetup) : Prop :=
  match ocs with
  | Some cs => geometry_width (card cs) = 4
  | None => True
  end.


(** The mouse event is inside the rectangle. *)
Definition inside (rect : DOMRect) (event : MouseEvent) : Prop :=
  rect_left rect <= clientX event <= rect_left rect + rect_width rect /\
  rect_top rect <= clientY event <= rect_top rect + rect_height rect.

(** ** More sample inputs *)

(** The card of [sample_start] and its body. *)
Definition sample_card : CardSetup :=
  mkCardSetup (mkCardMesh 3 4.5 (mkVec3 0 0 0) quat_identity) 1 2
    (new_snow_canvas 512 768) (new_snow_canvas 512 768)
    (mkTexture 1) (mkTexture 1).

Definition sample_card_body : Body :=
  mkBody 1 DYNAMIC [Box (mkVec3 1.5 2.25 0.1)] 0.3 0.3 (mkVec3 0 0 0)
    quat_identity vec3_zero.

(** 302 frames in which nothing collides and nothing moves. *)
Definition sample_quiet_frames : list Input :=
  replicate 302 (AnimationFrame quiet_step).

(** A physics step that raises an error at once. *)
Definition failing_step : StepOutcome := mkStepOutcome [] true.

(** A physics step that swings the card body (1) from the origin to
    (0, 0.04, 0.5), turned about the x axis. *)
Definition swing : Ref -> Body -> Kinematics :=
  fun r b =>
    if Nat.eqb r 1
    then mkKinematics (mkVec3 0 0.04 0.5) (mkQuat 0.28 0 0 0.96) (velocity b)
    else still r b.

Definition sample_swing_step : StepOutcome :=
  mkStepOutcome [mkSubstep [] swing] false.

(** The same step, raising an error after the card body has moved. *)
Definition sample_failing_swing : StepOutcome :=
  mkStepOutcome [mkSubstep [] swing] true.

(** [Math.random()] returning 0.5 every time. *)
Definition sample_random : nat -> R := fun _ => 0.5.


Definition sample_normal : Vec3 := contactNormal sample_card (e_contact sample_hit).

(** The sliders are moved, then a snowball is thrown. *)
Definition sample_slider_inputs : list Input :=
  [SizeInput 3; PowerInput 50; MouseDown sample_click; MouseUp sample_click].

(** The card of the later revision for an image of 512 by 768. *)
Definition sample_loaded_card : CardSetup :=
  mkCardSetup
    (mkCardMesh 4 (4 * (INR 768 / INR 512)) (mkVec3 0 0 (-1)) quat_identity) 1 2
    (new_snow_canvas 512 768) (new_snow_canvas 512 768)
    (mkTexture 1) (mkTexture 1).

(** * Properties *)

(** ** Comparisons *)

Lemma ltb_true (a b : R) : ltb a b = true <-> a < b.
Proof. unfold ltb. destruct (Rlt_dec a b); split; intros; try lra; congruence. Qed.

Lemma ltb_false (a b : R) : ltb a b = false <-> b <= a.
Proof. unfold ltb. destruct (Rlt_dec a b); split; intros; try lra; congruence. Qed.

Lemma gtb_true (a b : R) : gtb a b = true <-> a > b.
Proof. unfold gtb. rewrite ltb_true. lra. Qed.

Lemma gtb_false (a b : R) : gtb a b = false <-> a <= b.
Proof. unfold gtb. rewrite ltb_false. lra. Qed.

(** The sizes of the snow canvases as real numbers. *)
Lemma INR_512 : INR 512 = 512.
Proof. rewrite INR_IZR_INZ. reflexivity. Qed.

Lemma INR_768 : INR 768 = 768.
Proof. rewrite INR_IZR_INZ. reflexivity. Qed.

(** ** Clamping *)

Lemma clamp_bounds (lo hi t : R) :
  lo <= hi -> lo <= Rmax lo (Rmin hi t) <= hi.
Proof.
  intros Hle. unfold Rmax, Rmin.
  repeat destruct Rle_dec; lra.
Qed.

Lemma clamp_id (lo hi t : R) :
  lo <= t <= hi -> Rmax lo (Rmin hi t) = t.
Proof.
  intros Ht. unfold Rmax, Rmin.
  repeat destruct Rle_dec; lra.
Qed.

Lemma clamp_above (lo hi t : R) :
  lo <= hi -> hi <= t -> Rmax lo (Rmin hi t) = hi.
Proof.
  intros Hle Ht. unfold Rmax, Rmin.
  repeat destruct Rle_dec; lra.
Qed.

(** ** The decal painter *)

Section PainterProperties.
Context `{Three}.
Variable random : nat -> R.

Lemma small_circles_size (todo i : nat) (x y size : R) (c : Canvas) :
  width (small_circles random todo i x y size c) = width c /\
  height (small_circles random todo i x y size c) = height c /\
  fillStyle (small_circles random todo i x y size c) = fillStyle c.
Proof.
  revert i c. induction todo as [|todo IH]; intros i c; simpl; [done|].
  destruct (IH (S i)
    (fill (arc
       (Rmax 0 (Rmin (INR (width c))
          (x + cos (random (2 + 3 * i + 1)%nat * PI * 2)
               * (size * (0.5 + random (2 + 3 * i + 2)%nat * 0.5)))))
       (Rmax 0 (Rmin (INR (height c))
          (y + sin (random (2 + 3 * i + 1)%nat * PI * 2)
               * (size * (0.5 + random (2 + 3 * i + 2)%nat * 0.5)))))
       (size * (0.2 + random (2 + 3 * i)%nat * 0.3)) 0 (PI * 2) (beginPath c))))
    as (Hw & Hh & Hs).
  simpl in *. auto.
Qed.

Lemma small_circles_painted (todo i : nat) (x y size : R) (c : Canvas) :
  exists ops,
    painted (small_circles random todo i x y size c) = painted c ++ ops /\
    length ops = todo /\
    Forall (circle_in_canvas c) ops.
Proof.
  revert i c. induction todo as [|todo IH]; intros i c; simpl.
  - exists []. rewrite app_nil_r. auto.
  - match goal with
    | |- context [small_circles random todo (S i) x y size ?c1] =>
        destruct (IH (S i) c1) as (ops & Hp & Hl & Hin)
    end.
    simpl in Hp.
    eexists (_ :: ops). split; [|split].
    + rewrite Hp, <- app_assoc. simpl. reflexivity.
    + simpl. by rewrite Hl.
    + constructor.
      * eexists _, _. split; [reflexivity|].
        split; simpl; apply clamp_bounds; apply pos_INR.
      * eapply Forall_impl; [exact Hin|].
        intros op (st & a & -> & Ha). by exists st, a.
Qed.

Lemma splat_x_bounds (p : Vec3) (c : Canvas) :
  0 <= splat_x p c <= INR (width c).
Proof.
  unfold splat_x.
  pose proof (clamp_bounds 0 1 (splat_u p) ltac:(lra)) as Hc.
  pose proof (pos_INR (width c)). nra.
Qed.

Lemma splat_y_bounds (p : Vec3) (c : Canvas) :
  0 <= splat_y p c <= INR (height c).
Proof.
  unfold splat_y.
  pose proof (clamp_bounds 0 1 (splat_v p) ltac:(lra)) as Hc.
  pose proof (pos_INR (height c)). nra.
Qed.

(** What [draw_splat] paints: the main circle at [(splat_x, splat_y)], then
    five small circles. *)
Lemma draw_splat_painted (p : Vec3) (c : Canvas) :
  exists style size smalls,
    painted (draw_splat random p c) =
      painted c
      ++ FillPath style [mkArc (splat_x p c) (splat_y p c) size 0 (PI * 2)]
      :: smalls /\
    length smalls = 5%nat /\
    Forall (circle_in_canvas c) smalls.
Proof.
  unfold draw_splat.
  match goal with
  | |- context [small_circles random 5 0 ?x ?y ?s ?c2] =>
      destruct (small_circles_painted 5 0 x y s c2) as (ops & Hp & Hl & Hin)
  end.
  rewrite Hp. simpl.
  eexists _, _, ops. split; [|split].
  - rewrite <- app_assoc. simpl. reflexivity.
  - exact Hl.
  - exact Hin.
Qed.

Lemma draw_splat_size (p : Vec3) (c : Canvas) :
  width (draw_splat random p c) = width c /\
  height (draw_splat random p c) = height c.
Proof.
  unfold draw_splat.
  match goal with
  | |- context [small_circles random 5 0 ?x ?y ?s ?c2] =>
      destruct (small_circles_size 5 0 x y s c2) as (Hw & Hh & _)
  end.
  simpl in *. auto.
Qed.

Lemma draw_splat_length (p : Vec3) (c : Canvas) :
  length (painted (draw_splat random p c)) = (length (painted c) + 6)%nat.
Proof.
  destruct (draw_splat_painted p c) as (st & sz & smalls & Hp & Hl & _).
  rewrite Hp, length_app. simpl. rewrite Hl. reflexivity.
Qed.

End PainterProperties.

Section SplatProperties.
Context `{Three}.
Variable random : nat -> R.

Lemma addSnowSplat_card (p normal : Vec3) (cs : CardSetup) :
  card (addSnowSplat random p normal cs) = card cs /\
  cardBody (addSnowSplat random p normal cs) = cardBody cs.
Proof. done. Qed.

Lemma hit_canvas_addSnowSplat (p normal : Vec3) (cs : CardSetup) :
  hit_canvas normal (addSnowSplat random p normal cs) =
  draw_splat random p (hit_canvas normal cs).
Proof.
  unfold hit_canvas. rewrite (proj1 (addSnowSplat_card p normal cs)).
  unfold addSnowSplat. destruct (hitFront (card cs) normal); done.
Qed.

Lemma addSnowSplat_static (p normal : Vec3) (cs : CardSetup) :
  card_static (addSnowSplat random p normal cs) = card_static cs.
Proof.
  unfold card_static, addSnowSplat. cbv zeta.
  cbn [card cardBody snowCanvasFront snowCanvasBack].
  destruct (hitFront (card cs) normal);
    destruct (draw_splat_size random p (snowCanvasFront cs)) as [-> ->] ||
    destruct (draw_splat_size random p (snowCanvasBack cs)) as [-> ->];
    reflexivity.
Qed.

(** On the card face of [src/game.js] (3 by 4.5, so half extents 1.5 and
    2.25) the clamps are the identity and the splat lands on the pixel the
    spec names. *)
Lemma splat_on_face (p : Vec3) (c : Canvas) :
  -1.5 <= vx p <= 1.5 -> -2.25 <= vy p <= 2.25 ->
  splat_x p c = spec_pixel_x 1.5 (INR (width c)) (vx p) /\
  splat_y p c = spec_pixel_y 2.25 (INR (height c)) (vy p).
Proof.
  intros Hx Hy. unfold splat_x, splat_y, spec_pixel_x, spec_pixel_y, spec_u.
  rewrite !clamp_id; [done| |]; unfold splat_v, splat_u; lra.
Qed.

(** C8: whatever the local contact position, the main splat is centred at
    a pixel with [0 <= x <= canvas.width] and [0 <= y <= canvas.height] of
    the canvas it is drawn on, and each of the five small circles that
    follow is centred on that canvas as well. *)
Theorem addSnowSplat_centres_on_canvas (p normal : Vec3) (cs : CardSetup) :
  let c := hit_canvas normal cs in
  let c' := hit_canvas normal (addSnowSplat random p normal cs) in
  exists style size smalls,
    painted c' =
      painted c
      ++ FillPath style [mkArc (splat_x p c) (splat_y p c) size 0 (PI * 2)]
      :: smalls /\
    0 <= splat_x p c <= INR (width c) /\
    0 <= splat_y p c <= INR (height c) /\
    length smalls = 5%nat /\
    Forall (circle_in_canvas c) smalls.
Proof.
  intros c c'. subst c c'. rewrite hit_canvas_addSnowSplat.
  destruct (draw_splat_painted random p (hit_canvas normal cs))
    as (style & size & smalls & Hp & Hl & Hin).
  exists style, size, smalls.
  split; [exact Hp|].
  split; [apply splat_x_bounds|].
  split; [apply splat_y_bounds|].
  split; [exact Hl|exact Hin].
Qed.

(** C10: the contact normal is moved to the card's position, taken into
    the card's local space by [worldToLocal] at the card's position and
    quaternion, and normalised, that is divided by its length, or by 1 when
    its length is 0.  The splat goes to the front canvas when that vector
    has a negative z and to the back canvas otherwise; the
    chosen canvas gains the six circles and its overlay texture is flagged,
    while the canvas and the overlay texture of the other side are
    unchanged. *)
Theorem addSnowSplat_one_side (p normal : Vec3) (cs : CardSetup) :
  let cs' := addSnowSplat random p normal cs in
  let local :=
    worldToLocal (card_position (card cs)) (card_quaternion (card cs))
      (vadd normal (card_position (card cs))) in
  let len := sqrt (vx local * vx local + vy local * vy local + vz local * vz local) in
  let d := if Req_dec_T len 0 then 1 else len in
  let normalised := mkVec3 (vx local / d) (vy local / d) (vz local / d) in
  (vz normalised < 0 /\
   snowCanvasFront cs' = draw_splat random p (snowCanvasFront cs) /\
   length (painted (snowCanvasFront cs')) =
     (length (painted (snowCanvasFront cs)) + 6)%nat /\
   snowOverlayFront cs' = needsUpdate_true (snowOverlayFront cs) /\
   snowCanvasBack cs' = snowCanvasBack cs /\
   snowOverlayBack cs' = snowOverlayBack cs)
  \/
  (~ vz normalised < 0 /\
   snowCanvasBack cs' = draw_splat random p (snowCanvasBack cs) /\
   length (painted (snowCanvasBack cs')) =
     (length (painted (snowCanvasBack cs)) + 6)%nat /\
   snowOverlayBack cs' = needsUpdate_true (snowOverlayBack cs) /\
   snowCanvasFront cs' = snowCanvasFront cs /\
   snowOverlayFront cs' = snowOverlayFront cs).
Proof.
  intros cs' local len d normalised. subst cs'.
  unfold addSnowSplat, hitFront, localNormal, normalize, vlength.
  fold local. fold len. fold d. fold normalised.
  destruct (ltb (vz normalised) 0) eqn:Hz.
  - left. apply ltb_true in Hz.
    split; [exact Hz|]. split; [reflexivity|].
    split; [apply draw_splat_length|]. done.
  - right. apply ltb_false in Hz.
    split; [lra|]. split; [reflexivity|].
    split; [apply draw_splat_length|]. done.
Qed.

End SplatProperties.

(** ** Arrays of references *)

Lemma includes_true (x : Ref) (l : list Ref) : includes x l = true <-> x ∈ l.
Proof. unfold includes. apply bool_decide_eq_true. Qed.

Lemma includes_false (x : Ref) (l : list Ref) : includes x l = false <-> x ∉ l.
Proof. unfold includes. apply bool_decide_eq_false. Qed.

Lemma indexOf_ge (x : Ref) (l : list Ref) : (-1 <= indexOf x l)%Z.
Proof.
  induction l as [|y t IH]; simpl; [lia|].
  destruct (Nat.eqb x y); [lia|].
  destruct (Z.ltb_spec (indexOf x t) 0); lia.
Qed.

(** [indexOf] then [splice], one element at a time. *)
Lemma array_remove_cons (x y : Ref) (t : list Ref) :
  array_remove x (y :: t) = if Nat.eqb x y then t else y :: array_remove x t.
Proof.
  unfold array_remove. simpl.
  destruct (Nat.eqb x y); [reflexivity|].
  pose proof (indexOf_ge x t) as Hge.
  destruct (Z.ltb_spec (indexOf x t) 0) as [Hlt|Hnn].
  - replace (indexOf x t) with (-1)%Z by lia. reflexivity.
  - replace (indexOf x t + 1 >? -1)%Z with true by lia.
    replace (indexOf x t >? -1)%Z with true by lia.
    unfold splice1.
    replace (Z.to_nat (indexOf x t + 1)) with (S (Z.to_nat (indexOf x t))) by lia.
    reflexivity.
Qed.

Lemma array_remove_nil (x : Ref) : array_remove x [] = [].
Proof. reflexivity. Qed.

Lemma array_remove_subset (x y : Ref) (l : list Ref) :
  y ∈ array_remove x l -> y ∈ l.
Proof.
  induction l as [|z t IH]; [done|].
  rewrite array_remove_cons. destruct (Nat.eqb x z).
  - intros Hy. by apply list_elem_of_further.
  - rewrite !elem_of_cons. intros [->|Hy]; auto.
Qed.

Lemma array_remove_other (x y : Ref) (l : list Ref) :
  y <> x -> y ∈ l -> y ∈ array_remove x l.
Proof.
  intros Hne. induction l as [|z t IH]; [done|].
  rewrite array_remove_cons. destruct (Nat.eqb_spec x z) as [->|Hxz].
  - rewrite elem_of_cons. intros [->|Hy]; [done|exact Hy].
  - rewrite !elem_of_cons. intros [->|Hy]; auto.
Qed.

Lemma array_remove_NoDup (x : Ref) (l : list Ref) :
  NoDup l -> NoDup (array_remove x l).
Proof.
  induction l as [|z t IH]; [done|].
  rewrite array_remove_cons. intros Hnd.
  apply NoDup_cons in Hnd as [Hz Hnd].
  destruct (Nat.eqb x z); [exact Hnd|].
  apply NoDup_cons. split; [|by apply IH].
  intros Hin. apply Hz. by apply array_remove_subset in Hin.
Qed.

Lemma array_remove_gone (x : Ref) (l : list Ref) :
  NoDup l -> x ∉ array_remove x l.
Proof.
  induction l as [|z t IH]; [by rewrite array_remove_nil; intros _ ?%elem_of_nil|].
  rewrite array_remove_cons. intros Hnd.
  apply NoDup_cons in Hnd as [Hz Hnd].
  destruct (Nat.eqb_spec x z) as [->|Hxz]; [exact Hz|].
  rewrite elem_of_cons. intros [Heq|Hin]; [done|]. by apply IH.
Qed.

Lemma array_remove_absent (x : Ref) (l : list Ref) :
  x ∉ l -> array_remove x l = l.
Proof.
  induction l as [|z t IH]; [done|].
  rewrite array_remove_cons, not_elem_of_cons. intros [Hne Hin].
  destruct (Nat.eqb_spec x z); [done|]. by rewrite IH.
Qed.

Lemma set_add_elem (x y : Ref) (l : list Ref) :
  y ∈ set_add x l <-> y = x \/ y ∈ l.
Proof.
  unfold set_add. destruct (includes x l) eqn:Hi.
  - apply includes_true in Hi. split; [auto|]. intros [->|?]; auto.
  - rewrite elem_of_app, list_elem_of_singleton. tauto.
Qed.

Lemma addBody_elem (x y : Ref) (l : list Ref) :
  y ∈ addBody x l <-> y = x \/ y ∈ l.
Proof. apply set_add_elem. Qed.

Lemma addBody_NoDup (x : Ref) (l : list Ref) : NoDup l -> NoDup (addBody x l).
Proof.
  intros Hnd. unfold addBody. destruct (includes x l) eqn:Hi; [exact Hnd|].
  apply includes_false in Hi.
  apply NoDup_app. split; [exact Hnd|]. split.
  - intros y Hy ->%list_elem_of_singleton. done.
  - apply NoDup_singleton.
Qed.

(** A property kept by every iteration is kept by the loop. *)
Lemma fold_left_preserves {A St : Type} (P : St -> Prop) (f : St -> A -> St)
    (l : list A) (s : St) :
  (forall s a, P s -> P (f s a)) -> P s -> P (fold_left f l s).
Proof.
  intros Hf. revert s. induction l as [|a l IH]; intros s Hs; simpl; auto.
Qed.

(** ** The invariant *)

(** Reduce the projections of a state built by setters. *)
Ltac sg :=
  cbn [snowballs toRemove objects meshes bodies listeners next_ref scene
       world_bodies isAiming aimingStart currentAim throwPower cannon_position
       cannon_rotation aimLine currentPower maxThrowPower sizeSlider canvasRect
       cardSetup
       set_snowballs set_toRemove set_objects set_meshes set_bodies
       set_listeners set_next_ref set_scene set_world_bodies set_isAiming
       set_aimingStart set_currentAim set_throwPower set_cannon_rotation
       set_aimLine set_currentPower set_sizeSlider set_canvasRect set_cardSetup
       removeSnowball] in *.

Section Invariant.
Context `{Three}.

(** [wf] reads only the heaps, the arrays and the card. *)
Lemma wf_ext (g g' : Game) :
  snowballs g' = snowballs g -> toRemove g' = toRemove g ->
  objects g' = objects g -> meshes g' = meshes g -> bodies g' = bodies g ->
  listeners g' = listeners g -> next_ref g' = next_ref g ->
  scene g' = scene g -> world_bodies g' = world_bodies g ->
  cardSetup g' = cardSetup g ->
  wf g -> wf g'.
Proof.
  intros E1 E2 E3 E4 E5 E6 E7 E8 E9 E10 [].
  constructor; rewrite ?E1, ?E2, ?E3, ?E4, ?E5, ?E6, ?E7, ?E8, ?E9, ?E10; assumption.
Qed.

Lemma wf_removeSnowball (s : Ref) (g : Game) :
  is_Some (objects g !! s) -> wf g -> wf (removeSnowball s g).
Proof.
  intros Hs []. constructor; sg; try assumption.
  intros s0 [->|Hin]%set_add_elem; auto.
Qed.

Lemma wf_on_card_hit (s : Ref) (sb : Snowball) (cs : CardSetup) (cb : Body)
    (e : CollideEvent) (g : Game) :
  objects g !! s = Some sb -> cardSetup g = Some cs ->
  wf g -> wf (on_card_hit s sb cs cb e g).
Proof.
  intros Hs Hcs Hwf. unfold on_card_hit.
  apply wf_removeSnowball; [sg; rewrite lookup_insert_eq; eauto|].
  destruct Hwf. constructor; sg; try assumption.
  - intros s0 Hin. destruct (decide (s0 = s)) as [->|Hne].
    + rewrite lookup_insert_eq. eauto.
    + rewrite lookup_insert_ne by done. auto.
  - intros s0 Hin. destruct (decide (s0 = s)) as [->|Hne].
    + rewrite lookup_insert_eq. eauto.
    + rewrite lookup_insert_ne by done. auto.
  - intros s0 sb0. destruct (decide (s0 = s)) as [->|Hne].
    + rewrite lookup_insert_eq. intros [= <-]. simpl. eauto.
    + rewrite lookup_insert_ne by done. auto.
  - intros b s0 Hl. destruct (wf_listeners0 b s0 Hl) as (sb0 & Hsb0 & Hb).
    destruct (decide (s0 = s)) as [->|Hne].
    + exists (mark_collided sb). rewrite lookup_insert_eq. split; [done|].
      simpl. congruence.
    + exists sb0. rewrite lookup_insert_ne by done. auto.
  - intros cs0 [= <-]. rewrite (proj2 (addSnowSplat_card _ _ _ _)). auto.
Qed.

Lemma wf_on_collide (s : Ref) (e : CollideEvent) (g : Game) :
  wf g -> wf (on_collide s e g).
Proof.
  intros Hwf. unfold on_collide.
  destruct (objects g !! s) as [sb|] eqn:Hs; [|done].
  destruct (cardSetup g) as [cs|] eqn:Hcs; [|done].
  destruct (negb (isCollided sb) && Nat.eqb (e_body e) (cardBody cs)); [|done].
  destruct (bodies g !! cardBody cs) as [cb|]; [|done].
  by apply wf_on_card_hit.
Qed.

Lemma wf_dispatchEvent (g : Game) (e : CollideEvent) :
  wf g -> wf (dispatchEvent g e).
Proof.
  intros Hwf. unfold dispatchEvent.
  destruct (listeners g !! target e); [by apply wf_on_collide|done].
Qed.

Lemma integrate_lookup (m : Ref -> Body -> Kinematics) (g : Game) (r : Ref) :
  bodies (integrate m g) !! r =
  (fun b => if includes r (world_bodies g) then move (m r b) b else b)
    <$> bodies g !! r.
Proof.
  unfold integrate. sg. rewrite map_lookup_imap.
  destruct (bodies g !! r); reflexivity.
Qed.

Lemma integrate_is_Some (m : Ref -> Body -> Kinematics) (g : Game) (r : Ref) :
  is_Some (bodies (integrate m g) !! r) <-> is_Some (bodies g !! r).
Proof. rewrite integrate_lookup, fmap_is_Some. done. Qed.

Lemma wf_integrate (m : Ref -> Body -> Kinematics) (g : Game) :
  wf g -> wf (integrate m g).
Proof.
  intros Hwf. pose proof (integrate_is_Some m g) as Hi.
  destruct Hwf. constructor; try assumption.
  - intros s sb Hs. destruct (wf_objects0 s sb Hs) as (? & ? & ? & ? & ?).
    repeat split; try assumption. by apply Hi.
  - intros r b Hr. assert (is_Some (bodies g !! r)) as [b0 Hb0].
    { apply Hi. eauto. }
    eauto.
  - intros cs Hcs. apply Hi. auto.
Qed.

Lemma wf_internalStep (g : Game) (s : Substep) : wf g -> wf (internalStep g s).
Proof.
  intros Hwf. unfold internalStep. apply wf_integrate.
  apply fold_left_preserves; [|exact Hwf].
  intros g0 e. apply wf_dispatchEvent.
Qed.

Lemma wf_world_step (dt t : R) (n : nat) (o : StepOutcome) (g : Game) :
  wf g -> wf (world_step dt t n o g).
Proof.
  intros Hwf. unfold world_step.
  apply fold_left_preserves; [|exact Hwf].
  intros g0 s. apply wf_internalStep.
Qed.

Lemma wf_cleanup_one (g : Game) (s : Ref) : wf g -> wf (cleanup_one g s).
Proof.
  intros Hwf. unfold cleanup_one.
  destruct (objects g !! s) as [sb|]; [|done].
  set (g1 := set_scene (array_remove (mesh sb) (scene g)) g).
  assert (wf g1) as Hwf1.
  { destruct Hwf. constructor; subst g1; sg; try assumption.
    - by apply array_remove_NoDup.
    - intros r Hr%array_remove_subset. auto. }
  set (g2 := if includes (body sb) (world_bodies g1)
             then set_world_bodies (array_remove (body sb) (world_bodies g1)) g1
             else g1).
  assert (wf g2) as Hwf2.
  { subst g2. destruct (includes (body sb) (world_bodies g1)); [|done].
    destruct Hwf1. constructor; sg; try assumption.
    - by apply array_remove_NoDup.
    - intros r Hr%array_remove_subset. auto. }
  fold (array_remove s (snowballs g2)).
  change (wf (let index := indexOf s (snowballs g2) in
              if (index >? -1)%Z
              then set_snowballs (splice1 index (snowballs g2)) g2 else g2)).
  cbv zeta.
  destruct (indexOf s (snowballs g2) >? -1)%Z eqn:Hi; [|done].
  assert (splice1 (indexOf s (snowballs g2)) (snowballs g2)
          = array_remove s (snowballs g2)) as ->.
  { unfold array_remove. by rewrite Hi. }
  destruct Hwf2. constructor; sg; try assumption.
  - by apply array_remove_NoDup.
  - intros r Hr%array_remove_subset. auto.
Qed.

Lemma wf_cleanupPhysics (g : Game) : wf g -> wf (cleanupPhysics g).
Proof.
  intros Hwf. unfold cleanupPhysics.
  assert (wf (fold_left cleanup_one (toRemove g) g)) as [].
  { apply fold_left_preserves; [|exact Hwf]. apply wf_cleanup_one. }
  constructor; sg; try assumption.
  intros s Hs. by apply elem_of_nil in Hs.
Qed.

Lemma wf_sync_card (g : Game) : wf g -> wf (sync_card g).
Proof.
  intros Hwf. unfold sync_card.
  destruct (cardSetup g) as [cs|] eqn:Hcs; [|done].
  destruct (bodies g !! cardBody cs) as [cb|] eqn:Hcb; [|done].
  destruct Hwf. constructor; sg; try assumption.
  intros cs0 [= <-]. simpl. eauto.
Qed.

Lemma wf_update_snowball (g : Game) (s : Ref) : wf g -> wf (update_snowball g s).
Proof.
  intros Hwf. unfold update_snowball.
  destruct (objects g !! s) as [sb|] eqn:Hs; [|done].
  destruct (bodies g !! body sb) as [b|] eqn:Hb; [|done].
  destruct (meshes g !! mesh sb) as [m|] eqn:Hm; [|done].
  destruct (includes (body sb) (world_bodies g)
            && negb (includes s (toRemove g))); [|done].
  set (g2 := set_meshes _ _).
  assert (wf g2) as Hwf2.
  { subst g2. destruct Hwf. constructor; sg; try assumption.
    - intros s0 Hin. destruct (decide (s0 = s)) as [->|Hne].
      + rewrite lookup_insert_eq. eauto.
      + rewrite lookup_insert_ne by done. auto.
    - intros s0 Hin. destruct (decide (s0 = s)) as [->|Hne].
      + rewrite lookup_insert_eq. eauto.
      + rewrite lookup_insert_ne by done. auto.
    - intros s0 sb0 Hs0.
      assert (exists sb1, objects g !! s0 = Some sb1 /\ mesh sb0 = mesh sb1
                          /\ body sb0 = body sb1) as (sb1 & Hs1 & Em & Eb).
      { destruct (decide (s0 = s)) as [->|Hne].
        - rewrite lookup_insert_eq in Hs0. injection Hs0 as <-. eauto.
        - rewrite lookup_insert_ne in Hs0 by done. eauto. }
      rewrite Em, Eb.
      destruct (wf_objects0 s0 sb1 Hs1) as (? & ? & ? & Hmm & ?).
      repeat split; try assumption.
      destruct (decide (mesh sb1 = mesh sb)) as [->|Hne].
      + rewrite lookup_insert_eq. eauto.
      + rewrite lookup_insert_ne by done. auto.
    - intros r m0. destruct (decide (r = mesh sb)) as [->|Hne].
      + intros _. eauto.
      + rewrite lookup_insert_ne by done. eauto.
    - intros b0 s0 Hl. destruct (wf_listeners0 b0 s0 Hl) as (sb0 & Hsb0 & Hb0).
      destruct (decide (s0 = s)) as [->|Hne].
      + exists (age sb). rewrite lookup_insert_eq. split; [done|].
        simpl. congruence.
      + exists sb0. rewrite lookup_insert_ne by done. auto. }
  destruct (expired (age sb) b); [|exact Hwf2].
  apply wf_removeSnowball; [|exact Hwf2].
  subst g2. sg. rewrite lookup_insert_eq. eauto.
Qed.

Lemma wf_update_snowballs (g : Game) : wf g -> wf (update_snowballs g).
Proof.
  intros Hwf. unfold update_snowballs.
  apply fold_left_preserves; [|exact Hwf]. apply wf_update_snowball.
Qed.

Lemma wf_animate (o : StepOutcome) (g : Game) : wf g -> wf (fst (animate o g)).
Proof.
  intros Hwf. unfold animate. cbn [fst].
  pose proof (wf_world_step fixedTimeStep fixedTimeStep maxSubSteps o g Hwf).
  destruct (step_throws o).
  - by apply wf_cleanupPhysics.
  - by apply wf_update_snowballs, wf_sync_card, wf_cleanupPhysics.
Qed.

Lemma wf_updateAimVisuals (v : Revision) (event : MouseEvent) (g : Game) :
  wf g -> wf (updateAimVisuals v event g).
Proof.
  intros Hwf. unfold updateAimVisuals.
  destruct (negb (isAiming g)); [done|].
  by eapply wf_ext; [..|exact Hwf].
Qed.

Lemma wf_startAiming (v : Revision) (event : MouseEvent) (g : Game) :
  wf g -> wf (startAiming v event g).
Proof.
  intros Hwf. unfold startAiming. apply wf_updateAimVisuals.
  by eapply wf_ext; [..|exact Hwf].
Qed.

Lemma wf_updateAiming (v : Revision) (event : MouseEvent) (g : Game) :
  wf g -> wf (updateAiming v event g).
Proof.
  intros Hwf. unfold updateAiming.
  destruct (negb (isAiming g)); [done|]. apply wf_updateAimVisuals.
  by eapply wf_ext; [..|exact Hwf].
Qed.

Lemma wf_throwSnowball (v : Revision) (event : MouseEvent) (g : Game) :
  wf g -> wf (throwSnowball v event g).
Proof.
  intros Hwf. unfold throwSnowball.
  destruct (negb (isAiming g)); [done|].
  cbv zeta. destruct Hwf.
  assert (next_ref g ∉ scene g) as Hfs.
  { intros Hin%wf_scene0. lia. }
  assert (S (next_ref g) ∉ world_bodies g) as Hfw.
  { intros Hin%wf_world0. lia. }
  assert (S (S (next_ref g)) ∉ snowballs g) as Hfo.
  { intros [sb Hsb]%wf_snowballs0.
    destruct (wf_objects0 _ _ Hsb) as (_ & _ & Hlt & _). lia. }
  assert (objects g !! S (S (next_ref g)) = None) as Hnone.
  { destruct (objects g !! S (S (next_ref g))) as [sb|] eqn:Hsb; [|done].
    destruct (wf_objects0 _ _ Hsb) as (_ & _ & Hlt & _). lia. }
  constructor; sg.
  - apply NoDup_app. split; [done|]. split; [|apply NoDup_singleton].
    intros s Hs ->%list_elem_of_singleton. done.
  - apply NoDup_app. split; [done|]. split; [|apply NoDup_singleton].
    intros s Hs ->%list_elem_of_singleton. done.
  - by apply addBody_NoDup.
  - intros s [Hs| ->%list_elem_of_singleton]%elem_of_app.
    + rewrite lookup_insert_ne; [auto|].
      intros <-. done.
    + rewrite lookup_insert_eq. eauto.
  - intros s Hs. rewrite lookup_insert_ne; [auto|].
    intros <-. apply wf_toRemove0 in Hs as [sb Hsb]. congruence.
  - intros s sb. destruct (decide (s = S (S (next_ref g)))) as [->|Hne].
    + rewrite lookup_insert_eq. intros [= <-]. simpl.
      rewrite !lookup_insert_eq. repeat split; eauto.
    + rewrite lookup_insert_ne by done. intros Hsb.
      destruct (wf_objects0 _ _ Hsb) as (? & ? & ? & [m Hm] & [b Hb]).
      repeat split; try assumption; try lia.
      * rewrite lookup_insert_ne; [eauto|].
        intros Heq. apply wf_meshes0 in Hm. lia.
      * rewrite lookup_insert_ne; [eauto|].
        intros Heq. apply wf_bodies0 in Hb. lia.
  - intros r m. destruct (decide (r = next_ref g)) as [->|Hne]; [lia|].
    rewrite lookup_insert_ne by done. intros Hm%wf_meshes0. lia.
  - intros r b. destruct (decide (r = S (next_ref g))) as [->|Hne]; [lia|].
    rewrite lookup_insert_ne by done. intros Hb%wf_bodies0. lia.
  - intros r [Hr| ->%list_elem_of_singleton]%elem_of_app; [|lia].
    apply wf_scene0 in Hr. lia.
  - intros r [->|Hr]%addBody_elem; [lia|]. apply wf_world0 in Hr. lia.
  - intros b s. destruct (decide (b = S (next_ref g))) as [->|Hne].
    + rewrite lookup_insert_eq. intros [= <-].
      rewrite lookup_insert_eq. eauto.
    + rewrite lookup_insert_ne by done. intros Hl.
      destruct (wf_listeners0 _ _ Hl) as (sb & Hsb & Hb).
      exists sb. split; [|done].
      rewrite lookup_insert_ne; [done|]. intros <-. congruence.
  - intros cs Hcs. destruct (wf_card0 cs Hcs) as [cb Hcb].
    rewrite lookup_insert_ne; [eauto|].
    intros Heq. apply wf_bodies0 in Hcb. lia.
Qed.

Lemma wf_initPhysics (v : Revision) (rect : DOMRect) (size : R) :
  wf (initPhysics v (empty_game rect size)).
Proof.
  unfold initPhysics, empty_game. cbv zeta. constructor; sg.
  - apply NoDup_nil_2.
  - apply NoDup_nil_2.
  - apply addBody_NoDup, NoDup_nil_2.
  - intros s Hs. by apply elem_of_nil in Hs.
  - intros s Hs. by apply elem_of_nil in Hs.
  - intros s sb Hs. by rewrite lookup_empty in Hs.
  - intros r m Hm. by rewrite lookup_empty in Hm.
  - intros r b. destruct (decide (r = 0%nat)) as [->|Hne]; [lia|].
    rewrite lookup_insert_ne by done. by rewrite lookup_empty.
  - intros r Hr. by apply elem_of_nil in Hr.
  - intros r [->|Hr]%addBody_elem; [lia|]. by apply elem_of_nil in Hr.
  - intros b s Hl. by rewrite lookup_empty in Hl.
  - intros cs [=].
Qed.

Lemma wf_setupCard_with (w h : R) (half : Vec3) (cw ch : nat) (p a : Vec3)
    (g : Game) :
  wf g -> wf (setupCard_with w h half cw ch p a g).
Proof.
  intros []. unfold setupCard_with. cbv zeta. constructor; sg; try assumption.
  - by apply addBody_NoDup, addBody_NoDup.
  - intros s sb Hsb.
    destruct (wf_objects0 _ _ Hsb) as (? & ? & ? & ? & [b Hb]).
    repeat split; try assumption; try lia.
    pose proof (wf_bodies0 _ _ Hb).
    rewrite !lookup_insert_ne by lia. eauto.
  - intros r m Hm%wf_meshes0. lia.
  - intros r b. destruct (decide (r = S (next_ref g))) as [->|Hne]; [lia|].
    rewrite lookup_insert_ne by done.
    destruct (decide (r = next_ref g)) as [->|Hne2]; [lia|].
    rewrite lookup_insert_ne by done. intros Hb%wf_bodies0. lia.
  - intros r Hr%wf_scene0. lia.
  - intros r [->|[->|Hr]%addBody_elem]%addBody_elem; try lia.
    apply wf_world0 in Hr. lia.
  - intros cs [= <-]. simpl.
    rewrite lookup_insert_ne by lia. rewrite lookup_insert_eq. eauto.
Qed.

Lemma wf_constructor (v : Revision) (rect : DOMRect) (size : R) :
  wf (constructor v rect size).
Proof.
  unfold constructor. cbv zeta.
  pose proof (wf_initPhysics v rect size).
  destruct v; [|done]. by apply wf_setupCard_with.
Qed.

Lemma wf_handle (v : Revision) (g : Game) (i : Input) :
  wf g -> wf (handle v g i).
Proof.
  intros Hwf. destruct i; cbn [handle].
  - by apply wf_startAiming.
  - by apply wf_updateAiming.
  - by apply wf_throwSnowball.
  - by eapply wf_ext; [..|exact Hwf].
  - by eapply wf_ext; [..|exact Hwf].
  - by eapply wf_ext; [..|exact Hwf].
  - destruct v; [done|]. destruct (cardSetup g); [done|].
    by apply wf_setupCard_with.
  - by apply wf_animate.
Qed.

Lemma wf_run (v : Revision) (g : Game) (inputs : list Input) :
  wf g -> wf (run v g inputs).
Proof.
  intros Hwf. unfold run. apply fold_left_preserves; [|exact Hwf].
  intros g0 i. apply wf_handle.
Qed.

Lemma reachable_wf (v : Revision) (g : Game) : reachable v g -> wf g.
Proof.
  induction 1 as [rect size|g i _ IH].
  - apply wf_constructor.
  - by apply wf_handle.
Qed.

Lemma reachable_run (v : Revision) (g : Game) (inputs : list Input) :
  reachable v g -> reachable v (run v g inputs).
Proof.
  revert g. induction inputs as [|i inputs IH]; intros g Hg; [done|].
  apply IH. by constructor.
Qed.

End Invariant.

(** ** Aiming and throwing *)

Section Cannon.
Context `{Three}.

Lemma azimuthAngle_bounds (x : R) :
  -1 <= x <= 1 -> - (PI / 2) <= azimuthAngle x <= PI / 2.
Proof. intros Hx. unfold azimuthAngle. pose proof PI_RGT_0. nra. Qed.

Lemma elevationAngle_bounds (v : Revision) (y : R) :
  -1 <= y <= 1 -> 0 <= elevationAngle v y <= PI / 2.
Proof.
  intros Hy. pose proof PI_RGT_0. destruct v; simpl.
  - apply clamp_bounds. lra.
  - nra.
Qed.

Lemma updateAimVisuals_rotation (v : Revision) (event : MouseEvent) (g : Game) :
  isAiming g = true ->
  cannon_rotation (updateAimVisuals v event g) =
  rotateX (- elevationAngle v (ndc_y (canvasRect g) event))
    (rotateY (azimuthAngle (ndc_x (canvasRect g) event)) euler_zero).
Proof. intros Ha. unfold updateAimVisuals. rewrite Ha. reflexivity. Qed.

(** C5: while aiming, a mouse event whose normalised coordinates lie in
    [-1, 1] turns the cannon from the zero orientation by the azimuth
    [-x * PI / 2], which lies in [-PI/2, PI/2], and then by an elevation in
    [0, PI/2]; [updateAiming] and [updateAimVisuals] do nothing when not
    aiming. *)
Theorem aiming_sets_bounded_angles (v : Revision) (event : MouseEvent) (g : Game) :
  let x := ndc_x (canvasRect g) event in
  let y := ndc_y (canvasRect g) event in
  let aimed :=
    rotateX (- elevationAngle v y) (rotateY (azimuthAngle x) euler_zero) in
  (-1 <= x <= 1 -> -1 <= y <= 1 ->
     azimuthAngle x = - x * PI / 2 /\
     - (PI / 2) <= azimuthAngle x <= PI / 2 /\
     0 <= elevationAngle v y <= PI / 2 /\
     cannon_rotation (startAiming v event g) = aimed /\
     (isAiming g = true ->
        cannon_rotation (updateAiming v event g) = aimed /\
        cannon_rotation (updateAimVisuals v event g) = aimed)) /\
  (isAiming g = false ->
     updateAiming v event g = g /\ updateAimVisuals v event g = g).
Proof.
  intros x y aimed. split.
  - intros Hx Hy.
    split; [reflexivity|].
    split; [by apply azimuthAngle_bounds|].
    split; [by apply elevationAngle_bounds|].
    split; [reflexivity|].
    intros Ha. split.
    + unfold updateAiming. rewrite Ha. cbn [negb].
      by rewrite updateAimVisuals_rotation.
    + by apply updateAimVisuals_rotation.
  - intros Ha. unfold updateAiming, updateAimVisuals. by rewrite Ha.
Qed.

(** C3: a mouseup while aiming adds exactly one snowball to the list: a
    mesh and a dynamic sphere body of the same radius, which is the value
    of the size slider times 0.2 in [src/game.js] and times 0.1 in the later
    revision, both placed at the cannon position plus 0.5 times the aim
    direction, the body moving along the aim direction at speed
    [currentPower * 0.5]; a mouseup while not aiming changes nothing. *)
Theorem throwSnowball_spawns_pair (v : Revision) (event : MouseEvent) (g : Game) :
  let g' := throwSnowball v event g in
  let radius :=
    match v with
    | game_js => sizeSlider g * 0.2
    | part_000 => sizeSlider g * 0.1
    end in
  let direction := applyEuler (cannon_rotation g) (mkVec3 0 0 (-1)) in
  let start := vadd (cannon_position g) (multiplyScalar direction 0.5) in
  let speed := currentPower g * 0.5 in
  (isAiming g = true ->
     exists s m b mesh_obj body_obj,
       snowballs g' = snowballs g ++ [s] /\
       objects g' !! s = Some (mkSnowball m b 0 false) /\
       meshes g' !! m = Some mesh_obj /\
       bodies g' !! b = Some body_obj /\
       sphere_radius mesh_obj = radius /\
       shapes body_obj = [Sphere radius] /\
       body_type body_obj = DYNAMIC /\
       mesh_position mesh_obj = start /\
       position body_obj = start /\
       velocity body_obj = multiplyScalar direction speed /\
       m ∈ scene g' /\ b ∈ world_bodies g' /\
       listeners g' !! b = Some s /\
       isAiming g' = false) /\
  (isAiming g = false -> g' = g).
Proof.
  intros g' radius direction start speed. subst g'. unfold throwSnowball. split.
  - intros Ha. rewrite Ha. cbn [negb]. cbv zeta.
    eexists _, _, _, _, _. sg.
    split; [reflexivity|].
    split; [apply lookup_insert_eq|].
    split; [apply lookup_insert_eq|].
    split; [apply lookup_insert_eq|].
    subst radius. unfold snowballSize. simpl.
    split; [by destruct v|].
    split; [by destruct v|].
    do 4 (split; [reflexivity|]).
    split; [apply elem_of_app; right; apply list_elem_of_singleton; reflexivity|].
    split; [apply addBody_elem; by left|].
    split; [apply lookup_insert_eq|reflexivity].
  - intros Ha. by rewrite Ha.
Qed.

End Cannon.

(** ** What each operation leaves alone *)

Section Frames.
Context `{Three}.

Lemma keeps_arrays_refl (g : Game) : keeps_arrays g g.
Proof. by repeat split. Qed.

Lemma keeps_arrays_trans (g1 g2 g3 : Game) :
  keeps_arrays g1 g2 -> keeps_arrays g2 g3 -> keeps_arrays g1 g3.
Proof. intros (? & ? & ?) (? & ? & ?). repeat split; congruence. Qed.

Lemma evolves_refl (g : Game) : evolves g g.
Proof. intros s sb Hs. exists sb. auto. Qed.

Lemma evolves_trans (g1 g2 g3 : Game) :
  evolves g1 g2 -> evolves g2 g3 -> evolves g1 g3.
Proof.
  intros H12 H23 s sb Hs.
  destruct (H12 s sb Hs) as (sb2 & Hs2 & Em & Eb & Ec).
  destruct (H23 s sb2 Hs2) as (sb3 & Hs3 & Em3 & Eb3 & Ec3).
  exists sb3. repeat split; [done|congruence|congruence|auto].
Qed.

Lemma evolves_same_objects (g g' : Game) :
  objects g' = objects g -> evolves g g'.
Proof. intros E s sb Hs. exists sb. rewrite E. auto. Qed.

(** Replacing one object by one with the same mesh and body, and which is
    collided if the old one was. *)
Lemma evolves_insert (g g' : Game) (s : Ref) (sb sb' : Snowball) :
  objects g !! s = Some sb ->
  objects g' = <[s := sb']> (objects g) ->
  mesh sb' = mesh sb -> body sb' = body sb ->
  (isCollided sb = true -> isCollided sb' = true) ->
  evolves g g'.
Proof.
  intros Hs E Em Eb Ec s0 sb0 Hs0. rewrite E.
  destruct (decide (s0 = s)) as [->|Hne].
  - exists sb'. rewrite lookup_insert_eq. split; [done|].
    assert (sb0 = sb) as -> by congruence. auto.
  - exists sb0. rewrite lookup_insert_ne by done. auto.
Qed.

(** *** The collide listener *)

Lemma on_collide_cases (s : Ref) (e : CollideEvent) (g : Game) :
  on_collide s e g = g \/
  exists sb cs cb,
    objects g !! s = Some sb /\ cardSetup g = Some cs /\
    bodies g !! cardBody cs = Some cb /\
    isCollided sb = false /\ e_body e = cardBody cs /\
    on_collide s e g = on_card_hit s sb cs cb e g.
Proof.
  unfold on_collide.
  destruct (objects g !! s) as [sb|] eqn:Hs; [|by left].
  destruct (cardSetup g) as [cs|] eqn:Hcs; [|by left].
  destruct (isCollided sb) eqn:Hc; [by left|]. cbn [negb andb].
  destruct (Nat.eqb_spec (e_body e) (cardBody cs)) as [He|He]; [|by left].
  destruct (bodies g !! cardBody cs) as [cb|] eqn:Hcb; [|by left].
  right. exists sb, cs, cb. by repeat split.
Qed.

Lemma dispatchEvent_cases (g : Game) (e : CollideEvent) :
  dispatchEvent g e = g \/
  exists s sb cs cb,
    listeners g !! target e = Some s /\
    objects g !! s = Some sb /\ cardSetup g = Some cs /\
    bodies g !! cardBody cs = Some cb /\
    isCollided sb = false /\ e_body e = cardBody cs /\
    dispatchEvent g e = on_card_hit s sb cs cb e g.
Proof.
  unfold dispatchEvent.
  destruct (listeners g !! target e) as [s|] eqn:Hl; [|by left].
  destruct (on_collide_cases s e g) as [->|(sb & cs & cb & ? & ? & ? & ? & ? & ->)];
    [by left|].
  right. exists s, sb, cs, cb. by repeat split.
Qed.

Lemma dispatch_frame_refl (g : Game) : dispatch_frame g g.
Proof.
  split; [apply keeps_arrays_refl|]. split; [apply evolves_refl|].
  repeat split; auto.
Qed.

Lemma dispatch_frame_trans (g1 g2 g3 : Game) :
  dispatch_frame g1 g2 -> dispatch_frame g2 g3 -> dispatch_frame g1 g3.
Proof.
  intros (A1 & B1 & C1 & D1 & E1 & F1 & G1 & H1 & I1 & J1)
         (A2 & B2 & C2 & D2 & E2 & F2 & G2 & H2 & I2 & J2).
  split; [by eapply keeps_arrays_trans|]. split; [by eapply evolves_trans|].
  repeat split; try congruence. auto.
Qed.

Lemma on_card_hit_frame (s : Ref) (sb : Snowball) (cs : CardSetup) (cb : Body)
    (e : CollideEvent) (g : Game) :
  objects g !! s = Some sb -> cardSetup g = Some cs ->
  dispatch_frame g (on_card_hit s sb cs cb e g).
Proof.
  intros Hs Hcs. unfold on_card_hit. cbv zeta.
  split; [by repeat split|].
  split.
  { by apply (evolves_insert g _ s sb (mark_collided sb)). }
  sg. repeat split; try reflexivity.
  - intros x Hx. apply set_add_elem. by right.
  - rewrite Hcs. simpl. f_equal. apply addSnowSplat_static.
Qed.

Lemma dispatchEvent_frame (g : Game) (e : CollideEvent) :
  dispatch_frame g (dispatchEvent g e).
Proof.
  destruct (dispatchEvent_cases g e)
    as [->|(s & sb & cs & cb & _ & Hs & Hcs & _ & _ & _ & ->)].
  - apply dispatch_frame_refl.
  - by apply on_card_hit_frame.
Qed.

Lemma dispatch_events_frame (g : Game) (es : list CollideEvent) :
  dispatch_frame g (fold_left dispatchEvent es g).
Proof.
  apply (fold_left_preserves (dispatch_frame g)); [|apply dispatch_frame_refl].
  intros g0 e Hg0. eapply dispatch_frame_trans; [exact Hg0|].
  apply dispatchEvent_frame.
Qed.

Lemma step_frame_refl (g : Game) : step_frame g g.
Proof.
  split; [apply keeps_arrays_refl|]. split; [apply evolves_refl|].
  repeat split; auto.
Qed.

Lemma step_frame_trans (g1 g2 g3 : Game) :
  step_frame g1 g2 -> step_frame g2 g3 -> step_frame g1 g3.
Proof.
  intros (A1 & B1 & C1 & D1 & E1 & F1 & G1 & H1 & I1 & J1)
         (A2 & B2 & C2 & D2 & E2 & F2 & G2 & H2 & I2 & J2).
  split; [by eapply keeps_arrays_trans|]. split; [by eapply evolves_trans|].
  split; [congruence|].
  split; [intros r; rewrite D2; apply D1|].
  repeat split; try congruence. auto.
Qed.

Lemma internalStep_frame (g : Game) (s : Substep) : step_frame g (internalStep g s).
Proof.
  unfold internalStep.
  destruct (dispatch_events_frame g (collisions s))
    as (A & B & C & D & E & F & G & I & J & K).
  set (g1 := fold_left dispatchEvent (collisions s) g) in *.
  split; [exact A|]. split.
  { eapply evolves_trans; [exact B|]. by apply evolves_same_objects. }
  split; [exact C|].
  split; [intros r; rewrite integrate_is_Some, D; done|].
  repeat split; assumption.
Qed.

Lemma world_step_frame (dt t : R) (n : nat) (o : StepOutcome) (g : Game) :
  step_frame g (world_step dt t n o g).
Proof.
  unfold world_step.
  apply (fold_left_preserves (step_frame g)); [|apply step_frame_refl].
  intros g0 s Hg0. eapply step_frame_trans; [exact Hg0|].
  apply internalStep_frame.
Qed.

(** The listener paints on the card's canvases; it does not move the card
    mesh. *)
Lemma dispatchEvent_card (g : Game) (e : CollideEvent) :
  card <$> cardSetup (dispatchEvent g e) = card <$> cardSetup g.
Proof.
  destruct (dispatchEvent_cases g e)
    as [->|(s & sb & cs & cb & _ & _ & Hcs & _ & _ & _ & ->)]; [done|].
  rewrite Hcs. unfold on_card_hit. cbv zeta. sg. reflexivity.
Qed.

Lemma world_step_card (dt t : R) (n : nat) (o : StepOutcome) (g : Game) :
  card <$> cardSetup (world_step dt t n o g) = card <$> cardSetup g.
Proof.
  unfold world_step.
  apply (fold_left_preserves (fun g0 => card <$> cardSetup g0 = card <$> cardSetup g));
    [|done].
  intros g0 s Hg0. rewrite <- Hg0. unfold internalStep.
  change (card <$> cardSetup (fold_left dispatchEvent (collisions s) g0) =
          card <$> cardSetup g0).
  apply (fold_left_preserves (fun g1 => card <$> cardSetup g1 = card <$> cardSetup g0));
    [|done].
  intros g1 e Hg1. rewrite <- Hg1. apply dispatchEvent_card.
Qed.

(** *** Removal *)

Lemma cleanup_frame_refl (g : Game) : cleanup_frame g g.
Proof. repeat split; auto. Qed.

Lemma cleanup_frame_trans (g1 g2 g3 : Game) :
  cleanup_frame g1 g2 -> cleanup_frame g2 g3 -> cleanup_frame g1 g3.
Proof.
  intros (A1 & B1 & C1 & D1 & E1 & F1 & G1 & H1 & I1 & J1 & K1)
         (A2 & B2 & C2 & D2 & E2 & F2 & G2 & H2 & I2 & J2 & K2).
  repeat split; try congruence; auto.
Qed.

(** One iteration of [cleanupPhysics] as three array removals. *)
Lemma cleanup_one_arrays (g : Game) (s : Ref) (sb : Snowball) :
  objects g !! s = Some sb ->
  snowballs (cleanup_one g s) = array_remove s (snowballs g) /\
  scene (cleanup_one g s) = array_remove (mesh sb) (scene g) /\
  world_bodies (cleanup_one g s) = array_remove (body sb) (world_bodies g).
Proof.
  intros Hs. unfold cleanup_one. rewrite Hs. cbv zeta. sg.
  assert (forall g0 : Game,
    world_bodies
      (if includes (body sb) (world_bodies g0)
       then set_world_bodies (array_remove (body sb) (world_bodies g0)) g0
       else g0)
    = array_remove (body sb) (world_bodies g0)) as Hw.
  { intros g0. destruct (includes (body sb) (world_bodies g0)) eqn:Hi; [done|].
    apply includes_false in Hi. by rewrite array_remove_absent. }
  match goal with
  | |- context [indexOf s (snowballs ?g2)] => set (g2' := g2)
  end.
  assert (snowballs g2' = snowballs g) as Es.
  { subst g2'. by destruct (includes _ _). }
  assert (scene g2' = array_remove (mesh sb) (scene g)) as Ec.
  { subst g2'. by destruct (includes _ _). }
  assert (world_bodies g2' = array_remove (body sb) (world_bodies g)) as Ew.
  { subst g2'. apply (Hw (set_scene (array_remove (mesh sb) (scene g)) g)). }
  unfold array_remove at 1. rewrite <- Es.
  destruct (indexOf s (snowballs g2') >? -1)%Z; sg; auto.
Qed.

Lemma cleanup_one_frame (g : Game) (s : Ref) : cleanup_frame g (cleanup_one g s).
Proof.
  destruct (objects g !! s) as [sb|] eqn:Hs.
  - destruct (cleanup_one_arrays g s sb Hs) as (Es & Ec & Ew).
    unfold cleanup_frame. rewrite Es, Ec, Ew.
    unfold cleanup_one. rewrite Hs. cbv zeta.
    destruct (includes _ _); destruct (_ >? _)%Z; sg;
      repeat split; auto; intros x; apply array_remove_subset.
  - unfold cleanup_one. rewrite Hs. apply cleanup_frame_refl.
Qed.

Lemma cleanup_loop_frame (g : Game) (l : list Ref) :
  cleanup_frame g (fold_left cleanup_one l g).
Proof.
  apply (fold_left_preserves (cleanup_frame g)); [|apply cleanup_frame_refl].
  intros g0 s Hg0. eapply cleanup_frame_trans; [exact Hg0|].
  apply cleanup_one_frame.
Qed.

Lemma cleanupPhysics_frame (g : Game) : cleanup_frame g (cleanupPhysics g).
Proof.
  unfold cleanupPhysics.
  destruct (cleanup_loop_frame g (toRemove g))
    as (A & B & C & D & E & F & G & I & J & K & L).
  repeat split; sg; auto.
Qed.

Lemma cleanupPhysics_toRemove (g : Game) : toRemove (cleanupPhysics g) = [].
Proof. reflexivity. Qed.

Lemma cleanup_loop_removes (l : list Ref) (g : Game) (s : Ref) (sb : Snowball) :
  wf g -> s ∈ l -> objects g !! s = Some sb ->
  (s ∉ snowballs (fold_left cleanup_one l g)) /\
  (mesh sb ∉ scene (fold_left cleanup_one l g)) /\
  (body sb ∉ world_bodies (fold_left cleanup_one l g)).
Proof.
  revert g. induction l as [|x t IH]; intros g Hwf Hin Hs.
  { by apply elem_of_nil in Hin. }
  simpl. destruct (decide (x = s)) as [->|Hne].
  - destruct (cleanup_one_arrays g s sb Hs) as (Es & Ec & Ew).
    destruct (cleanup_loop_frame (cleanup_one g s) t)
      as (_ & _ & _ & _ & _ & _ & _ & _ & J & K & L).
    destruct Hwf.
    split; [|split].
    + intros Hx%J. rewrite Es in Hx.
      exact (array_remove_gone _ _ wf_snowballs_nodup0 Hx).
    + intros Hx%K. rewrite Ec in Hx.
      exact (array_remove_gone _ _ wf_scene_nodup0 Hx).
    + intros Hx%L. rewrite Ew in Hx.
      exact (array_remove_gone _ _ wf_world_nodup0 Hx).
  - apply elem_of_cons in Hin as [->|Hin]; [done|].
    apply IH; [by apply wf_cleanup_one|exact Hin|].
    destruct (cleanup_one_frame g x) as (-> & _). exact Hs.
Qed.

Lemma cleanupPhysics_removes (g : Game) (s : Ref) (sb : Snowball) :
  wf g -> s ∈ toRemove g -> objects g !! s = Some sb ->
  (s ∉ snowballs (cleanupPhysics g)) /\
  (mesh sb ∉ scene (cleanupPhysics g)) /\
  (body sb ∉ world_bodies (cleanupPhysics g)).
Proof. intros Hwf Hin Hs. by apply (cleanup_loop_removes (toRemove g) g s sb). Qed.

(** *** The card and the snowballs follow their bodies *)

Lemma sync_card_cases (g : Game) :
  sync_card g = g \/
  exists cs cb,
    cardSetup g = Some cs /\ bodies g !! cardBody cs = Some cb /\
    sync_card g =
      set_cardSetup
        (Some (set_card
                 (mkCardMesh (geometry_width (card cs)) (geometry_height (card cs))
                    (position cb) (quaternion cb)) cs)) g.
Proof.
  unfold sync_card.
  destruct (cardSetup g) as [cs|]; [|by left].
  destruct (bodies g !! cardBody cs) as [cb|] eqn:Hcb; [|by left].
  right. by exists cs, cb.
Qed.

Lemma sync_card_frame (g : Game) :
  keeps_arrays g (sync_card g) /\ objects (sync_card g) = objects g /\
  meshes (sync_card g) = meshes g /\ bodies (sync_card g) = bodies g /\
  toRemove (sync_card g) = toRemove g /\
  card_static <$> cardSetup (sync_card g) = card_static <$> cardSetup g.
Proof.
  destruct (sync_card_cases g) as [->|(cs & cb & Hcs & _ & ->)].
  - by repeat split.
  - sg. rewrite Hcs. by repeat split.
Qed.

Lemma update_frame_refl (g : Game) : update_frame g g.
Proof.
  split; [apply keeps_arrays_refl|]. split; [apply evolves_refl|].
  repeat split; auto.
Qed.

Lemma update_frame_trans (g1 g2 g3 : Game) :
  update_frame g1 g2 -> update_frame g2 g3 -> update_frame g1 g3.
Proof.
  intros (A1 & B1 & C1 & D1 & E1 & F1 & G1 & H1 & I1)
         (A2 & B2 & C2 & D2 & E2 & F2 & G2 & H2 & I2).
  split; [by eapply keeps_arrays_trans|]. split; [by eapply evolves_trans|].
  repeat split; try congruence. auto.
Qed.

Lemma update_snowball_cases (g : Game) (s : Ref) :
  update_snowball g s = g \/
  exists sb b m,
    objects g !! s = Some sb /\ bodies g !! body sb = Some b /\
    meshes g !! mesh sb = Some m /\
    body sb ∈ world_bodies g /\ (s ∉ toRemove g) /\
    let g2 :=
      set_meshes (<[mesh sb := follow m b]> (meshes g))
        (set_objects (<[s := age sb]> (objects g)) g) in
    update_snowball g s =
      if expired (age sb) b then removeSnowball s g2 else g2.
Proof.
  unfold update_snowball.
  destruct (objects g !! s) as [sb|] eqn:Hs; [|by left].
  destruct (bodies g !! body sb) as [b|] eqn:Hb; [|by left].
  destruct (meshes g !! mesh sb) as [m|] eqn:Hm; [|by left].
  destruct (includes (body sb) (world_bodies g)) eqn:Hw; [|by left].
  destruct (includes s (toRemove g)) eqn:Hr; [by left|].
  right. exists sb, b, m.
  apply includes_true in Hw. apply includes_false in Hr.
  by repeat split.
Qed.

Lemma update_snowball_frame (g : Game) (s : Ref) :
  update_frame g (update_snowball g s).
Proof.
  destruct (update_snowball_cases g s)
    as [->|(sb & b & m & Hs & Hb & Hm & Hw & Hr & ->)].
  - apply update_frame_refl.
  - split; [by destruct (expired _ _)|].
    split.
    { apply (evolves_insert g _ s sb (age sb)); [exact Hs| |done..].
      by destruct (expired _ _). }
    destruct (expired (age sb) b); sg; repeat split; auto.
    intros x Hx. apply set_add_elem. by right.
Qed.

Lemma update_snowballs_frame (g : Game) : update_frame g (update_snowballs g).
Proof.
  unfold update_snowballs.
  apply (fold_left_preserves (update_frame g)); [|apply update_frame_refl].
  intros g0 s Hg0. eapply update_frame_trans; [exact Hg0|].
  apply update_snowball_frame.
Qed.

End Frames.

(** ** One splat per snowball *)

Section Splats.
Context `{Three}.

Lemma splats_left_le_1 (s : Ref) (g : Game) : (splats_left s g <= 1)%nat.
Proof.
  unfold splats_left. destruct (objects g !! s) as [sb|]; [|lia].
  destruct (isCollided sb); lia.
Qed.

Lemma splats_left_evolves (s : Ref) (g g' : Game) :
  evolves g g' -> (splats_left s g' <= splats_left s g)%nat.
Proof.
  intros Hev. pose proof (splats_left_le_1 s g') as Hle.
  unfold splats_left in *. destruct (objects g !! s) as [sb|] eqn:Hs; [|done].
  destruct (isCollided sb) eqn:Hc; [|done].
  destruct (Hev s sb Hs) as (sb' & -> & _ & _ & Hc'). by rewrite (Hc' Hc).
Qed.

Lemma count_splats_app (s : Ref) (l1 l2 : list (Game * CollideEvent)) :
  count_splats s (l1 ++ l2) = (count_splats s l1 + count_splats s l2)%nat.
Proof. induction l1 as [|d t IH]; simpl; [done|]. rewrite IH. lia. Qed.

Lemma circles_on_card_hit (s : Ref) (sb : Snowball) (cs : CardSetup) (cb : Body)
    (e : CollideEvent) (g : Game) :
  cardSetup g = Some cs ->
  circles (on_card_hit s sb cs cb e g) = (circles g + 6)%nat.
Proof.
  intros Hcs. unfold circles, on_card_hit. cbv zeta. sg. rewrite Hcs.
  unfold addSnowSplat.
  destruct (hitFront (card cs) (contactNormal cs (e_contact e)));
    cbn [snowCanvasFront snowCanvasBack]; rewrite draw_splat_length; lia.
Qed.

(** A dispatch that draws is a first hit of the card: it draws one splat,
    marks the snowball collided and schedules its removal. *)
Lemma draws_inv (g : Game) (e : CollideEvent) :
  draws (g, e) = true ->
  exists s sb cs,
    listeners g !! target e = Some s /\
    objects g !! s = Some sb /\ isCollided sb = false /\
    cardSetup g = Some cs /\ e_body e = cardBody cs /\
    objects (dispatchEvent g e) !! s = Some (mark_collided sb) /\
    s ∈ toRemove (dispatchEvent g e) /\
    circles (dispatchEvent g e) = (circles g + 6)%nat.
Proof.
  unfold draws. cbn [fst snd]. intros Hd.
  destruct (dispatchEvent_cases g e)
    as [Heq|(s & sb & cs & cb & Hl & Hs & Hcs & Hcb & Hc & He & Heq)].
  { rewrite Heq, Nat.eqb_refl in Hd. done. }
  exists s, sb, cs. rewrite Heq.
  do 5 (split; [done|]).
  split; [unfold on_card_hit; cbv zeta; sg; apply lookup_insert_eq|].
  split; [unfold on_card_hit; cbv zeta; sg; apply set_add_elem; by left|].
  by apply circles_on_card_hit.
Qed.

(** Conversely, the first hit of the card draws. *)
Lemma first_hit_draws (g : Game) (e : CollideEvent) (s : Ref) (sb : Snowball)
    (cs : CardSetup) :
  wf g -> listeners g !! target e = Some s -> objects g !! s = Some sb ->
  isCollided sb = false -> cardSetup g = Some cs -> e_body e = cardBody cs ->
  draws (g, e) = true.
Proof.
  intros Hwf Hl Hs Hc Hcs He. unfold draws. cbn [fst snd].
  destruct (wf_card g Hwf cs Hcs) as [cb Hcb].
  assert (dispatchEvent g e = on_card_hit s sb cs cb e g) as ->.
  { unfold dispatchEvent, on_collide. rewrite Hl, Hs, Hcs, Hc, He, Hcb.
    by rewrite Nat.eqb_refl. }
  rewrite circles_on_card_hit by done.
  apply negb_true_iff, Nat.eqb_neq. lia.
Qed.

Lemma dispatch_not_card (g : Game) (e : CollideEvent) :
  (forall cs, cardSetup g = Some cs -> e_body e <> cardBody cs) ->
  dispatchEvent g e = g.
Proof.
  intros Hne. destruct (dispatchEvent_cases g e)
    as [Heq|(s & sb & cs & cb & _ & _ & Hcs & _ & _ & He & _)]; [done|].
  by destruct (Hne cs Hcs).
Qed.

Lemma dispatch_collided (g : Game) (e : CollideEvent) (s : Ref) (sb : Snowball) :
  listeners g !! target e = Some s -> objects g !! s = Some sb ->
  isCollided sb = true -> dispatchEvent g e = g.
Proof.
  intros Hl Hs Hc. unfold dispatchEvent, on_collide. rewrite Hl, Hs, Hc.
  by destruct (cardSetup g).
Qed.

(** A splat of [s] uses up the one splat it has left. *)
Lemma splat_uses_up (s : Ref) (g : Game) (e : CollideEvent) :
  ((if splat_of s (g, e) then 1 else 0) + splats_left s (dispatchEvent g e)
   <= splats_left s g)%nat.
Proof.
  destruct (splat_of s (g, e)) eqn:Hsp.
  - unfold splat_of in Hsp. apply andb_true_iff in Hsp as [Hl Hd].
    apply bool_decide_eq_true in Hl. cbn [fst snd] in Hl.
    destruct (draws_inv g e Hd) as (s' & sb & cs & Hl' & Hs & Hc & _ & _ & Hs' & _).
    assert (s' = s) as -> by congruence.
    unfold splats_left. rewrite Hs, Hc, Hs'. simpl. lia.
  - simpl. apply splats_left_evolves, dispatchEvent_frame.
Qed.

Lemma event_dispatches_count (s : Ref) (es : list CollideEvent) (g : Game) :
  (count_splats s (event_dispatches g es)
   + splats_left s (fold_left dispatchEvent es g) <= splats_left s g)%nat.
Proof.
  revert g. induction es as [|e t IH]; intros g; simpl; [lia|].
  pose proof (IH (dispatchEvent g e)). pose proof (splat_uses_up s g e). lia.
Qed.

Lemma substep_dispatches_count (s : Ref) (subs : list Substep) (g : Game) :
  (count_splats s (substep_dispatches g subs)
   + splats_left s (fold_left internalStep subs g) <= splats_left s g)%nat.
Proof.
  revert g. induction subs as [|x t IH]; intros g; simpl; [lia|].
  rewrite count_splats_app.
  pose proof (IH (internalStep g x)).
  pose proof (event_dispatches_count s (collisions x) g).
  assert (splats_left s (internalStep g x)
          <= splats_left s (fold_left dispatchEvent (collisions x) g))%nat.
  { apply splats_left_evolves. unfold internalStep.
    by apply evolves_same_objects. }
  lia.
Qed.

Lemma throwSnowball_evolves (v : Revision) (event : MouseEvent) (g : Game) :
  wf g -> evolves g (throwSnowball v event g).
Proof.
  intros Hwf. unfold throwSnowball.
  destruct (negb (isAiming g)); [apply evolves_refl|]. cbv zeta.
  intros s sb Hs. exists sb. sg.
  destruct (wf_objects g Hwf s sb Hs) as (_ & _ & Hlt & _).
  rewrite lookup_insert_ne by lia. auto.
Qed.

Lemma handle_evolves (v : Revision) (g : Game) (i : Input) :
  wf g -> evolves g (handle v g i).
Proof.
  intros Hwf. destruct i; cbn [handle].
  - apply evolves_same_objects. unfold startAiming, updateAimVisuals. by sg.
  - apply evolves_same_objects. unfold updateAiming, updateAimVisuals.
    destruct (isAiming g) eqn:Ha; sg; [rewrite Ha|]; done.
  - by apply throwSnowball_evolves.
  - by apply evolves_same_objects.
  - by apply evolves_same_objects.
  - by apply evolves_same_objects.
  - apply evolves_same_objects. destruct v; [done|]. by destruct (cardSetup g).
  - unfold animate. cbn [fst].
    set (stepped := world_step fixedTimeStep fixedTimeStep maxSubSteps o g).
    assert (evolves g stepped) as H1 by apply world_step_frame.
    assert (evolves stepped (cleanupPhysics stepped)) as H2.
    { apply evolves_same_objects, cleanupPhysics_frame. }
    destruct (step_throws o); [by eapply evolves_trans|].
    eapply evolves_trans; [exact H1|]. eapply evolves_trans; [exact H2|].
    eapply evolves_trans; [|apply update_snowballs_frame].
    apply evolves_same_objects, sync_card_frame.
Qed.

Lemma dispatches_count (v : Revision) (s : Ref) (inputs : list Input) (g : Game) :
  wf g ->
  (count_splats s (dispatches v g inputs) + splats_left s (run v g inputs)
   <= splats_left s g)%nat.
Proof.
  revert g. induction inputs as [|i t IH]; intros g Hwf; simpl; [lia|].
  rewrite count_splats_app.
  pose proof (IH (handle v g i) (wf_handle v g i Hwf)) as IH'.
  change (run v g (i :: t)) with (run v (handle v g i) t).
  enough (count_splats s (input_dispatches g i) + splats_left s (handle v g i)
          <= splats_left s g)%nat by lia.
  destruct i; cbn [input_dispatches count_splats];
    try (apply (splats_left_evolves s), (handle_evolves v); exact Hwf).
  cbn [handle]. unfold animate. cbn [fst].
  set (subs := take maxSubSteps (substeps o)).
  pose proof (substep_dispatches_count s subs g) as Hc.
  change (fold_left internalStep subs g)
    with (world_step fixedTimeStep fixedTimeStep maxSubSteps o g) in Hc.
  set (stepped := world_step fixedTimeStep fixedTimeStep maxSubSteps o g) in *.
  enough (splats_left s
            (if step_throws o then cleanupPhysics stepped
             else update_snowballs (sync_card (cleanupPhysics stepped)))
          <= splats_left s stepped)%nat by lia.
  apply splats_left_evolves.
  assert (evolves stepped (cleanupPhysics stepped)) as H2.
  { apply evolves_same_objects, cleanupPhysics_frame. }
  destruct (step_throws o); [done|].
  eapply evolves_trans; [exact H2|].
  eapply evolves_trans; [|apply update_snowballs_frame].
  apply evolves_same_objects, sync_card_frame.
Qed.

(** Every state in which a run dispatches an event satisfies the
    invariant. *)
Lemma event_dispatches_wf (es : list CollideEvent) (g g0 : Game) (e : CollideEvent) :
  wf g -> (g0, e) ∈ event_dispatches g es -> wf g0.
Proof.
  revert g. induction es as [|x t IH]; intros g Hwf Hin; simpl in Hin.
  { by apply elem_of_nil in Hin. }
  apply elem_of_cons in Hin as [[= -> ->]|Hin]; [done|].
  eapply IH; [|exact Hin]. by apply wf_dispatchEvent.
Qed.

Lemma substep_dispatches_wf (subs : list Substep) (g g0 : Game) (e : CollideEvent) :
  wf g -> (g0, e) ∈ substep_dispatches g subs -> wf g0.
Proof.
  revert g. induction subs as [|x t IH]; intros g Hwf Hin; simpl in Hin.
  { by apply elem_of_nil in Hin. }
  apply elem_of_app in Hin as [Hin|Hin].
  - by eapply event_dispatches_wf.
  - eapply IH; [|exact Hin]. by apply wf_internalStep.
Qed.

Lemma dispatches_wf (v : Revision) (inputs : list Input) (g g0 : Game)
    (e : CollideEvent) :
  wf g -> (g0, e) ∈ dispatches v g inputs -> wf g0.
Proof.
  revert g. induction inputs as [|i t IH]; intros g Hwf Hin; simpl in Hin.
  { by apply elem_of_nil in Hin. }
  apply elem_of_app in Hin as [Hin|Hin].
  - destruct i; cbn [input_dispatches] in Hin;
      try (by apply elem_of_nil in Hin).
    by eapply substep_dispatches_wf.
  - eapply IH; [|exact Hin]. by apply wf_handle.
Qed.

(** C2: over any run, a snowball produces at most one splat, however many
    collide events its body receives.  For every dispatch of the run: an
    event whose other body is not the card changes nothing; an event for a
    snowball that is already collided changes nothing; a dispatch that
    draws is a first hit of the card by a snowball not yet collided, it
    draws one splat (a main circle and five small ones), marks the snowball
    collided and schedules its removal; and such a first hit does draw. *)
Theorem one_splat_per_snowball (v : Revision) (g : Game) (inputs : list Input) :
  reachable v g ->
  (forall s, (count_splats s (dispatches v g inputs) <= 1)%nat) /\
  (forall g0 e, (g0, e) ∈ dispatches v g inputs ->
     ((forall cs, cardSetup g0 = Some cs -> e_body e <> cardBody cs) ->
        dispatchEvent g0 e = g0) /\
     (forall s sb,
        listeners g0 !! target e = Some s -> objects g0 !! s = Some sb ->
        isCollided sb = true -> dispatchEvent g0 e = g0) /\
     (draws (g0, e) = true ->
        exists s sb cs,
          listeners g0 !! target e = Some s /\
          objects g0 !! s = Some sb /\ isCollided sb = false /\
          cardSetup g0 = Some cs /\ e_body e = cardBody cs /\
          objects (dispatchEvent g0 e) !! s = Some (mark_collided sb) /\
          s ∈ toRemove (dispatchEvent g0 e) /\
          circles (dispatchEvent g0 e) = (circles g0 + 6)%nat) /\
     (forall s sb cs,
        listeners g0 !! target e = Some s -> objects g0 !! s = Some sb ->
        isCollided sb = false -> cardSetup g0 = Some cs ->
        e_body e = cardBody cs -> draws (g0, e) = true)).
Proof.
  intros Hreach. apply reachable_wf in Hreach. split.
  - intros s. pose proof (dispatches_count v s inputs g Hreach).
    pose proof (splats_left_le_1 s g). lia.
  - intros g0 e Hin.
    pose proof (dispatches_wf v inputs g g0 e Hreach Hin) as Hwf0.
    split; [apply dispatch_not_card|].
    split; [apply dispatch_collided|].
    split; [apply draws_inv|].
    intros s sb cs. by apply first_hit_draws.
Qed.

End Splats.

(** ** The animation frame *)

Section Frame.
Context `{Three}.

Lemma animate_no_throw (o : StepOutcome) (g : Game) :
  step_throws o = false ->
  fst (animate o g) =
  update_snowballs
    (sync_card (cleanupPhysics
       (world_step fixedTimeStep fixedTimeStep maxSubSteps o g))).
Proof. intros Ho. unfold animate. by rewrite Ho. Qed.

(** The state in which the loop over the snowballs starts. *)
Lemma before_update (o : StepOutcome) (g : Game) :
  wf g ->
  let stepped := world_step fixedTimeStep fixedTimeStep maxSubSteps o g in
  let g3 := sync_card (cleanupPhysics stepped) in
  wf g3 /\ toRemove g3 = [] /\ bodies g3 = bodies stepped /\
  objects g3 = objects stepped /\ meshes g3 = meshes stepped.
Proof.
  intros Hwf stepped g3. subst g3.
  assert (wf stepped) as Hw1 by by apply wf_world_step.
  destruct (cleanupPhysics_frame stepped) as (A & B & C & _).
  destruct (sync_card_frame (cleanupPhysics stepped)) as (_ & A' & B' & C' & D' & _).
  split; [by apply wf_sync_card, wf_cleanupPhysics|].
  split; [by rewrite D'|].
  repeat split; congruence.
Qed.

(** C4: every frame asks for the next frame, steps the world with the
    fixed timestep 1/60 (passed as both the step and the elapsed time) and
    at most 3 substeps, and then renders, whether or not the step returns;
    nothing after the step changes a body.  When the step returns and the
    card exists, the card mesh is given the position and the quaternion the
    card body has after the step, and is rendered with them.  When the step
    raises an error the card mesh keeps the pose it had before the frame.
    Before the card exists there is no card after the frame either. *)
Theorem animate_card_follows_body (v : Revision) (o : StepOutcome) (g : Game) :
  reachable v g ->
  let stepped := world_step (1 / 60) (1 / 60) 3 o g in
  let g' := fst (animate o g) in
  snd (animate o g) =
    [RequestAnimationFrame;
     WorldStep (1 / 60) (1 / 60) 3;
     Render (card <$> cardSetup g') (map (fun r => meshes g' !! r) (scene g'))] /\
  bodies g' = bodies stepped /\
  (forall cs, cardSetup g = Some cs ->
     exists cs' cb,
       cardSetup g' = Some cs' /\ cardBody cs' = cardBody cs /\
       bodies stepped !! cardBody cs = Some cb /\
       (step_throws o = false ->
          card_position (card cs') = position cb /\
          card_quaternion (card cs') = quaternion cb) /\
       (step_throws o = true -> card cs' = card cs)) /\
  (cardSetup g = None -> cardSetup g' = None).
Proof.
  intros Hr stepped g'.
  apply reachable_wf in Hr.
  change (world_step (1 / 60) (1 / 60) 3 o g)
    with (world_step fixedTimeStep fixedTimeStep maxSubSteps o g) in stepped.
  assert (wf stepped) as Hw1 by by apply wf_world_step.
  destruct (world_step_frame fixedTimeStep fixedTimeStep maxSubSteps o g)
    as (_ & _ & _ & _ & _ & _ & _ & Hstatic & _).
  pose proof (world_step_card fixedTimeStep fixedTimeStep maxSubSteps o g) as Hmesh.
  fold stepped in Hstatic, Hmesh.
  destruct (cleanupPhysics_frame stepped) as (_ & _ & Eb & _ & _ & Ec & _).
  set (g2 := cleanupPhysics stepped) in *.
  assert (wf g2) as Hw2 by by apply wf_cleanupPhysics.
  destruct (update_snowballs_frame (sync_card g2))
    as (_ & _ & Eb3 & _ & _ & Ec3 & _).
  destruct (sync_card_frame g2) as (_ & _ & _ & Eb2 & _).
  assert (g' = if step_throws o then g2 else update_snowballs (sync_card g2)) as Hg'.
  { subst g' g2 stepped. unfold animate. cbn [fst]. reflexivity. }
  split; [reflexivity|].
  split.
  { rewrite Hg'. destruct (step_throws o); [exact Eb|]. by rewrite Eb3, Eb2. }
  split.
  - intros cs Hcs. rewrite Hcs in Hstatic, Hmesh.
    destruct (cardSetup stepped) as [cs1|] eqn:Hcs1; [|done].
    cbn [fmap option_fmap option_map] in Hstatic, Hmesh.
    injection Hmesh as Hmesh.
    assert (cardBody cs1 = cardBody cs) as Hbody.
    { unfold card_static in Hstatic. by injection Hstatic. }
    destruct (wf_card g2 Hw2 cs1 Ec) as [cb Hcb].
    rewrite Eb, Hbody in Hcb.
    destruct (step_throws o) eqn:Ho.
    + exists cs1, cb. rewrite Hg', Ec.
      split; [reflexivity|]. split; [exact Hbody|]. split; [exact Hcb|].
      split; [discriminate|]. intros _. exact Hmesh.
    + assert (sync_card g2 =
              set_cardSetup
                (Some (set_card
                         (mkCardMesh (geometry_width (card cs1))
                            (geometry_height (card cs1))
                            (position cb) (quaternion cb)) cs1)) g2) as Hsync.
      { unfold sync_card. by rewrite Ec, Eb, Hbody, Hcb. }
      eexists _, cb. rewrite Hg', Ec3, Hsync.
      split; [reflexivity|]. split; [exact Hbody|]. split; [exact Hcb|].
      split; [|discriminate]. intros _. split; reflexivity.
  - intros Hnone. rewrite Hnone in Hstatic.
    destruct (cardSetup stepped) as [cs1|] eqn:Hcs1; [done|].
    rewrite Hg'. destruct (step_throws o); [exact Ec|].
    rewrite Ec3. unfold sync_card. by rewrite Ec.
Qed.

(** A snowball marked for removal is gone from the three arrays after the
    next frame, whether or not the physics step of that frame returns. *)
Lemma animate_removes (o : StepOutcome) (g : Game) (s : Ref) (sb : Snowball) :
  wf g -> s ∈ toRemove g -> objects g !! s = Some sb ->
  (s ∉ snowballs (fst (animate o g))) /\
  (mesh sb ∉ scene (fst (animate o g))) /\
  (body sb ∉ world_bodies (fst (animate o g))).
Proof.
  intros Hwf Hin Hs.
  set (stepped := world_step fixedTimeStep fixedTimeStep maxSubSteps o g).
  assert (wf stepped) as Hw1 by by apply wf_world_step.
  destruct (world_step_frame fixedTimeStep fixedTimeStep maxSubSteps o g)
    as (_ & Hev & _ & _ & _ & _ & Hrem & _).
  fold stepped in Hev, Hrem.
  destruct (Hev s sb Hs) as (sb1 & Hs1 & Em & Eb & _).
  destruct (cleanupPhysics_removes stepped s sb1 Hw1 (Hrem s Hin) Hs1)
    as (R1 & R2 & R3).
  rewrite Em in R2. rewrite Eb in R3.
  unfold animate. fold stepped. cbn [fst].
  destruct (step_throws o); [done|].
  destruct (update_snowballs_frame (sync_card (cleanupPhysics stepped)))
    as ((-> & -> & ->) & _).
  destruct (sync_card_frame (cleanupPhysics stepped)) as ((-> & -> & ->) & _).
  done.
Qed.

(** *** The loop over the snowballs *)

Lemma expired_true (sb : Snowball) (b : Body) :
  expired sb b = true <-> timeAlive sb > 5 \/ vy (position b) < -3.
Proof. unfold expired. rewrite orb_true_iff, gtb_true, ltb_true. done. Qed.

(** The iteration for another snowball leaves this one alone. *)
Lemma update_other (g : Game) (s s' : Ref) (sb : Snowball) :
  wf g -> s <> s' -> objects g !! s = Some sb ->
  objects (update_snowball g s') !! s = Some sb /\
  meshes (update_snowball g s') !! mesh sb = meshes g !! mesh sb /\
  (s ∈ toRemove (update_snowball g s') <-> s ∈ toRemove g).
Proof.
  intros Hwf Hne Hs.
  destruct (update_snowball_cases g s')
    as [->|(sb' & b' & m' & Hs' & Hb' & Hm' & Hw' & Hr' & ->)]; [done|].
  assert (mesh sb' <> mesh sb) as Hmesh.
  { destruct (wf_objects g Hwf s sb Hs) as (? & ? & _).
    destruct (wf_objects g Hwf s' sb' Hs') as (? & ? & _). lia. }
  destruct (expired (age sb') b'); sg.
  - rewrite !lookup_insert_ne by done. split; [done|]. split; [done|].
    rewrite set_add_elem. split; [intros [E|I]; [done|exact I]|by right].
  - rewrite !lookup_insert_ne by done. done.
Qed.

Lemma update_loop_other (l : list Ref) (g : Game) (s : Ref) (sb : Snowball) :
  wf g -> s ∉ l -> objects g !! s = Some sb ->
  objects (fold_left update_snowball l g) !! s = Some sb /\
  meshes (fold_left update_snowball l g) !! mesh sb = meshes g !! mesh sb /\
  (s ∈ toRemove (fold_left update_snowball l g) <-> s ∈ toRemove g).
Proof.
  revert g. induction l as [|x t IH]; intros g Hwf Hnin Hs; [done|].
  apply not_elem_of_cons in Hnin as [Hne Hnin]. simpl.
  destruct (update_other g s x sb Hwf Hne Hs) as (Ho & Hm & Hr).
  destruct (IH (update_snowball g x) (wf_update_snowball g x Hwf) Hnin Ho)
    as (Ho' & Hm' & Hr').
  split; [exact Ho'|]. split; [by rewrite Hm'|]. by rewrite Hr'.
Qed.

(** The iteration for the snowball itself. *)
Lemma update_own (g : Game) (s : Ref) (sb : Snowball) (b : Body) (m : Mesh) :
  objects g !! s = Some sb -> bodies g !! body sb = Some b ->
  meshes g !! mesh sb = Some m ->
  body sb ∈ world_bodies g -> s ∉ toRemove g ->
  objects (update_snowball g s) !! s = Some (age sb) /\
  meshes (update_snowball g s) !! mesh sb = Some (follow m b) /\
  (s ∈ toRemove (update_snowball g s) <-> expired (age sb) b = true).
Proof.
  intros Hs Hb Hm Hw Hr. unfold update_snowball. rewrite Hs, Hb, Hm.
  apply includes_true in Hw. pose proof Hr as Hr'.
  apply includes_false in Hr'. rewrite Hw, Hr'. cbn [negb andb].
  destruct (expired (age sb) b); sg; rewrite !lookup_insert_eq.
  - split; [done|]. split; [done|]. rewrite set_add_elem. split; auto.
  - split; [done|]. split; [done|]. split; [done|discriminate].
Qed.

Lemma update_loop_spec (l : list Ref) (g : Game) (s : Ref) (sb : Snowball)
    (b : Body) (m : Mesh) :
  wf g -> NoDup l -> s ∈ l ->
  objects g !! s = Some sb -> bodies g !! body sb = Some b ->
  meshes g !! mesh sb = Some m ->
  body sb ∈ world_bodies g -> s ∉ toRemove g ->
  objects (fold_left update_snowball l g) !! s = Some (age sb) /\
  meshes (fold_left update_snowball l g) !! mesh sb = Some (follow m b) /\
  (s ∈ toRemove (fold_left update_snowball l g) <-> expired (age sb) b = true).
Proof.
  revert g. induction l as [|x t IH]; intros g Hwf Hnd Hin Hs Hb Hm Hw Hr.
  { by apply elem_of_nil in Hin. }
  apply NoDup_cons in Hnd as [Hx Hnd]. simpl.
  destruct (decide (x = s)) as [->|Hne].
  - destruct (update_own g s sb b m Hs Hb Hm Hw Hr) as (Ho & Hm1 & Hr1).
    destruct (update_loop_other t (update_snowball g s) s (age sb)
                (wf_update_snowball g s Hwf) Hx Ho) as (Ho' & Hm' & Hr').
    simpl in Hm'. split; [exact Ho'|]. split; [by rewrite Hm'|].
    by rewrite Hr'.
  - apply elem_of_cons in Hin as [->|Hin]; [done|].
    assert (s <> x) as Hne' by done.
    destruct (update_other g s x sb Hwf Hne' Hs) as (Ho & Hm1 & Hr1).
    destruct (update_snowball_frame g x)
      as ((_ & _ & Ew) & _ & Eb & _).
    apply IH; try done.
    + by apply wf_update_snowball.
    + by rewrite Eb.
    + by rewrite Hm1.
    + by rewrite Ew.
    + by rewrite Hr1.
Qed.

(** What a frame whose physics step returns does to a snowball that is in
    the list, with its body in the world, when the loop starts. *)
Lemma animate_updates (v : Revision) (o : StepOutcome) (g : Game)
    (s : Ref) (sb : Snowball) (b : Body) :
  reachable v g -> step_throws o = false ->
  let stepped := world_step fixedTimeStep fixedTimeStep maxSubSteps o g in
  let g1 := sync_card (cleanupPhysics stepped) in
  let g' := fst (animate o g) in
  s ∈ snowballs g1 -> objects g1 !! s = Some sb ->
  bodies g1 !! body sb = Some b -> body sb ∈ world_bodies g1 ->
  toRemove g1 = [] /\
  objects g' !! s =
    Some (mkSnowball (mesh sb) (body sb) (timeAlive sb + 1 / 60) (isCollided sb)) /\
  (exists m',
     meshes g' !! mesh sb = Some m' /\
     mesh_position m' = position b /\ mesh_quaternion m' = quaternion b) /\
  bodies g' !! body sb = Some b /\
  (s ∈ toRemove g' <-> timeAlive sb + 1 / 60 > 5 \/ vy (position b) < -3) /\
  (s ∈ toRemove g' ->
   forall o2,
     (s ∉ snowballs (fst (animate o2 g'))) /\
     (mesh sb ∉ scene (fst (animate o2 g'))) /\
     (body sb ∉ world_bodies (fst (animate o2 g')))).
Proof.
  intros Hreach Ho stepped g1 g' Hin Hs Hb Hw.
  apply reachable_wf in Hreach.
  destruct (before_update o g Hreach) as (Hwf1 & Hempty & _).
  fold stepped in Hwf1, Hempty. fold g1 in Hwf1, Hempty.
  assert (g' = update_snowballs g1) as Hg'.
  { subst g' g1 stepped. by apply animate_no_throw. }
  destruct (wf_objects g1 Hwf1 s sb Hs) as (_ & _ & _ & [m Hm] & _).
  assert (s ∉ toRemove g1) as Hr.
  { rewrite Hempty. apply not_elem_of_nil. }
  destruct (update_loop_spec (reverse (snowballs g1)) g1 s sb b m)
    as (Ho' & Hm' & Hr'); try done.
  { rewrite reverse_Permutation. apply Hwf1. }
  { by apply elem_of_reverse. }
  fold (update_snowballs g1) in Ho', Hm', Hr'. rewrite <- Hg' in Ho', Hm', Hr'.
  destruct (update_snowballs_frame g1) as (_ & _ & Eb & _).
  rewrite <- Hg' in Eb.
  split; [exact Hempty|]. split; [exact Ho'|].
  split; [by exists (follow m b)|].
  split; [by rewrite Eb|].
  assert (s ∈ toRemove g' <-> timeAlive sb + 1 / 60 > 5 \/ vy (position b) < -3)
    as Hiff.
  { rewrite Hr'. apply (expired_true (age sb) b). }
  split; [exact Hiff|].
  intros Hmarked o2.
  assert (wf g') as Hwf' by (rewrite Hg'; by apply wf_update_snowballs).
  apply (animate_removes o2 g' s (age sb) Hwf' Hmarked Ho').
Qed.

(** *** Which snowballs leave the list in a frame *)

Lemma cleanup_loop_keeps (l : list Ref) (g : Game) (s : Ref) :
  s ∈ snowballs g -> s ∉ l -> s ∈ snowballs (fold_left cleanup_one l g).
Proof.
  revert g. induction l as [|x t IH]; intros g Hin Hnl; [done|].
  apply not_elem_of_cons in Hnl as [Hne Hnl]. simpl. apply IH; [|done].
  destruct (objects g !! x) as [sb|] eqn:Hx.
  - destruct (cleanup_one_arrays g x sb Hx) as (-> & _).
    by apply array_remove_other.
  - unfold cleanup_one. by rewrite Hx.
Qed.

Lemma cleanupPhysics_snowballs (g : Game) (s : Ref) :
  wf g ->
  s ∈ snowballs (cleanupPhysics g) <-> s ∈ snowballs g /\ (s ∉ toRemove g).
Proof.
  intros Hwf. split.
  - intros Hin. destruct (cleanupPhysics_frame g)
      as (_ & _ & _ & _ & _ & _ & _ & _ & J & _).
    split; [by apply J|]. intros Hrem.
    destruct (wf_toRemove g Hwf s Hrem) as [sb Hsb].
    by destruct (cleanupPhysics_removes g s sb Hwf Hrem Hsb) as (R1 & _).
  - intros [Hin Hnr]. unfold cleanupPhysics. sg. by apply cleanup_loop_keeps.
Qed.

Lemma draws_unchanged (g : Game) (e : CollideEvent) :
  dispatchEvent g e = g -> draws (g, e) = false.
Proof. intros Heq. unfold draws. cbn [fst snd]. by rewrite Heq, Nat.eqb_refl. Qed.

Lemma dispatch_toRemove (g : Game) (e : CollideEvent) (x : Ref) :
  x ∈ toRemove (dispatchEvent g e) <->
  x ∈ toRemove g \/ (listeners g !! target e = Some x /\ draws (g, e) = true).
Proof.
  destruct (dispatchEvent_cases g e)
    as [Heq|(s & sb & cs & cb & Hl & Hs & Hcs & Hcb & Hc & He & Heq)].
  - rewrite Heq. rewrite (draws_unchanged g e Heq).
    split; [auto|]. intros [?|[_ ?]]; [done|discriminate].
  - assert (draws (g, e) = true) as Hd.
    { unfold draws. cbn [fst snd]. rewrite Heq, circles_on_card_hit by done.
      apply negb_true_iff, Nat.eqb_neq. lia. }
    rewrite Heq, Hd. unfold on_card_hit. cbv zeta. sg.
    rewrite set_add_elem. split.
    + intros [->|?]; [right; by split|by left].
    + intros [?|[Hx _]]; [by right|]. left. congruence.
Qed.

Lemma event_dispatches_toRemove (es : list CollideEvent) (g : Game) (x : Ref) :
  x ∈ toRemove (fold_left dispatchEvent es g) <->
  x ∈ toRemove g \/
  exists g0 e, (g0, e) ∈ event_dispatches g es /\
    listeners g0 !! target e = Some x /\ draws (g0, e) = true.
Proof.
  revert g. induction es as [|e t IH]; intros g; simpl.
  - split; [auto|]. intros [?|(g0 & e & Hin & _)]; [done|].
    by apply elem_of_nil in Hin.
  - rewrite IH, dispatch_toRemove. split.
    + intros [[?|[Hl Hd]]|(g0 & e0 & Hin & Hl & Hd)].
      * by left.
      * right. exists g, e. split; [apply list_elem_of_here|done].
      * right. exists g0, e0. split; [by apply list_elem_of_further|done].
    + intros [?|(g0 & e0 & Hin & Hl & Hd)]; [by left; left|].
      apply elem_of_cons in Hin as [[= -> ->]|Hin].
      * left. right. done.
      * right. by exists g0, e0.
Qed.

Lemma substep_dispatches_toRemove (subs : list Substep) (g : Game) (x : Ref) :
  x ∈ toRemove (fold_left internalStep subs g) <->
  x ∈ toRemove g \/
  exists g0 e, (g0, e) ∈ substep_dispatches g subs /\
    listeners g0 !! target e = Some x /\ draws (g0, e) = true.
Proof.
  revert g. induction subs as [|u t IH]; intros g; simpl.
  - split; [auto|]. intros [?|(g0 & e & Hin & _)]; [done|].
    by apply elem_of_nil in Hin.
  - rewrite IH.
    change (toRemove (internalStep g u))
      with (toRemove (fold_left dispatchEvent (collisions u) g)).
    rewrite event_dispatches_toRemove. split.
    + intros [[?|(g0 & e0 & Hin & Hl & Hd)]|(g0 & e0 & Hin & Hl & Hd)].
      * by left.
      * right. exists g0, e0. split; [apply elem_of_app; by left|done].
      * right. exists g0, e0. split; [apply elem_of_app; by right|done].
    + intros [?|(g0 & e0 & Hin & Hl & Hd)]; [by left; left|].
      apply elem_of_app in Hin as [Hin|Hin].
      * left. right. by exists g0, e0.
      * right. by exists g0, e0.
Qed.

(** A snowball of the list leaves it in a frame exactly when it was
    pending removal or its listener drew a splat in this frame's step. *)
Lemma animate_despawns (o : StepOutcome) (g : Game) (s : Ref) :
  wf g -> s ∈ snowballs g ->
  s ∉ snowballs (fst (animate o g)) <->
  s ∈ toRemove g \/
  exists g0 e, (g0, e) ∈ input_dispatches g (AnimationFrame o) /\
    listeners g0 !! target e = Some s /\ draws (g0, e) = true.
Proof.
  intros Hwf Hin. cbn [input_dispatches].
  rewrite <- (substep_dispatches_toRemove (take maxSubSteps (substeps o)) g s).
  change (fold_left internalStep (take maxSubSteps (substeps o)) g)
    with (world_step fixedTimeStep fixedTimeStep maxSubSteps o g).
  set (stepped := world_step fixedTimeStep fixedTimeStep maxSubSteps o g).
  assert (wf stepped) as Hw1 by by apply wf_world_step.
  destruct (world_step_frame fixedTimeStep fixedTimeStep maxSubSteps o g)
    as ((E1 & _) & _).
  fold stepped in E1.
  assert (snowballs (fst (animate o g)) = snowballs (cleanupPhysics stepped)) as ->.
  { unfold animate. fold stepped. cbn [fst]. destruct (step_throws o); [done|].
    destruct (update_snowballs_frame (sync_card (cleanupPhysics stepped)))
      as ((-> & _) & _).
    by destruct (sync_card_frame (cleanupPhysics stepped)) as ((-> & _) & _). }
  rewrite cleanupPhysics_snowballs by done. rewrite E1.
  split.
  - intros Hn. destruct (decide (s ∈ toRemove stepped)); [done|].
    destruct Hn. by split.
  - intros Hr [_ Hn]. done.
Qed.

(** C6 (as amended): in a frame whose physics step returns, nothing is
    pending when the loop starts; every snowball that is then in the list
    with its body in the world ages by exactly 1/60 and its mesh takes the
    position and quaternion of its body; the loop marks it for removal
    exactly when its new age exceeds 5 or its body is below y = -3, and a
    marked snowball is gone from the list, the scene and the world after
    the next frame.  A snowball leaves the list in a frame exactly when it
    was marked before or its listener drew a splat, that is, it hit the
    card for the first time, during the frame's physics step. *)
Theorem frame_updates_snowballs (v : Revision) (o : StepOutcome) (g : Game) :
  reachable v g -> step_throws o = false ->
  let stepped := world_step fixedTimeStep fixedTimeStep maxSubSteps o g in
  let g1 := sync_card (cleanupPhysics stepped) in
  let g' := fst (animate o g) in
  toRemove g1 = [] /\
  (forall s sb b,
     s ∈ snowballs g1 -> objects g1 !! s = Some sb ->
     bodies g1 !! body sb = Some b -> body sb ∈ world_bodies g1 ->
     objects g' !! s =
       Some (mkSnowball (mesh sb) (body sb) (timeAlive sb + 1 / 60)
               (isCollided sb)) /\
     (exists m',
        meshes g' !! mesh sb = Some m' /\
        mesh_position m' = position b /\ mesh_quaternion m' = quaternion b) /\
     bodies g' !! body sb = Some b /\
     (s ∈ toRemove g' <-> timeAlive sb + 1 / 60 > 5 \/ vy (position b) < -3) /\
     (s ∈ toRemove g' ->
      forall o2,
        (s ∉ snowballs (fst (animate o2 g'))) /\
        (mesh sb ∉ scene (fst (animate o2 g'))) /\
        (body sb ∉ world_bodies (fst (animate o2 g'))))) /\
  (forall s, s ∈ snowballs g ->
     s ∉ snowballs g' <->
     s ∈ toRemove g \/
     exists g0 e, (g0, e) ∈ input_dispatches g (AnimationFrame o) /\
       listeners g0 !! target e = Some s /\ draws (g0, e) = true).
Proof.
  intros Hreach Ho stepped g1 g'.
  split; [|split].
  - apply (before_update o g (reachable_wf v g Hreach)).
  - intros s sb b H1 H2 H3 H4.
    by destruct (animate_updates v o g s sb b Hreach Ho H1 H2 H3 H4) as (_ & ?).
  - intros s Hin. apply animate_despawns; [|done]. by apply reachable_wf in Hreach.
Qed.

(** *** Removal is deferred *)



End Frame.

(** ** Allocation *)

Section Allocation.
Context `{Three}.

(** The elements of the three arrays after an input were there before or
    are freshly allocated; the allocation counter never decreases. *)
Lemma handle_arrays (v : Revision) (g : Game) (i : Input) (x : Ref) :
  (next_ref g <= next_ref (handle v g i))%nat /\
  (x ∈ snowballs (handle v g i) -> x ∈ snowballs g \/ (next_ref g <= x)%nat) /\
  (x ∈ scene (handle v g i) -> x ∈ scene g \/ (next_ref g <= x)%nat) /\
  (x ∈ world_bodies (handle v g i) ->
     x ∈ world_bodies g \/ (next_ref g <= x)%nat).
Proof.
  destruct i; cbn [handle].
  - unfold startAiming, updateAimVisuals. sg. auto.
  - unfold updateAiming, updateAimVisuals. destruct (isAiming g) eqn:Ha; sg;
      [rewrite Ha|]; auto.
  - unfold throwSnowball. destruct (isAiming g); [|auto].
    cbn [negb]. cbv zeta. sg.
    split; [lia|].
    split; [intros [?| ->%list_elem_of_singleton]%elem_of_app; [auto|right; lia]|].
    split; [intros [?| ->%list_elem_of_singleton]%elem_of_app; [auto|right; lia]|].
    intros [->|?]%addBody_elem; [right; lia|auto].
  - auto.
  - auto.
  - auto.
  - destruct v; [auto|]. destruct (cardSetup g); [auto|].
    unfold setupCard_part_000, setupCard_with. cbv zeta. sg.
    split; [lia|]. split; [auto|]. split; [auto|].
    intros [->|[->|?]%addBody_elem]%addBody_elem; [right; lia|right; lia|auto].
  - unfold animate. cbn [fst].
    set (stepped := world_step fixedTimeStep fixedTimeStep maxSubSteps o g).
    destruct (world_step_frame fixedTimeStep fixedTimeStep maxSubSteps o g)
      as ((E1 & E2 & E3) & _ & _ & _ & _ & En & _).
    fold stepped in E1, E2, E3, En.
    destruct (cleanupPhysics_frame stepped)
      as (_ & _ & _ & _ & En2 & _ & _ & _ & J & K & L).
    assert (next_ref (sync_card (cleanupPhysics stepped))
            = next_ref (cleanupPhysics stepped)) as En3.
    { by destruct (sync_card_cases (cleanupPhysics stepped))
        as [->|(cs & cb & _ & _ & ->)]. }
    destruct (sync_card_frame (cleanupPhysics stepped)) as ((S1 & S2 & S3) & _).
    destruct (update_snowballs_frame (sync_card (cleanupPhysics stepped)))
      as ((U1 & U2 & U3) & _ & _ & _ & En4 & _).
    destruct (step_throws o).
    + rewrite En2, En. split; [lia|].
      split; [intros Hx%J; rewrite E1 in Hx; auto|].
      split; [intros Hx%K; rewrite E2 in Hx; auto|].
      intros Hx%L; rewrite E3 in Hx; auto.
    + rewrite En4, En3, En2, En, U1, U2, U3, S1, S2, S3. split; [lia|].
      split; [intros Hx%J; rewrite E1 in Hx; auto|].
      split; [intros Hx%K; rewrite E2 in Hx; auto|].
      intros Hx%L; rewrite E3 in Hx; auto.
Qed.

(** An allocated reference that is out of the arrays stays out. *)
Lemma run_stays_out (v : Revision) (inputs : list Input) (g : Game) (s m b : Ref) :
  (s < next_ref g)%nat -> (m < next_ref g)%nat -> (b < next_ref g)%nat ->
  s ∉ snowballs g -> m ∉ scene g -> b ∉ world_bodies g ->
  (s ∉ snowballs (run v g inputs)) /\ (m ∉ scene (run v g inputs)) /\
  (b ∉ world_bodies (run v g inputs)).
Proof.
  revert g. induction inputs as [|i t IH]; intros g Hs Hm Hb Ns Nm Nb; [done|].
  change (run v g (i :: t)) with (run v (handle v g i) t).
  destruct (handle_arrays v g i s) as (Hn & As & _ & _).
  destruct (handle_arrays v g i m) as (_ & _ & Am & _).
  destruct (handle_arrays v g i b) as (_ & _ & _ & Ab).
  apply IH; try lia.
  - intros [?|?]%As; [done|lia].
  - intros [?|?]%Am; [done|lia].
  - intros [?|?]%Ab; [done|lia].
Qed.

(** What a throw allocates did not exist before. *)
Lemma throwSnowball_fresh (v : Revision) (event : MouseEvent) (g : Game) :
  wf g -> isAiming g = true ->
  exists s m b,
    snowballs (throwSnowball v event g) = snowballs g ++ [s] /\
    objects (throwSnowball v event g) !! s = Some (mkSnowball m b 0 false) /\
    objects g !! s = None /\ meshes g !! m = None /\ bodies g !! b = None /\
    (forall s0 sb0, objects g !! s0 = Some sb0 ->
       s0 <> s /\ mesh sb0 <> m /\ body sb0 <> b).
Proof.
  intros Hwf Ha. unfold throwSnowball. rewrite Ha. cbn [negb]. cbv zeta. sg.
  exists (S (S (next_ref g))), (next_ref g), (S (next_ref g)).
  split; [reflexivity|]. split; [apply lookup_insert_eq|].
  split.
  { destruct (objects g !! _) as [sb|] eqn:Hs; [|done].
    destruct (wf_objects g Hwf _ _ Hs) as (_ & _ & Hlt & _). lia. }
  split.
  { destruct (meshes g !! _) as [x|] eqn:Hm; [|done].
    pose proof (wf_meshes g Hwf _ _ Hm). lia. }
  split.
  { destruct (bodies g !! _) as [x|] eqn:Hb; [|done].
    pose proof (wf_bodies g Hwf _ _ Hb). lia. }
  intros s0 sb0 Hs0.
  destruct (wf_objects g Hwf _ _ Hs0) as (? & ? & ? & _). lia.
Qed.

(** C7 (as amended): there is no pool.  Every throw while aiming allocates
    a snowball object, a mesh and a body that did not exist before, so they
    are those of no earlier snowball; and once a snowball is out of the
    list, its mesh out of the scene and its body out of the world, no later
    input puts them back. *)
Theorem throw_allocates_anew (v : Revision) (g : Game) :
  reachable v g ->
  (forall event, isAiming g = true ->
     exists s m b,
       snowballs (throwSnowball v event g) = snowballs g ++ [s] /\
       objects (throwSnowball v event g) !! s = Some (mkSnowball m b 0 false) /\
       objects g !! s = None /\ meshes g !! m = None /\ bodies g !! b = None /\
       (forall s0 sb0, objects g !! s0 = Some sb0 ->
          s0 <> s /\ mesh sb0 <> m /\ body sb0 <> b)) /\
  (forall s sb inputs,
     objects g !! s = Some sb ->
     s ∉ snowballs g -> mesh sb ∉ scene g -> body sb ∉ world_bodies g ->
     (s ∉ snowballs (run v g inputs)) /\
     (mesh sb ∉ scene (run v g inputs)) /\
     (body sb ∉ world_bodies (run v g inputs))).
Proof.
  intros Hreach. apply reachable_wf in Hreach. split.
  - intros event Ha. by apply throwSnowball_fresh.
  - intros s sb inputs Hs Ns Nm Nb.
    destruct (wf_objects g Hreach s sb Hs) as (? & ? & ? & _).
    apply run_stays_out; try done; lia.
Qed.

End Allocation.

(** ** The two copies of the script and the card's size *)

Section CardSize.
Context `{Three}.

Lemma handle_card_static (v : Revision) (g : Game) (i : Input) :
  is_Some (cardSetup g) ->
  card_static <$> cardSetup (handle v g i) = card_static <$> cardSetup g.
Proof.
  intros [cs Hcs]. destruct i; cbn [handle].
  - unfold startAiming, updateAimVisuals. by sg.
  - unfold updateAiming, updateAimVisuals. destruct (isAiming g) eqn:Ha; sg;
      [rewrite Ha|]; done.
  - unfold throwSnowball. by destruct (isAiming g).
  - done.
  - done.
  - done.
  - destruct v; [done|]. destruct (cardSetup g) eqn:E; [by rewrite E|done].
  - unfold animate. cbn [fst].
    set (stepped := world_step fixedTimeStep fixedTimeStep maxSubSteps o g).
    destruct (world_step_frame fixedTimeStep fixedTimeStep maxSubSteps o g)
      as (_ & _ & _ & _ & _ & _ & _ & E1 & _).
    fold stepped in E1.
    destruct (cleanupPhysics_frame stepped) as (_ & _ & _ & _ & _ & E2 & _).
    destruct (sync_card_frame (cleanupPhysics stepped))
      as (_ & _ & _ & _ & _ & E3).
    destruct (update_snowballs_frame (sync_card (cleanupPhysics stepped)))
      as (_ & _ & _ & _ & _ & E4 & _).
    destruct (step_throws o); congruence.
Qed.

(** In [src/game.js] the card is always 3 by 4.5 and its snow canvases 512
    by 768: the constants 1.5 and 2.25 of [addSnowSplat] are the half
    extents of the card. *)
Lemma game_js_card_static (g : Game) :
  reachable game_js g ->
  exists cs, cardSetup g = Some cs /\
    card_static cs = (1%nat, (3, 4.5), (512%nat, 768%nat), (512%nat, 768%nat)).
Proof.
  induction 1 as [rect size|g i _ (cs & Hcs & Hst)].
  - eexists. split; reflexivity.
  - pose proof (handle_card_static game_js g i (mk_is_Some _ _ Hcs)) as E.
    rewrite Hcs in E. destruct (cardSetup (handle game_js g i)) as [cs'|]; [|done].
    exists cs'. split; [done|]. simpl in E. congruence.
Qed.

(** In the later revision the card set up for a 512 by 768 image is 4 by
    6, while [addSnowSplat] still divides by 1.5 and 2.25. *)
Lemma part_000_card_static (rect : DOMRect) (size : R) :
  exists cs,
    cardSetup (handle part_000 (constructor part_000 rect size)
                 (TextureLoaded 512 768)) = Some cs /\
    geometry_width (card cs) = 4 /\ geometry_height (card cs) = 6 /\
    width (snowCanvasFront cs) = 512%nat /\ height (snowCanvasFront cs) = 768%nat /\
    width (snowCanvasBack cs) = 512%nat /\ height (snowCanvasBack cs) = 768%nat.
Proof.
  eexists. split; [reflexivity|].
  split; [reflexivity|].
  split; [|by repeat split].
  cbn [card geometry_height]. rewrite INR_512, INR_768. lra.
Qed.

End CardSize.

(** ** The defect of the later revision *)

Section Misplaced.
Context `{Three}.

(** C1: in [src/game.js] a contact point on the card face is painted at
    the pixel the spec names, with half extents that are half the card
    geometry's. *)
Lemma game_js_splat_on_face (g : Game) (cs : CardSetup) (random : nat -> R)
    (p normal : Vec3) :
  reachable game_js g -> cardSetup g = Some cs ->
  let halfCardWidth := geometry_width (card cs) / 2 in
  let halfCardHeight := geometry_height (card cs) / 2 in
  let c := hit_canvas normal cs in
  - halfCardWidth <= vx p <= halfCardWidth ->
  - halfCardHeight <= vy p <= halfCardHeight ->
  exists style size smalls,
    painted (hit_canvas normal (addSnowSplat random p normal cs)) =
      painted c
      ++ FillPath style
           [mkArc (spec_pixel_x halfCardWidth (INR (width c)) (vx p))
                  (spec_pixel_y halfCardHeight (INR (height c)) (vy p))
                  size 0 (PI * 2)]
      :: smalls.
Proof.
  intros Hreach Hcs hw hh c Hx Hy.
  destruct (game_js_card_static g Hreach) as (cs' & Hcs' & Hst).
  assert (cs' = cs) as -> by congruence.
  unfold card_static in Hst. injection Hst as _ Ew Eh _ _ _ _.
  subst hw hh. rewrite Ew, Eh in *.
  replace (3 / 2) with 1.5 in * by lra. replace (4.5 / 2) with 2.25 in * by lra.
  rewrite hit_canvas_addSnowSplat.
  destruct (draw_splat_painted random p c) as (style & size & smalls & Hp & _).
  destruct (splat_on_face p c) as (Ex & Ey); [lra|lra|].
  exists style, size, smalls. by rewrite <- Ex, <- Ey.
Qed.

(** C1 (defect): in the later revision, with a 512 by 768 card image, the
    card is 4 by 6, so the point (1.5, 0) of its face lies three quarters
    of the way from the centre to the right edge and the spec's pixel is
    (448, 384); [addSnowSplat] still divides by 1.5 and paints the splat at
    (512, 384), on the right edge of the canvas. *)
Theorem splat_misplaced_in_later_revision (rect : DOMRect) (size : R)
    (random : nat -> R) (normal : Vec3) :
  let g := handle part_000 (constructor part_000 rect size) (TextureLoaded 512 768) in
  let p := mkVec3 1.5 0 0.1 in
  exists cs,
    cardSetup g = Some cs /\
    let halfCardWidth := geometry_width (card cs) / 2 in
    let halfCardHeight := geometry_height (card cs) / 2 in
    let c := hit_canvas normal cs in
    halfCardWidth = 2 /\ halfCardHeight = 3 /\
    - halfCardWidth <= vx p <= halfCardWidth /\
    - halfCardHeight <= vy p <= halfCardHeight /\
    spec_pixel_x halfCardWidth (INR (width c)) (vx p) = 448 /\
    spec_pixel_y halfCardHeight (INR (height c)) (vy p) = 384 /\
    exists style r smalls,
      painted (hit_canvas normal (addSnowSplat random p normal cs)) =
        painted c ++ FillPath style [mkArc 512 384 r 0 (PI * 2)] :: smalls.
Proof.
  intros g p.
  destruct (part_000_card_static rect size)
    as (cs & Hcs & Ew & Eh & Wf & Hf & Wb & Hb).
  exists cs. split; [exact Hcs|]. cbv zeta.
  assert (INR (width (hit_canvas normal cs)) = 512
          /\ INR (height (hit_canvas normal cs)) = 768) as [EW EH].
  { unfold hit_canvas. destruct (hitFront (card cs) normal).
    - rewrite Wf, Hf. split; [apply INR_512|apply INR_768].
    - rewrite Wb, Hb. split; [apply INR_512|apply INR_768]. }
  rewrite Ew, Eh, EW, EH. subst p. cbn [vx vy].
  split; [lra|]. split; [lra|]. split; [lra|]. split; [lra|].
  split; [unfold spec_pixel_x, spec_u; lra|].
  split; [unfold spec_pixel_y, spec_u; lra|].
  rewrite hit_canvas_addSnowSplat.
  destruct (draw_splat_painted random (mkVec3 1.5 0 0.1) (hit_canvas normal cs))
    as (style & r & smalls & Hp & _).
  exists style, r, smalls. rewrite Hp.
  assert (splat_x (mkVec3 1.5 0 0.1) (hit_canvas normal cs) = 512) as ->.
  { unfold splat_x, splat_u. cbn [vx]. rewrite EW.
    rewrite clamp_id by lra. lra. }
  assert (splat_y (mkVec3 1.5 0 0.1) (hit_canvas normal cs) = 384) as ->.
  { unfold splat_y, splat_v. cbn [vy]. rewrite EH.
    rewrite clamp_id by lra. lra. }
  reflexivity.
Qed.

End Misplaced.

(** ** Examples on the concrete engine *)

Lemma sample_start_reachable : reachable game_js sample_start.
Proof. apply reachable_init. Qed.

Lemma sample_thrown_reachable : reachable game_js sample_thrown.
Proof. apply reachable_run, sample_start_reachable. Qed.

Lemma sample_despawned_reachable : reachable game_js sample_despawned.
Proof. apply reachable_run, sample_thrown_reachable. Qed.

Lemma sample_fallen_reachable : reachable game_js sample_fallen.
Proof. apply reachable_run, sample_thrown_reachable. Qed.

(** The first throw: one snowball, object 5 with mesh 3 and body 4. *)
Example sample_thrown_state :
  snowballs sample_thrown = [5%nat] /\
  objects sample_thrown !! 5%nat = Some (mkSnowball 3 4 0 false) /\
  scene sample_thrown = [3%nat] /\
  world_bodies sample_thrown = [0; 1; 2; 4]%nat.
Proof. split; [|split; [|split]]; reflexivity. Qed.

(** C7 (counterexample): the first snowball (object 5, mesh 3 in the
    scene, body 4 in the world) hits the card and is despawned in that
    frame; its object still names mesh 3 and body 4, which are out of the
    scene and the world.  The next throw does not take them back:
    it allocates mesh 6 and body 7, which did not exist before. *)
Lemma no_pool_counterexample :
  snowballs sample_thrown = [5%nat] /\
  scene sample_thrown = [3%nat] /\
  world_bodies sample_thrown = [0; 1; 2; 4]%nat /\
  snowballs sample_despawned = [] /\
  objects sample_despawned !! 5%nat = Some (mkSnowball 3 4 0 true) /\
  scene sample_despawned = [] /\
  world_bodies sample_despawned = [0; 1; 2]%nat /\
  meshes sample_despawned !! 6%nat = None /\
  bodies sample_despawned !! 7%nat = None /\
  snowballs sample_rethrown = [8%nat] /\
  objects sample_rethrown !! 8%nat = Some (mkSnowball 6 7 0 false) /\
  scene sample_rethrown = [6%nat] /\
  world_bodies sample_rethrown = [0; 1; 2; 7]%nat.
Proof.
  split; [reflexivity|]. split; [reflexivity|]. split; [reflexivity|].
  split; [reflexivity|]. split; [reflexivity|]. split; [reflexivity|].
  split; [reflexivity|]. split; [reflexivity|]. split; [reflexivity|].
  split; [reflexivity|]. split; [reflexivity|]. split; reflexivity.
Qed.

(** The state in which the loop of the frame of the fall starts. *)
Example sample_before_loop_state :
  let g1 :=
    sync_card (cleanupPhysics
      (world_step fixedTimeStep fixedTimeStep maxSubSteps
         sample_fall_step sample_thrown)) in
  5%nat ∈ snowballs g1 /\
  objects g1 !! 5%nat = Some (mkSnowball 3 4 0 false) /\
  position <$> (bodies g1 !! 4%nat) = Some (mkVec3 0 (-4) 4) /\
  4%nat ∈ world_bodies g1.
Proof.
  cbv zeta.
  split; [change (5%nat ∈ [5%nat]); apply list_elem_of_here|].
  split; [reflexivity|].
  split; [reflexivity|].
  change (4%nat ∈ [0; 1; 2; 4]%nat).
  do 3 apply list_elem_of_further. apply list_elem_of_here.
Qed.

(** The frame of the fall ages the first snowball to 1/60 and marks it. *)
Example sample_fallen_state :
  objects sample_fallen !! 5%nat = Some (mkSnowball 3 4 (0 + 1 / 60) false) /\
  5%nat ∈ toRemove sample_fallen.
Proof.
  destruct sample_before_loop_state as (H1 & H2 & H3 & H4).
  destruct (bodies _ !! 4%nat) as [b|] eqn:Hb in H3; [|discriminate H3].
  injection H3 as Hpos.
  pose proof (animate_updates game_js sample_fall_step sample_thrown 5
                (mkSnowball 3 4 0 false) b sample_thrown_reachable eq_refl
                H1 H2 Hb H4) as (_ & Ho & _ & _ & Hiff & _).
  split; [exact Ho|].
  apply Hiff. right. rewrite Hpos. simpl. lra.
Qed.

(** The pose of the card body after the step of the swing. *)
Example sample_swing_body :
  let stepped := world_step (1 / 60) (1 / 60) 3 sample_swing_step sample_start in
  cardSetup sample_start = Some sample_card /\
  position <$> (bodies stepped !! 1%nat) = Some (mkVec3 0 0.04 0.5) /\
  quaternion <$> (bodies stepped !! 1%nat) = Some (mkQuat 0.28 0 0 0.96).
Proof. cbv zeta. split; [|split]; reflexivity. Qed.

(** C4 (witness): a frame in which the card body swings from the origin to
    (0, 0.04, 0.5); the card mesh has the new pose of the body. *)
Lemma animate_card_follows_body_witness :
  card_position (card sample_card) = mkVec3 0 0 0 /\
  exists cs',
    cardSetup (fst (animate sample_swing_step sample_start)) = Some cs' /\
    card_position (card cs') = mkVec3 0 0.04 0.5 /\
    card_quaternion (card cs') = mkQuat 0.28 0 0 0.96.
Proof.
  split; [reflexivity|].
  destruct sample_swing_body as (Hcs & Hp & Hq).
  pose proof (animate_card_follows_body game_js sample_swing_step sample_start
                sample_start_reachable) as HH.
  cbv zeta in HH. destruct HH as (_ & _ & Hcard & _).
  destruct (Hcard sample_card Hcs) as (cs' & cb & Hcs' & _ & Hcb & Hret & _).
  destruct (Hret eq_refl) as [Ep Eq].
  change (cardBody sample_card) with 1%nat in Hcb.
  rewrite Hcb in Hp, Hq. injection Hp as Hp. injection Hq as Hq.
  exists cs'. split; [exact Hcs'|]. split; congruence.
Defined.

(** C4 (counterexample): the same swing in a step that then raises an
    error.  After the frame the card body is at (0, 0.04, 0.5), but the card
    mesh that was rendered is still at the origin: its position was not set
    to the body's. *)
Lemma card_not_synced_counterexample :
  exists cs' cb meshes,
    cardSetup (fst (animate sample_failing_swing sample_start)) = Some cs' /\
    bodies (fst (animate sample_failing_swing sample_start)) !! cardBody cs' = Some cb /\
    snd (animate sample_failing_swing sample_start) =
      [RequestAnimationFrame; WorldStep (1 / 60) (1 / 60) 3;
       Render (Some (card cs')) meshes] /\
    card_position (card cs') = mkVec3 0 0 0 /\
    position cb = mkVec3 0 0.04 0.5 /\
    card_position (card cs') <> position cb.
Proof.
  assert (position <$> (bodies (fst (animate sample_failing_swing sample_start))
                          !! 1%nat) = Some (mkVec3 0 0.04 0.5)) as Hp by reflexivity.
  destruct (bodies (fst (animate sample_failing_swing sample_start)) !! 1%nat)
    as [cb|] eqn:Hcb; [|discriminate Hp].
  injection Hp as Hpos.
  exists sample_card, cb, [].
  split; [reflexivity|]. split; [exact Hcb|]. split; [reflexivity|].
  split; [reflexivity|]. split; [exact Hpos|].
  rewrite Hpos. intros E. injection E as E1 E2. lra.
Qed.

(** C6 (witness): in the frame of the fall the first snowball ages to
    1/60, and it is marked for removal because its body is at y = -4. *)
Lemma frame_updates_snowballs_witness :
  objects (fst (animate sample_fall_step sample_thrown)) !! 5%nat =
    Some (mkSnowball 3 4 (0 + 1 / 60) false) /\
  5%nat ∈ toRemove (fst (animate sample_fall_step sample_thrown)).
Proof.
  destruct sample_before_loop_state as (H1 & H2 & H3 & H4).
  destruct (bodies _ !! 4%nat) as [b|] eqn:Hb in H3; [|discriminate H3].
  injection H3 as Hpos.
  pose proof (frame_updates_snowballs game_js sample_fall_step sample_thrown
                sample_thrown_reachable eq_refl) as HH.
  cbv zeta in HH. destruct HH as (_ & Hloop & _).
  pose proof (Hloop 5%nat (mkSnowball 3 4 0 false) b H1 H2 Hb H4)
    as (Ho & _ & _ & Hiff & _).
  split; [exact Ho|].
  apply Hiff. right. rewrite Hpos. simpl. lra.
Defined.

(** C6 (counterexample): the first snowball is in the list after the
    throw.  In the next frame its body is moved in front of the card, to
    y = 0, and meets the card: at the end of that frame the snowball is out
    of the list, its mesh out of the scene and its body out of the world,
    although its age is 0, not above 5, and its body is not below
    y = -3. *)
Lemma despawn_on_hit_counterexample :
  exists sb b,
    5%nat ∈ snowballs sample_thrown /\
    objects sample_hit_aloft !! 5%nat = Some sb /\
    bodies sample_hit_aloft !! body sb = Some b /\
    (5%nat ∉ snowballs sample_hit_aloft) /\
    (mesh sb ∉ scene sample_hit_aloft) /\
    (body sb ∉ world_bodies sample_hit_aloft) /\
    ~ (timeAlive sb > 5 \/ vy (position b) < -3).
Proof.
  assert (position <$> (bodies sample_hit_aloft !! 4%nat)
          = Some (mkVec3 0 0 (-0.8))) as Hp by reflexivity.
  destruct (bodies sample_hit_aloft !! 4%nat) as [b|] eqn:Hb; [|discriminate Hp].
  injection Hp as Hpos.
  exists (mkSnowball 3 4 0 true), b.
  split; [change (5%nat ∈ [5%nat]); apply list_elem_of_here|].
  split; [reflexivity|].
  split; [exact Hb|].
  split; [change (5%nat ∉ []); apply not_elem_of_nil|].
  split; [change (3%nat ∉ []); apply not_elem_of_nil|].
  split.
  { change (4%nat ∉ [0; 1; 2]%nat). intros Hin.
    repeat (apply elem_of_cons in Hin as [Hin|Hin]; [discriminate Hin|]).
    by apply elem_of_nil in Hin. }
  rewrite Hpos. simpl. lra.
Qed.


(** The hit of the sample run draws. *)
Example sample_hit_draws : draws (sample_thrown, sample_hit) = true.
Proof.
  assert (exists cs, cardSetup sample_thrown = Some cs /\ cardBody cs = 1%nat)
    as (cs & Hcs & Hcb) by (eexists; split; reflexivity).
  apply (first_hit_draws sample_thrown sample_hit 5 (mkSnowball 3 4 0 false) cs).
  - apply reachable_wf with game_js, sample_thrown_reachable.
  - reflexivity.
  - reflexivity.
  - reflexivity.
  - exact Hcs.
  - by rewrite Hcb.
Qed.

(** C2 (witness): in the sample run the first snowball's body receives the
    same collide event three times; it produces at most one splat. *)
Lemma one_splat_per_snowball_witness :
  (count_splats 5
     (dispatches game_js sample_start
        [MouseDown sample_click; MouseUp sample_click;
         AnimationFrame
           (mkStepOutcome
              [mkSubstep [sample_hit; sample_hit] still;
               mkSubstep [sample_hit] still] false)]) <= 1)%nat.
Proof.
  pose proof (one_splat_per_snowball game_js sample_start
    [MouseDown sample_click; MouseUp sample_click;
     AnimationFrame
       (mkStepOutcome
          [mkSubstep [sample_hit; sample_hit] still;
           mkSubstep [sample_hit] still] false)]
    sample_start_reachable) as (Hcount & _).
  exact (Hcount 5%nat).
Defined.

(** C7 (witness): the despawned first snowball stays out after the second
    throw. *)
Lemma throw_allocates_anew_witness :
  (5%nat ∉ snowballs sample_rethrown) /\
  (3%nat ∉ scene sample_rethrown) /\
  (4%nat ∉ world_bodies sample_rethrown).
Proof.
  pose proof (throw_allocates_anew game_js sample_despawned
                sample_despawned_reachable) as (_ & Hout).
  assert (objects sample_despawned !! 5%nat = Some (mkSnowball 3 4 0 true))
    as Ho by reflexivity.
  assert (5%nat ∉ snowballs sample_despawned) as N1.
  { change (5%nat ∉ []). apply not_elem_of_nil. }
  assert (3%nat ∉ scene sample_despawned) as N2.
  { change (3%nat ∉ []). apply not_elem_of_nil. }
  assert (4%nat ∉ world_bodies sample_despawned) as N3.
  { change (4%nat ∉ [0; 1; 2]%nat). intros Hin.
    repeat (apply elem_of_cons in Hin as [Hin|Hin]; [discriminate Hin|]).
    by apply elem_of_nil in Hin. }
  exact (Hout 5%nat (mkSnowball 3 4 0 true)
           [MouseDown sample_click; MouseUp sample_click] Ho N1 N2 N3).
Defined.

(** * Further properties *)

(** ** What a step that allocates and removes nothing keeps *)

Section Steady.
Context `{Three}.

Lemma steady_refl (g : Game) : steady g g.
Proof.
  split; [apply keeps_arrays_refl|]. repeat split; auto.
  intros s sb sb' E1 E2. assert (sb = sb') as -> by congruence. lra.
Qed.

Lemma steady_trans (g1 g2 g3 : Game) :
  steady g1 g2 -> steady g2 g3 -> steady g1 g3.
Proof.
  intros (A1 & B1 & C1 & D1 & E1 & F1 & G1 & H1)
         (A2 & B2 & C2 & D2 & E2 & F2 & G2 & H2).
  split; [by eapply keeps_arrays_trans|].
  split; [intros s; by rewrite B2|].
  split.
  { intros s sb sb3 Hs Hs3. pose proof (B1 s) as Hb. rewrite Hs in Hb.
    destruct (objects g2 !! s) as [sb2|] eqn:Hs2; [|done].
    pose proof (C1 s sb sb2 Hs Hs2). pose proof (C2 s sb2 sb3 Hs2 Hs3). lra. }
  split; [intros r; by rewrite D2|].
  split; [intros r; by rewrite E2|].
  split; [congruence|]. split; congruence.
Qed.

Lemma steady_fold {A : Type} (f : Game -> A -> Game) (l : list A) (g : Game) :
  (forall g0 a, steady g0 (f g0 a)) -> steady g (fold_left f l g).
Proof.
  intros Hf. apply (fold_left_preserves (steady g)); [|apply steady_refl].
  intros g0 a Hg0. eapply steady_trans; [exact Hg0|apply Hf].
Qed.

(** Replacing one object by an older copy of itself. *)
Lemma steady_objects (g : Game) (s : Ref) (sb sb' : Snowball) (objs : gmap Ref Snowball) :
  objects g !! s = Some sb -> objs = <[s := sb']> (objects g) ->
  ids sb' = ids sb -> timeAlive sb <= timeAlive sb' ->
  (forall s0, ids <$> objs !! s0 = ids <$> objects g !! s0) /\
  (forall s0 sb0 sb0', objects g !! s0 = Some sb0 -> objs !! s0 = Some sb0' ->
     timeAlive sb0 <= timeAlive sb0').
Proof.
  intros Hs -> Ei Ht. split.
  - intros s0. destruct (decide (s0 = s)) as [->|Hne].
    + rewrite lookup_insert_eq, Hs. simpl. by rewrite Ei.
    + by rewrite lookup_insert_ne.
  - intros s0 sb0 sb0'. destruct (decide (s0 = s)) as [->|Hne].
    + rewrite lookup_insert_eq. intros E1 [= <-]. congruence.
    + rewrite lookup_insert_ne by done. intros E1 E2.
      assert (sb0 = sb0') as -> by congruence. lra.
Qed.

Lemma steady_on_card_hit (s : Ref) (sb : Snowball) (cs : CardSetup) (cb : Body)
    (e : CollideEvent) (g : Game) :
  objects g !! s = Some sb -> cardSetup g = Some cs ->
  steady g (on_card_hit s sb cs cb e g).
Proof.
  intros Hs Hcs. unfold on_card_hit. cbv zeta.
  destruct (steady_objects g s sb (mark_collided sb) _ Hs eq_refl eq_refl (Rle_refl _))
    as (Hi & Ht).
  split; [by repeat split|]. unfold controls. sg.
  split; [exact Hi|]. split; [exact Ht|].
  repeat split; try reflexivity.
  rewrite Hcs. reflexivity.
Qed.

Lemma steady_dispatchEvent (g : Game) (e : CollideEvent) :
  steady g (dispatchEvent g e).
Proof.
  destruct (dispatchEvent_cases g e)
    as [->|(s & sb & cs & cb & _ & Hs & Hcs & _ & _ & _ & ->)].
  - apply steady_refl.
  - by apply steady_on_card_hit.
Qed.

Lemma steady_integrate (m : Ref -> Body -> Kinematics) (g : Game) :
  steady g (integrate m g).
Proof.
  split; [by repeat split|].
  split; [done|].
  split. { intros s sb sb' E1 E2. unfold integrate in E2. sg.
           assert (sb = sb') as -> by congruence. lra. }
  split.
  { intros r. rewrite integrate_lookup. destruct (bodies g !! r) as [b|]; [|done].
    simpl. by destruct (includes r (world_bodies g)). }
  repeat split; reflexivity.
Qed.

Lemma steady_internalStep (g : Game) (s : Substep) : steady g (internalStep g s).
Proof.
  unfold internalStep. eapply steady_trans; [|apply steady_integrate].
  apply steady_fold. apply steady_dispatchEvent.
Qed.

Lemma steady_world_step (dt t : R) (n : nat) (o : StepOutcome) (g : Game) :
  steady g (world_step dt t n o g).
Proof. unfold world_step. apply steady_fold. apply steady_internalStep. Qed.

Lemma steady_sync_card (g : Game) : steady g (sync_card g).
Proof.
  destruct (sync_card_cases g) as [->|(cs & cb & Hcs & _ & ->)].
  - apply steady_refl.
  - split; [by repeat split|]. unfold controls. sg.
    split; [done|].
    split. { intros s sb sb' E1 E2. assert (sb = sb') as -> by congruence. lra. }
    repeat split; try reflexivity. by rewrite Hcs.
Qed.

Lemma steady_update_snowball (g : Game) (s : Ref) : steady g (update_snowball g s).
Proof.
  destruct (update_snowball_cases g s)
    as [->|(sb & b & m & Hs & Hb & Hm & Hw & Hr & ->)].
  - apply steady_refl.
  - assert (timeAlive sb <= timeAlive (age sb)) as Hage.
    { unfold age, fixedTimeStep. simpl. lra. }
    destruct (steady_objects g s sb (age sb) _ Hs eq_refl eq_refl Hage) as (Hi & Ht).
    assert (forall r, sphere_radius <$> <[mesh sb := follow m b]> (meshes g) !! r
                      = sphere_radius <$> meshes g !! r) as Hmesh.
    { intros r. destruct (decide (r = mesh sb)) as [->|Hne].
      - by rewrite lookup_insert_eq, Hm.
      - by rewrite lookup_insert_ne. }
    destruct (expired (age sb) b); unfold steady, keeps_arrays, controls; sg;
      repeat split; auto.
Qed.

Lemma steady_update_snowballs (g : Game) : steady g (update_snowballs g).
Proof. unfold update_snowballs. apply steady_fold. apply steady_update_snowball. Qed.

End Steady.

(** ** Scene, world and list agree *)

Lemma array_remove_elem (x y : Ref) (l : list Ref) :
  NoDup l -> y ∈ array_remove x l <-> y ∈ l /\ y <> x.
Proof.
  intros Hnd. split.
  - intros Hin. split; [by apply array_remove_subset in Hin|].
    intros ->. by apply (array_remove_gone x l Hnd).
  - intros [Hin Hne]. by apply array_remove_other.
Qed.

Section Sound.
Context `{Three}.

Lemma steady_back (g g' : Game) (s : Ref) (sb' : Snowball) :
  steady g g' -> objects g' !! s = Some sb' ->
  exists sb, objects g !! s = Some sb /\ mesh sb' = mesh sb /\
    body sb' = body sb /\ timeAlive sb <= timeAlive sb'.
Proof.
  intros (_ & Hi & Ht & _) Hs'. pose proof (Hi s) as E. rewrite Hs' in E.
  destruct (objects g !! s) as [sb|] eqn:Hs; [|done].
  exists sb. simpl in E. injection E as Em Eb. split; [done|].
  split; [done|]. split; [done|]. by apply (Ht s).
Qed.

Lemma steady_body (g g' : Game) (r : Ref) (b : Body) :
  steady g g' -> bodies g !! r = Some b ->
  exists b', bodies g' !! r = Some b' /\ constants b' = constants b.
Proof.
  intros (_ & _ & _ & Hc & _) Hb. pose proof (Hc r) as E. rewrite Hb in E.
  destruct (bodies g' !! r) as [b'|]; [|done].
  exists b'. split; [done|]. simpl in E. congruence.
Qed.

Lemma steady_mesh (g g' : Game) (r : Ref) (m : Mesh) :
  steady g g' -> meshes g !! r = Some m ->
  exists m', meshes g' !! r = Some m' /\ sphere_radius m' = sphere_radius m.
Proof.
  intros (_ & _ & _ & _ & Hc & _) Hb. pose proof (Hc r) as E. rewrite Hb in E.
  destruct (meshes g' !! r) as [m'|]; [|done].
  exists m'. split; [done|]. simpl in E. congruence.
Qed.

Lemma steady_card (g g' : Game) (cs' : CardSetup) :
  steady g g' -> cardSetup g' = Some cs' ->
  exists cs, cardSetup g = Some cs /\ card_fixed cs' = card_fixed cs.
Proof.
  intros (_ & _ & _ & _ & _ & _ & Hc & _) Hcs. rewrite Hcs in Hc.
  destruct (cardSetup g) as [cs|]; [|done].
  exists cs. split; [done|]. simpl in Hc. congruence.
Qed.

Lemma sound_steady (v : Revision) (g g' : Game) :
  steady g g' -> sound v g -> sound v g'.
Proof.
  intros Hst Hs. pose proof Hst as ((E1 & E2 & E3) & _).
  destruct Hs as [Smesh Sbody Sscene Sworld Sground Scard Sball]. constructor; rewrite ?E1, ?E2, ?E3.
  - intros s sb' Hs'. destruct (steady_back g g' s sb' Hst Hs') as (sb & Hsb & -> & _).
    eauto.
  - intros s sb' Hs'.
    destruct (steady_back g g' s sb' Hst Hs') as (sb & Hsb & _ & -> & _). eauto.
  - intros r Hr. destruct (Sscene r Hr) as (s & sb & Hsb & Em).
    destruct Hst as (_ & Hi & _). pose proof (Hi s) as E. rewrite Hsb in E.
    destruct (objects g' !! s) as [sb'|] eqn:Hs'; simpl in E; [|done].
    exists s, sb'. split; [done|]. injection E as Em' _. congruence.
  - intros r Hr. destruct (Sworld r Hr) as [?|[(cs & Hcs & Hor)|(s & sb & Hsb & Eb)]].
    + by left.
    + right; left. destruct Hst as (_ & _ & _ & _ & _ & _ & Hc & _).
      rewrite Hcs in Hc. destruct (cardSetup g') as [cs'|] eqn:Hcs'; simpl in Hc; [|done].
      exists cs'. split; [done|]. injection Hc as Ec1 Ec2 _ _. rewrite Ec1, Ec2. done.
    + right; right. destruct Hst as (_ & Hi & _). pose proof (Hi s) as E.
      rewrite Hsb in E. destruct (objects g' !! s) as [sb'|] eqn:Hs'; simpl in E; [|done].
      exists s, sb'. split; [done|]. injection E as _ Eb'. congruence.
  - destruct Sground as (Hin & b & Hb & Hc). split; [done|].
    destruct (steady_body g g' _ b Hst Hb) as (b' & Hb' & Hc').
    exists b'. split; [done|]. congruence.
  - intros cs' Hcs'. destruct (steady_card g g' cs' Hst Hcs') as (cs & Hcs & Ef).
    injection Ef as -> -> -> ->.
    destruct (Scard cs Hcs) as (I1 & I2 & cb & ab & Hcb & Ccb & Hab & Cab).
    split; [done|]. split; [done|].
    destruct (steady_body g g' _ cb Hst Hcb) as (cb' & Hcb' & Ccb').
    destruct (steady_body g g' _ ab Hst Hab) as (ab' & Hab' & Cab').
    exists cb', ab'. repeat split; congruence.
  - intros s sb' Hs'.
    destruct (steady_back g g' s sb' Hst Hs') as (sb & Hsb & -> & -> & Ht).
    destruct (Sball s sb Hsb) as (Hage & m & b & Hm & Hb & Hc).
    split; [lra|].
    destruct (steady_mesh g g' _ m Hst Hm) as (m' & Hm' & Cm').
    destruct (steady_body g g' _ b Hst Hb) as (b' & Hb' & Cb').
    exists m', b'. split; [done|]. split; [done|]. congruence.
Qed.

(** A snowball's body is none of the static bodies. *)
Lemma sound_apart (v : Revision) (g : Game) (s : Ref) (sb : Snowball) :
  wf g -> sound v g -> objects g !! s = Some sb ->
  body sb <> groundBody /\
  forall cs, cardSetup g = Some cs ->
    body sb <> cardBody cs /\ body sb <> anchorBody cs.
Proof.
  intros Hwf Hs Hsb.
  destruct (wf_objects g Hwf s sb Hsb) as (Eb & _).
  split; [unfold groundBody; lia|].
  intros cs Hcs.
  destruct (sound_ball v g Hs s sb Hsb) as (_ & m & b & _ & Hb & Hc).
  destruct (sound_card v g Hs cs Hcs) as (_ & _ & cb & ab & Hcb & Ccb & Hab & Cab).
  split; intros E; rewrite E in Hb.
  - assert (b = cb) as -> by congruence. rewrite Hc in Ccb. by injection Ccb.
  - assert (b = ab) as -> by congruence. rewrite Hc in Cab. by injection Cab.
Qed.

Lemma sound_cleanup_one (v : Revision) (g : Game) (s : Ref) :
  wf g -> sound v g -> sound v (cleanup_one g s).
Proof.
  intros Hwf Hs.
  destruct (objects g !! s) as [sb|] eqn:Hsb;
    [|unfold cleanup_one; by rewrite Hsb].
  destruct (cleanup_one_arrays g s sb Hsb) as (E1 & E2 & E3).
  destruct (cleanup_one_frame g s) as (F1 & F2 & F3 & _ & _ & F6 & _).
  destruct (wf_objects g Hwf s sb Hsb) as (Eb & Es & _).
  destruct (sound_apart v g s sb Hwf Hs Hsb) as (Ng & Ncard).
  pose proof (wf_snowballs_nodup g Hwf) as N1.
  pose proof (wf_scene_nodup g Hwf) as N2.
  pose proof (wf_world_nodup g Hwf) as N3.
  destruct Hs as [Smesh Sbody Sscene Sworld Sground Scard Sball]. constructor; rewrite ?E1, ?E2, ?E3, ?F1, ?F2, ?F3, ?F6.
  - intros s0 sb0 Hs0. rewrite !array_remove_elem by done.
    rewrite (Smesh s0 sb0 Hs0).
    destruct (wf_objects g Hwf s0 sb0 Hs0) as (Eb0 & Es0 & _).
    split; intros [? ?]; (split; [done|lia]).
  - intros s0 sb0 Hs0. rewrite !array_remove_elem by done.
    rewrite (Sbody s0 sb0 Hs0).
    destruct (wf_objects g Hwf s0 sb0 Hs0) as (Eb0 & Es0 & _).
    split; intros [? ?]; (split; [done|lia]).
  - intros r [Hr _]%array_remove_elem; auto.
  - intros r [Hr _]%array_remove_elem; auto.
  - destruct Sground as (Hin & Hb). split; [|done].
    apply array_remove_elem; [done|]. split; [done|]. congruence.
  - intros cs Hcs. destruct (Scard cs Hcs) as (I1 & I2 & Hrest).
    destruct (Ncard cs Hcs) as (N4 & N5).
    split; [apply array_remove_elem; [done|]; split; [done|congruence]|].
    split; [apply array_remove_elem; [done|]; split; [done|congruence]|].
    exact Hrest.
  - done.
Qed.

Lemma sound_cleanupPhysics (v : Revision) (g : Game) :
  wf g -> sound v g -> sound v (cleanupPhysics g).
Proof.
  intros Hwf Hs. unfold cleanupPhysics.
  assert (wf (fold_left cleanup_one (toRemove g) g) /\
          sound v (fold_left cleanup_one (toRemove g) g)) as [_ Hs'].
  { apply (fold_left_preserves (fun g0 => wf g0 /\ sound v g0)); [|done].
    intros g0 s [? ?]. split; [by apply wf_cleanup_one|by apply sound_cleanup_one]. }
  destruct Hs' as [Smesh Sbody Sscene Sworld Sground Scard Sball]. constructor; sg; assumption.
Qed.

Lemma sound_animate (v : Revision) (o : StepOutcome) (g : Game) :
  wf g -> sound v g -> sound v (fst (animate o g)).
Proof.
  intros Hwf Hs. unfold animate. cbn [fst].
  set (stepped := world_step fixedTimeStep fixedTimeStep maxSubSteps o g).
  assert (wf stepped) as Hw1 by by apply wf_world_step.
  assert (sound v stepped) as Hs1.
  { eapply sound_steady; [apply steady_world_step|done]. }
  pose proof (sound_cleanupPhysics v stepped Hw1 Hs1) as Hs2.
  destruct (step_throws o); [done|].
  eapply sound_steady; [apply steady_update_snowballs|].
  eapply sound_steady; [apply steady_sync_card|done].
Qed.

(** The aiming handlers change only the aiming fields. *)
Lemma steady_updateAimVisuals (v : Revision) (event : MouseEvent) (g : Game) :
  steady g (updateAimVisuals v event g).
Proof.
  unfold updateAimVisuals. destruct (isAiming g); cbn [negb]; [|apply steady_refl].
  cbv zeta. unfold steady, keeps_arrays, controls. sg.
  repeat split; auto. intros s sb sb' E1 E2. assert (sb = sb') as -> by congruence. lra.
Qed.

Lemma steady_startAiming (v : Revision) (event : MouseEvent) (g : Game) :
  steady g (startAiming v event g).
Proof.
  unfold startAiming. cbv zeta.
  eapply steady_trans; [|apply steady_updateAimVisuals].
  unfold steady, keeps_arrays, controls. sg.
  repeat split; auto. intros s sb sb' E1 E2. assert (sb = sb') as -> by congruence. lra.
Qed.

Lemma steady_updateAiming (v : Revision) (event : MouseEvent) (g : Game) :
  steady g (updateAiming v event g).
Proof.
  unfold updateAiming. destruct (isAiming g); cbn [negb]; [|apply steady_refl].
  eapply steady_trans; [|apply steady_updateAimVisuals].
  unfold steady, keeps_arrays, controls. sg.
  repeat split; auto. intros s sb sb' E1 E2. assert (sb = sb') as -> by congruence. lra.
Qed.

End Sound.

Section Sound2.
Context `{Three}.

Lemma sound_throwSnowball (v : Revision) (event : MouseEvent) (g : Game) :
  wf g -> sound v g -> sound v (throwSnowball v event g).
Proof.
  intros Hwf Hs. unfold throwSnowball. destruct (isAiming g); [|done].
  cbn [negb]. cbv zeta.
  set (n := next_ref g).
  assert (forall s sb, objects g !! s = Some sb ->
            (s < n)%nat /\ (mesh sb < n)%nat /\ (body sb < n)%nat) as Hold.
  { intros s sb Hsb. destruct (wf_objects g Hwf s sb Hsb) as (? & ? & ? & _).
    subst n. lia. }
  assert (forall r b, bodies g !! r = Some b -> (r < n)%nat) as Hbod.
  { intros r b Hb. apply (wf_bodies g Hwf r b Hb). }
  destruct Hs as [Smesh Sbody Sscene Sworld Sground Scard Sball].
  constructor; sg; fold n.
  - intros s sb. destruct (decide (s = S (S n))) as [->|Hne].
    + rewrite lookup_insert_eq. intros [= <-]. cbn [mesh].
      rewrite !elem_of_app, !list_elem_of_singleton. tauto.
    + rewrite lookup_insert_ne by done. intros Hsb.
      destruct (Hold s sb Hsb) as (? & ? & ?).
      rewrite !elem_of_app, !list_elem_of_singleton, (Smesh s sb Hsb).
      split; (intros [?|?]; [by left|lia]).
  - intros s sb. destruct (decide (s = S (S n))) as [->|Hne].
    + rewrite lookup_insert_eq. intros [= <-]. cbn [body].
      rewrite addBody_elem, elem_of_app, list_elem_of_singleton. tauto.
    + rewrite lookup_insert_ne by done. intros Hsb.
      destruct (Hold s sb Hsb) as (? & ? & ?).
      rewrite addBody_elem, elem_of_app, list_elem_of_singleton, (Sbody s sb Hsb).
      split; [intros [?|?]; [lia|by left]|intros [?|?]; [by right|lia]].
  - intros r [Hr| ->%list_elem_of_singleton]%elem_of_app.
    + destruct (Sscene r Hr) as (s & sb & Hsb & Em).
      exists s, sb. destruct (Hold s sb Hsb) as (? & _).
      rewrite lookup_insert_ne by lia. done.
    + eexists _, _. rewrite lookup_insert_eq. split; reflexivity.
  - intros r [->|Hr]%addBody_elem.
    + right; right. eexists _, _. rewrite lookup_insert_eq. split; reflexivity.
    + destruct (Sworld r Hr) as [?|[?|(s & sb & Hsb & Eb)]]; [by left|by right; left|].
      right; right. exists s, sb. destruct (Hold s sb Hsb) as (? & _).
      rewrite lookup_insert_ne by lia. done.
  - destruct Sground as (Hin & b & Hb & Hc).
    split; [apply addBody_elem; by right|].
    exists b. pose proof (Hbod _ _ Hb). rewrite lookup_insert_ne by lia. done.
  - intros cs Hcs. destruct (Scard cs Hcs) as (I1 & I2 & cb & ab & Hcb & Ccb & Hab & Cab).
    split; [apply addBody_elem; by right|].
    split; [apply addBody_elem; by right|].
    exists cb, ab. pose proof (Hbod _ _ Hcb). pose proof (Hbod _ _ Hab).
    rewrite !lookup_insert_ne by lia. done.
  - intros s sb. destruct (decide (s = S (S n))) as [->|Hne].
    + rewrite lookup_insert_eq. intros [= <-]. cbn [timeAlive mesh body].
      split; [lra|]. eexists _, _. rewrite !lookup_insert_eq.
      split; [reflexivity|]. split; reflexivity.
    + rewrite lookup_insert_ne by done. intros Hsb.
      destruct (Hold s sb Hsb) as (? & ? & ?).
      destruct (Sball s sb Hsb) as (Hage & m & b & Hm & Hb & Hc).
      split; [done|]. exists m, b. rewrite !lookup_insert_ne by lia. done.
Qed.

Lemma sound_setupCard_with (v : Revision) (w h : R) (half : Vec3) (cw ch : nat)
    (p a : Vec3) (g : Game) :
  half = mkVec3 (w / 2) (h / 2) 0.1 -> cardSetup g = None ->
  wf g -> sound v g -> sound v (setupCard_with w h half cw ch p a g).
Proof.
  intros -> Hnone Hwf Hs. unfold setupCard_with. cbv zeta.
  set (n := next_ref g).
  assert (forall s sb, objects g !! s = Some sb ->
            (s < n)%nat /\ (mesh sb < n)%nat /\ (body sb < n)%nat) as Hold.
  { intros s sb Hsb. destruct (wf_objects g Hwf s sb Hsb) as (? & ? & ? & _).
    subst n. lia. }
  assert (forall r b, bodies g !! r = Some b -> (r < n)%nat) as Hbod.
  { intros r b Hb. apply (wf_bodies g Hwf r b Hb). }
  destruct Hs as [Smesh Sbody Sscene Sworld Sground Scard Sball].
  constructor; sg; fold n.
  - exact Smesh.
  - intros s sb Hsb. destruct (Hold s sb Hsb) as (? & ? & ?).
    rewrite !addBody_elem, (Sbody s sb Hsb).
    split; [intros [?|[?|?]]; [lia|lia|done]|intros ?; by right; right].
  - exact Sscene.
  - intros r [->|[->|Hr]%addBody_elem]%addBody_elem.
    + right; left. eexists. split; [reflexivity|]. by right.
    + right; left. eexists. split; [reflexivity|]. by left.
    + destruct (Sworld r Hr) as [?|[(cs & Hcs & _)|?]];
        [by left|congruence|by right; right].
  - destruct Sground as (Hin & b & Hb & Hc).
    split; [apply addBody_elem; right; apply addBody_elem; by right|].
    exists b. pose proof (Hbod _ _ Hb). rewrite !lookup_insert_ne by lia. done.
  - intros cs [= <-]. cbn [cardBody anchorBody card geometry_width geometry_height].
    split; [apply addBody_elem; right; apply addBody_elem; by left|].
    split; [apply addBody_elem; by left|].
    eexists _, _. rewrite lookup_insert_ne by lia. rewrite !lookup_insert_eq.
    split; [reflexivity|]. split; [reflexivity|]. split; reflexivity.
  - intros s sb Hsb. destruct (Hold s sb Hsb) as (? & ? & ?).
    destruct (Sball s sb Hsb) as (Hage & m & b & Hm & Hb & Hc).
    split; [done|]. exists m, b. rewrite !lookup_insert_ne by lia. done.
Qed.

Lemma sound_initPhysics (v : Revision) (rect : DOMRect) (size : R) :
  sound v (initPhysics v (empty_game rect size)).
Proof.
  unfold initPhysics, empty_game. cbv zeta. constructor; sg.
  - intros s sb Hs. by rewrite lookup_empty in Hs.
  - intros s sb Hs. by rewrite lookup_empty in Hs.
  - intros r Hr. by apply elem_of_nil in Hr.
  - intros r Hr. left. unfold addBody, set_add in Hr. simpl in Hr.
    by apply list_elem_of_singleton in Hr.
  - split; [apply addBody_elem; by left|].
    eexists. unfold groundBody. rewrite lookup_insert_eq. split; reflexivity.
  - done.
  - intros s sb Hs. by rewrite lookup_empty in Hs.
Qed.

Lemma sound_constructor (v : Revision) (rect : DOMRect) (size : R) :
  sound v (constructor v rect size).
Proof.
  unfold constructor. pose proof (sound_initPhysics v rect size) as Hs.
  pose proof (wf_initPhysics v rect size) as Hwf.
  destruct v; [|exact Hs].
  apply (sound_setupCard_with game_js); try done. f_equal; lra.
Qed.

Lemma sound_handle (v : Revision) (g : Game) (i : Input) :
  wf g -> sound v g -> sound v (handle v g i).
Proof.
  intros Hwf Hs. destruct i; cbn [handle].
  - eapply sound_steady; [apply steady_startAiming|done].
  - eapply sound_steady; [apply steady_updateAiming|done].
  - by apply sound_throwSnowball.
  - destruct Hs as [Smesh Sbody Sscene Sworld Sground Scard Sball].
    constructor; unfold powerInput; sg; assumption.
  - destruct Hs as [Smesh Sbody Sscene Sworld Sground Scard Sball].
    constructor; sg; assumption.
  - destruct Hs as [Smesh Sbody Sscene Sworld Sground Scard Sball].
    constructor; sg; assumption.
  - destruct v; [done|]. destruct (cardSetup g) eqn:Hcs; [done|].
    unfold setupCard_part_000. cbv zeta. by apply (sound_setupCard_with part_000).
  - by apply sound_animate.
Qed.

Lemma reachable_sound (v : Revision) (g : Game) : reachable v g -> sound v g.
Proof.
  induction 1 as [rect size|g i Hr IH].
  - apply sound_constructor.
  - apply sound_handle; [by apply (reachable_wf v)|done].
Qed.

End Sound2.

(** ** The lifetime of a snowball *)

Section Lifetime.
Context `{Three}.

(** A snowball that survives a frame whose step returns has aged by at
    least 1/60, and is marked unless its new age is at most 5. *)
Lemma animate_ages (v : Revision) (o : StepOutcome) (g : Game) (s : Ref)
    (sb : Snowball) :
  reachable v g -> step_throws o = false ->
  objects g !! s = Some sb -> s ∈ snowballs (fst (animate o g)) ->
  exists sb',
    objects (fst (animate o g)) !! s = Some sb' /\
    timeAlive sb + 1 / 60 <= timeAlive sb' /\
    (s ∉ toRemove (fst (animate o g)) -> timeAlive sb' <= 5).
Proof.
  intros Hreach Ho Hsb Hin.
  pose proof (reachable_wf v g Hreach) as Hwf.
  pose proof (reachable_sound v g Hreach) as Hs.
  set (stepped := world_step fixedTimeStep fixedTimeStep maxSubSteps o g).
  set (g1 := sync_card (cleanupPhysics stepped)).
  destruct (before_update o g Hwf) as (Hwf1 & _ & _ & Eo & _).
  fold stepped in Hwf1, Eo. fold g1 in Hwf1, Eo.
  assert (wf stepped) as Hw1 by by apply wf_world_step.
  assert (sound v g1) as Hs1.
  { eapply sound_steady; [apply steady_sync_card|].
    apply sound_cleanupPhysics; [done|].
    eapply sound_steady; [apply steady_world_step|done]. }
  assert (fst (animate o g) = update_snowballs g1) as Hg'.
  { subst g1 stepped. by apply animate_no_throw. }
  assert (s ∈ snowballs g1) as Hin1.
  { destruct (update_snowballs_frame g1) as ((E1 & _) & _).
    rewrite Hg', E1 in Hin. exact Hin. }
  pose proof (steady_world_step fixedTimeStep fixedTimeStep maxSubSteps o g) as Hst.
  fold stepped in Hst.
  assert (exists sb1, objects g1 !! s = Some sb1 /\ timeAlive sb <= timeAlive sb1)
    as (sb1 & Hsb1 & Hle).
  { rewrite Eo. destruct Hst as (_ & Hi & Ht & _).
    pose proof (Hi s) as E. rewrite Hsb in E.
    destruct (objects stepped !! s) as [sb1|] eqn:Hs1'; simpl in E; [|done].
    exists sb1. split; [done|]. by apply (Ht s). }
  destruct (wf_objects g1 Hwf1 s sb1 Hsb1) as (_ & _ & _ & _ & [b Hb]).
  assert (body sb1 ∈ world_bodies g1) as Hw.
  { by apply (sound_body v g1 Hs1 s sb1 Hsb1). }
  pose proof (animate_updates v o g s sb1 b Hreach Ho Hin1 Hsb1 Hb Hw) as HH.
  cbv zeta in HH. destruct HH as (_ & Ho' & _ & _ & Hiff & _).
  eexists. split; [exact Ho'|]. cbn [timeAlive]. split; [lra|].
  intros Hn. destruct (Rle_dec (timeAlive sb1 + 1 / 60) 5) as [?|Hgt]; [done|].
  destruct Hn. apply Hiff. left. lra.
Qed.

(** Inputs other than frames leave the snowballs that exist alone. *)
Lemma handle_leaves (v : Revision) (g : Game) (i : Input) (s : Ref) (sb : Snowball) :
  wf g -> (forall o, i <> AnimationFrame o) -> objects g !! s = Some sb ->
  toRemove (handle v g i) = toRemove g /\
  objects (handle v g i) !! s = Some sb.
Proof.
  intros Hwf Hi Hsb. destruct i; cbn [handle].
  - unfold startAiming, updateAimVisuals. by sg.
  - unfold updateAiming, updateAimVisuals. destruct (isAiming g) eqn:Ha; sg;
      [rewrite Ha|]; done.
  - unfold throwSnowball. destruct (isAiming g); [|done].
    cbn [negb]. cbv zeta. sg. split; [done|].
    destruct (wf_objects g Hwf s sb Hsb) as (_ & _ & Hlt & _).
    rewrite lookup_insert_ne by lia. done.
  - done.
  - done.
  - done.
  - destruct v; [done|]. destruct (cardSetup g); [done|].
    unfold setupCard_part_000, setupCard_with. cbv zeta. by sg.
  - by destruct (Hi o).
Qed.

(** Once an allocated snowball is out of the list, it stays out. *)
Lemma run_gone (v : Revision) (inputs : list Input) (g : Game) (s : Ref) :
  (s < next_ref g)%nat -> s ∉ snowballs g -> s ∉ snowballs (run v g inputs).
Proof.
  revert g. induction inputs as [|i t IH]; intros g Hlt Hn; [done|].
  change (run v g (i :: t)) with (run v (handle v g i) t).
  destruct (handle_arrays v g i s) as (Hle & Hs & _).
  apply IH; [lia|]. intros [?|?]%Hs; [done|lia].
Qed.

Lemma run_marked (v : Revision) (inputs : list Input) (g : Game) (s : Ref) :
  reachable v g -> s ∈ toRemove g -> (1 <= frames inputs)%nat ->
  s ∉ snowballs (run v g inputs).
Proof.
  revert g. induction inputs as [|i t IH]; intros g Hreach Hin Hfr; [simpl in Hfr; lia|].
  change (run v g (i :: t)) with (run v (handle v g i) t).
  pose proof (reachable_wf v g Hreach) as Hwf.
  destruct (wf_toRemove g Hwf s Hin) as [sb Hsb].
  destruct (wf_objects g Hwf s sb Hsb) as (_ & _ & Hlt & _).
  assert ((forall o, i <> AnimationFrame o) \/ exists o, i = AnimationFrame o) as [Hi|[o ->]].
  { destruct i; try (left; intros; discriminate). right. by eexists. }
  - destruct (handle_leaves v g i s sb Hwf Hi Hsb) as (Et & _).
    apply IH; [by apply reachable_step|by rewrite Et|].
    destruct i; try exact Hfr. by destruct (Hi o).
  - cbn [handle]. destruct (animate_removes o g s sb Hwf Hin Hsb) as (Hn & _).
    apply run_gone; [|done].
    destruct (handle_arrays v g (AnimationFrame o) s) as (Hle & _).
    cbn [handle] in Hle. lia.
Qed.

Lemma run_expires (v : Revision) (inputs : list Input) (g : Game) (s : Ref)
    (sb : Snowball) :
  reachable v g -> Forall returns inputs ->
  objects g !! s = Some sb ->
  Rmax 0 ((5 - timeAlive sb) * 60) + 1 < INR (frames inputs) ->
  s ∉ snowballs (run v g inputs).
Proof.
  revert g sb. induction inputs as [|i t IH]; intros g sb Hreach Hret Hsb Hfr.
  { simpl in Hfr. pose proof (Rmax_l 0 ((5 - timeAlive sb) * 60)). lra. }
  change (run v g (i :: t)) with (run v (handle v g i) t).
  pose proof (reachable_wf v g Hreach) as Hwf.
  destruct (wf_objects g Hwf s sb Hsb) as (_ & _ & Hlt & _).
  apply Forall_cons in Hret as [Hi Hret].
  assert ((forall o, i <> AnimationFrame o) \/ exists o, i = AnimationFrame o) as [Hn|[o ->]].
  { destruct i; try (left; intros; discriminate). right. by eexists. }
  - destruct (handle_leaves v g i s sb Hwf Hn Hsb) as (_ & Ho).
    apply (IH _ sb); [by apply reachable_step|done|done|].
    destruct i; try exact Hfr. by destruct (Hn o).
  - cbn [returns] in Hi. cbn [frames] in Hfr. rewrite S_INR in Hfr.
    destruct (decide (s ∈ snowballs (handle v g (AnimationFrame o)))) as [Hin|Hout].
    + cbn [handle] in Hin.
      destruct (animate_ages v o g s sb Hreach Hi Hsb Hin) as (sb' & Hsb' & Hage & Hle).
      pose proof (Rmax_l 0 ((5 - timeAlive sb) * 60)) as M1.
      pose proof (Rmax_r 0 ((5 - timeAlive sb) * 60)) as M2.
      destruct (decide (s ∈ toRemove (fst (animate o g)))) as [Hm|Hm].
      * apply run_marked; [by apply reachable_step|exact Hm|].
        apply INR_lt. simpl. lra.
      * apply (IH _ sb'); [by apply reachable_step|done|exact Hsb'|].
        specialize (Hle Hm).
        rewrite Rmax_right by lra. lra.
    + apply run_gone; [|done].
      destruct (handle_arrays v g (AnimationFrame o) s) as (Hle & _). lia.
Qed.

(** X3: a snowball is despawned at the latest in the 302nd frame.  From any
    reachable state, after inputs that hold at least 302 frames, each with
    a physics step that returns, a snowball that was in the list is out of
    it (whatever the mouse and the sliders did in between). *)
Theorem snowball_is_gone_after_302_frames (v : Revision) (g : Game) (s : Ref) (inputs : list Input) :
  reachable v g -> s ∈ snowballs g ->
  Forall returns inputs -> (302 <= frames inputs)%nat ->
  s ∉ snowballs (run v g inputs).
Proof.
  intros Hreach Hin Hret Hfr.
  pose proof (reachable_wf v g Hreach) as Hwf.
  destruct (wf_snowballs g Hwf s Hin) as [sb Hsb].
  destruct (sound_ball v g (reachable_sound v g Hreach) s sb Hsb) as (H0 & _).
  apply (run_expires v inputs g s sb Hreach Hret Hsb).
  apply le_INR in Hfr.
  assert (INR 302 = 302) as E by (rewrite INR_IZR_INZ; reflexivity).
  rewrite E in Hfr.
  assert (Rmax 0 ((5 - timeAlive sb) * 60) <= 300).
  { apply Rmax_lub; lra. }
  lra.
Qed.

End Lifetime.

(** ** The snowballs between two handlers *)

Section Rested.
Context `{Three}.

Lemma marked_dispatchEvent (g : Game) (e : CollideEvent) :
  marked g -> marked (dispatchEvent g e).
Proof.
  intros Hm.
  destruct (dispatchEvent_cases g e)
    as [->|(s0 & sb0 & cs & cb & _ & Hs0 & Hcs & _ & _ & _ & ->)]; [done|].
  unfold on_card_hit. cbv zeta. intros s sb. sg.
  rewrite set_add_elem. intros Hin.
  destruct (decide (s = s0)) as [->|Hne].
  - intros _. split; [by left|]. intros Hn. destruct Hn. by left.
  - rewrite lookup_insert_ne by done. intros Hsb.
    destruct (Hm s sb Hin Hsb) as (M1 & M2).
    split; [intros Hc; right; auto|]. intros Hn. apply M2. intros Hr. apply Hn. by right.
Qed.

Lemma marked_internalStep (g : Game) (s : Substep) :
  marked g -> marked (internalStep g s).
Proof.
  intros Hm. unfold internalStep.
  assert (marked (fold_left dispatchEvent (collisions s) g)) as Hm'.
  { apply fold_left_preserves; [|done]. intros g0 e. apply marked_dispatchEvent. }
  exact Hm'.
Qed.

Lemma marked_world_step (dt t : R) (n : nat) (o : StepOutcome) (g : Game) :
  marked g -> marked (world_step dt t n o g).
Proof.
  intros Hm. unfold world_step. apply fold_left_preserves; [|done].
  intros g0 s. apply marked_internalStep.
Qed.

Lemma rested_marked (g : Game) : rested g -> marked g.
Proof.
  intros [_ Hf] s sb Hin Hsb. destruct (Hf s sb Hin Hsb) as (Hc & Ht).
  split; [congruence|done].
Qed.

(** After [cleanupPhysics] nothing is pending and the list is fresh. *)
Lemma rested_cleanupPhysics (g : Game) :
  wf g -> marked g -> rested (cleanupPhysics g) /\ toRemove (cleanupPhysics g) = [].
Proof.
  intros Hwf Hm. split; [|reflexivity]. constructor.
  - intros s Hs. by apply elem_of_nil in Hs.
  - intros s sb [Hin Hn]%cleanupPhysics_snowballs Hsb; [|done].
    destruct (cleanupPhysics_frame g) as (Eo & _). rewrite Eo in Hsb.
    destruct (Hm s sb Hin Hsb) as (M1 & M2).
    split; [|intros _; by apply M2].
    destruct (isCollided sb); [|done]. destruct Hn. by apply M1.
Qed.

Lemma update_snowball_pending (g : Game) (x s : Ref) :
  s ∈ toRemove (update_snowball g x) -> s ∈ toRemove g \/ s = x.
Proof.
  destruct (update_snowball_cases g x)
    as [->|(sb & b & m & _ & _ & _ & _ & _ & ->)]; [by left|].
  destruct (expired (age sb) b); sg; [|by left].
  intros [->|?]%set_add_elem; [by right|by left].
Qed.

Lemma update_loop_pending (l : list Ref) (g : Game) (s : Ref) :
  s ∈ toRemove (fold_left update_snowball l g) -> s ∈ toRemove g \/ s ∈ l.
Proof.
  revert g. induction l as [|x t IH]; intros g; simpl; [by left|].
  intros [[?| ->]%update_snowball_pending|?]%IH.
  - by left.
  - right. apply list_elem_of_here.
  - right. by apply list_elem_of_further.
Qed.

Lemma update_snowball_collided (g : Game) (x s : Ref) :
  isCollided <$> objects (update_snowball g x) !! s = isCollided <$> objects g !! s.
Proof.
  destruct (update_snowball_cases g x)
    as [->|(sb & b & m & Hsb & _ & _ & _ & _ & ->)]; [done|].
  assert (isCollided <$> <[x := age sb]> (objects g) !! s
          = isCollided <$> objects g !! s) as E.
  { destruct (decide (s = x)) as [->|Hne].
    - by rewrite lookup_insert_eq, Hsb.
    - by rewrite lookup_insert_ne. }
  by destruct (expired (age sb) b); sg.
Qed.

Lemma update_loop_collided (l : list Ref) (g : Game) (s : Ref) :
  isCollided <$> objects (fold_left update_snowball l g) !! s
  = isCollided <$> objects g !! s.
Proof.
  revert g. induction l as [|x t IH]; intros g; simpl; [done|].
  by rewrite IH, update_snowball_collided.
Qed.

Lemma rested_animate (v : Revision) (o : StepOutcome) (g : Game) :
  reachable v g -> rested g -> rested (fst (animate o g)).
Proof.
  intros Hreach Hr.
  pose proof (reachable_wf v g Hreach) as Hwf.
  set (stepped := world_step fixedTimeStep fixedTimeStep maxSubSteps o g).
  assert (wf stepped) as Hw1 by by apply wf_world_step.
  assert (marked stepped) as Hm1 by by apply marked_world_step, rested_marked.
  destruct (rested_cleanupPhysics stepped Hw1 Hm1) as (Hr2 & He2).
  destruct (step_throws o) eqn:Ho.
  { unfold animate. rewrite Ho. exact Hr2. }
  rewrite (animate_no_throw o g Ho). fold stepped.
  set (g1 := sync_card (cleanupPhysics stepped)).
  destruct (sync_card_frame (cleanupPhysics stepped)) as ((S1 & _) & S2 & _ & _ & S5 & _).
  fold g1 in S1, S2, S5.
  destruct (update_snowballs_frame g1) as ((U1 & _) & _).
  constructor.
  - intros s Hs. rewrite U1. unfold update_snowballs in Hs.
    apply update_loop_pending in Hs as [Hs|Hs].
    + rewrite S5, He2 in Hs. by apply elem_of_nil in Hs.
    + by apply elem_of_reverse.
  - intros s sb' Hin Hsb'. split.
    + pose proof (update_loop_collided (reverse (snowballs g1)) g1 s) as E.
      fold (update_snowballs g1) in E. rewrite Hsb', S2 in E.
      rewrite U1, S1 in Hin.
      destruct (objects (cleanupPhysics stepped) !! s) as [sb|] eqn:Hsb;
        simpl in E; [|done].
      destruct (rested_fresh _ Hr2 s sb Hin Hsb) as (Hc & _). congruence.
    + intros Hn.
      assert (s ∈ snowballs (fst (animate o g))) as Hin'.
      { rewrite (animate_no_throw o g Ho). exact Hin. }
      assert (is_Some (objects g !! s)) as [sb Hsb].
      { destruct (steady_world_step fixedTimeStep fixedTimeStep maxSubSteps o g)
          as ((E1 & _) & _).
        fold stepped in E1.
        apply (wf_snowballs g Hwf). rewrite <- E1.
        rewrite U1, S1 in Hin.
        by apply cleanupPhysics_snowballs in Hin as [? _]. }
      destruct (animate_ages v o g s sb Hreach Ho Hsb Hin') as (sb2 & Hsb2 & _ & Hle).
      rewrite (animate_no_throw o g Ho) in Hsb2, Hle. fold stepped in Hsb2, Hle.
      fold g1 in Hsb2, Hle.
      assert (sb2 = sb') as -> by congruence. by apply Hle.
Qed.

Lemma rested_same (g g' : Game) :
  snowballs g' = snowballs g -> toRemove g' = toRemove g ->
  objects g' = objects g -> rested g -> rested g'.
Proof.
  intros E1 E2 E3 [Hp Hf]. constructor; rewrite ?E1, ?E2, ?E3; assumption.
Qed.

Lemma rested_handle (v : Revision) (g : Game) (i : Input) :
  reachable v g -> rested g -> rested (handle v g i).
Proof.
  intros Hreach Hr. pose proof (reachable_wf v g Hreach) as Hwf.
  destruct i; cbn [handle].
  - apply (rested_same g); [..|done]; unfold startAiming, updateAimVisuals; by sg.
  - apply (rested_same g); [..|done]; unfold updateAiming, updateAimVisuals;
      destruct (isAiming g) eqn:Ha; sg; rewrite ?Ha; done.
  - unfold throwSnowball. destruct (isAiming g); [|done].
    cbn [negb]. cbv zeta. destruct Hr as [Hp Hf]. constructor; sg.
    + intros s Hs. apply elem_of_app. left. auto.
    + intros s sb Hin.
      destruct (decide (s = S (S (next_ref g)))) as [->|Hne].
      * rewrite lookup_insert_eq. intros [= <-]. simpl. split; [done|]. intros _. lra.
      * rewrite lookup_insert_ne by done.
        apply elem_of_app in Hin as [Hin| ->%list_elem_of_singleton]; [|done].
        by apply Hf.
  - by apply (rested_same g).
  - by apply (rested_same g).
  - by apply (rested_same g).
  - destruct v; [done|]. destruct (cardSetup g); [done|].
    apply (rested_same g); [..|done]; unfold setupCard_part_000, setupCard_with;
      cbv zeta; by sg.
  - by apply (rested_animate v).
Qed.

Lemma rested_constructor (v : Revision) (rect : DOMRect) (size : R) :
  rested (constructor v rect size).
Proof.
  constructor.
  - intros s Hs. destruct v; by apply elem_of_nil in Hs.
  - intros s sb Hs. destruct v; by apply elem_of_nil in Hs.
Qed.

Lemma reachable_rested (v : Revision) (g : Game) : reachable v g -> rested g.
Proof.
  induction 1 as [rect size|g i Hr IH].
  - apply rested_constructor.
  - by apply (rested_handle v).
Qed.

End Rested.

(** ** The mouse button and the sliders *)

Section Panel.
Context `{Three}.

Lemma ui_fold {A : Type} (f : Game -> A -> Game) (l : list A) (g : Game) :
  (forall g0 a, ui (f g0 a) = ui g0) -> ui (fold_left f l g) = ui g.
Proof.
  intros Hf. apply (fold_left_preserves (fun g0 => ui g0 = ui g)); [|done].
  intros g0 a <-. apply Hf.
Qed.

Lemma ui_dispatchEvent (g : Game) (e : CollideEvent) : ui (dispatchEvent g e) = ui g.
Proof.
  destruct (dispatchEvent_cases g e)
    as [->|(s & sb & cs & cb & _ & _ & _ & _ & _ & _ & ->)]; [done|].
  reflexivity.
Qed.

Lemma ui_world_step (dt t : R) (n : nat) (o : StepOutcome) (g : Game) :
  ui (world_step dt t n o g) = ui g.
Proof.
  unfold world_step. apply ui_fold. intros g0 s. unfold internalStep.
  change (ui (integrate (motion s) (fold_left dispatchEvent (collisions s) g0)))
    with (ui (fold_left dispatchEvent (collisions s) g0)).
  apply ui_fold. apply ui_dispatchEvent.
Qed.

Lemma ui_cleanup_one (g : Game) (s : Ref) : ui (cleanup_one g s) = ui g.
Proof.
  unfold cleanup_one. destruct (objects g !! s) as [sb|]; [|done]. cbv zeta.
  destruct (includes _ _); destruct (_ >? _)%Z; reflexivity.
Qed.

Lemma ui_cleanupPhysics (g : Game) : ui (cleanupPhysics g) = ui g.
Proof.
  unfold cleanupPhysics.
  change (ui (set_toRemove [] (fold_left cleanup_one (toRemove g) g)))
    with (ui (fold_left cleanup_one (toRemove g) g)).
  apply ui_fold. apply ui_cleanup_one.
Qed.

Lemma ui_sync_card (g : Game) : ui (sync_card g) = ui g.
Proof. by destruct (sync_card_cases g) as [->|(cs & cb & _ & _ & ->)]. Qed.

Lemma ui_update_snowballs (g : Game) : ui (update_snowballs g) = ui g.
Proof.
  unfold update_snowballs. apply ui_fold. intros g0 s.
  destruct (update_snowball_cases g0 s)
    as [->|(sb & b & m & _ & _ & _ & _ & _ & ->)]; [done|].
  by destruct (expired (age sb) b).
Qed.

(** A frame reads and writes nothing of the input state. *)
Lemma ui_animate (o : StepOutcome) (g : Game) : ui (fst (animate o g)) = ui g.
Proof.
  unfold animate. cbn [fst]. destruct (step_throws o).
  - by rewrite ui_cleanupPhysics, ui_world_step.
  - by rewrite ui_update_snowballs, ui_sync_card, ui_cleanupPhysics, ui_world_step.
Qed.

Lemma isAiming_startAiming (v : Revision) (e : MouseEvent) (g : Game) :
  isAiming (startAiming v e g) = true /\
  exists tip, aimLine (startAiming v e g) = [cannon_position g; tip] /\
  cannon_position (startAiming v e g) = cannon_position g.
Proof. unfold startAiming, updateAimVisuals. sg. split; [done|]. by eexists. Qed.

Lemma handle_held (v : Revision) (g : Game) (i : Input) :
  isAiming (handle v g i) = held (isAiming g) [i].
Proof.
  destruct i; cbn [handle held].
  - apply isAiming_startAiming.
  - unfold updateAiming, updateAimVisuals. destruct (isAiming g) eqn:Ha; sg;
      rewrite ?Ha; done.
  - unfold throwSnowball. by destruct (isAiming g) eqn:Ha.
  - done.
  - done.
  - done.
  - destruct v; [done|]. by destruct (cardSetup g).
  - pose proof (ui_animate o g) as E. unfold ui in E. by injection E.
Qed.

Lemma held_app (b : bool) (l1 l2 : list Input) :
  held b (l1 ++ l2) = held (held b l1) l2.
Proof. revert b. induction l1 as [|i t IH]; intros b; [done|]. by destruct i; simpl. Qed.

Lemma run_held (v : Revision) (inputs : list Input) (g : Game) :
  isAiming (run v g inputs) = held (isAiming g) inputs.
Proof.
  revert g. induction inputs as [|i t IH]; intros g; [done|].
  change (run v g (i :: t)) with (run v (handle v g i) t).
  rewrite IH, handle_held. change (i :: t) with ([i] ++ t). by rewrite held_app.
Qed.

Lemma aim_shown_ui (g g' : Game) : ui g' = ui g -> aim_shown g -> aim_shown g'.
Proof.
  intros E. unfold ui in E. injection E as E1 E2 E3 _ _ _ _ _ _ _ _.
  unfold aim_shown. by rewrite E1, E2, E3.
Qed.

Lemma aim_shown_updateAimVisuals (v : Revision) (e : MouseEvent) (g : Game) :
  aim_shown g -> aim_shown (updateAimVisuals v e g).
Proof.
  intros [Hc Ha]. unfold updateAimVisuals. destruct (isAiming g) eqn:Hi; cbn [negb].
  - cbv zeta. unfold aim_shown. sg. rewrite Hi. split; [done|]. by eexists.
  - unfold aim_shown. by rewrite Hi.
Qed.

Lemma aim_shown_handle (v : Revision) (g : Game) (i : Input) :
  aim_shown g -> aim_shown (handle v g i).
Proof.
  intros Hs. destruct i; cbn [handle].
  - destruct Hs as [Hc _].
    destruct (isAiming_startAiming v event g) as (Ha & tip & Hl & Hp).
    unfold aim_shown. rewrite Ha, Hl, Hp. split; [done|]. by eexists.
  - unfold updateAiming. destruct (isAiming g) eqn:Hi; cbn [negb]; [|done].
    apply aim_shown_updateAimVisuals. destruct Hs as [Hc Ha]. rewrite Hi in Ha.
    unfold aim_shown. sg. by rewrite Hi.
  - unfold throwSnowball. destruct (isAiming g); [|done].
    cbn [negb]. cbv zeta. destruct Hs as [Hc _]. unfold aim_shown. by sg.
  - done.
  - done.
  - done.
  - destruct v; [done|]. by destruct (cardSetup g).
  - apply (aim_shown_ui g); [apply ui_animate|done].
Qed.

Lemma reachable_aim_shown (v : Revision) (g : Game) : reachable v g -> aim_shown g.
Proof.
  induction 1 as [rect size|g i Hr IH].
  - by destruct v.
  - by apply aim_shown_handle.
Qed.

(** *** The sliders *)

Lemma ranged_steady (v : Revision) (g g' : Game) :
  steady g g' -> ranged v g -> ranged v g'.
Proof.
  intros (_ & _ & _ & _ & Hm & _ & _ & Hc) (R1 & R2 & R3 & R4).
  unfold controls in Hc. injection Hc as E1 E2 E3.
  unfold ranged. rewrite E1, E2, E3.
  split; [done|]. split; [done|]. split; [done|].
  intros r m' Hm'. pose proof (Hm r) as E. rewrite Hm' in E.
  destruct (meshes g !! r) as [m|] eqn:Hmr; simpl in E; [|done].
  injection E as ->. by apply (R4 r).
Qed.

Lemma ranged_cleanupPhysics (v : Revision) (g : Game) :
  ranged v g -> ranged v (cleanupPhysics g).
Proof.
  intros (R1 & R2 & R3 & R4).
  pose proof (ui_cleanupPhysics g) as E. unfold ui in E.
  injection E as _ _ _ _ _ _ _ E1 E2 E3 _.
  destruct (cleanup_loop_frame g (toRemove g)) as (_ & Em & _).
  unfold ranged, cleanupPhysics. sg. by rewrite E1, E2, E3, Em.
Qed.

Lemma ranged_handle (v : Revision) (g : Game) (i : Input) :
  in_range i -> ranged v g -> ranged v (handle v g i).
Proof.
  intros Hi Hr. destruct i; cbn [handle].
  - eapply ranged_steady; [apply steady_startAiming|done].
  - eapply ranged_steady; [apply steady_updateAiming|done].
  - unfold throwSnowball. destruct (isAiming g); [|done].
    cbn [negb]. cbv zeta. destruct Hr as (R1 & R2 & R3 & R4).
    unfold ranged. sg. split; [done|]. split; [done|]. split; [done|].
    intros r m. destruct (decide (r = next_ref g)) as [->|Hne].
    + rewrite lookup_insert_eq. intros [= <-]. cbn [sphere_radius].
      unfold snowballSize. sg. destruct v; simpl; lra.
    + rewrite lookup_insert_ne by done. apply R4.
  - destruct Hr as (R1 & R2 & R3 & R4). cbn [in_range] in Hi.
    unfold ranged, powerInput. sg. rewrite R1.
    split; [done|]. split; [lra|]. done.
  - destruct Hr as (R1 & R2 & R3 & R4). cbn [in_range] in Hi.
    unfold ranged. by sg.
  - done.
  - destruct v; [done|]. destruct (cardSetup g); [done|].
    destruct Hr as (R1 & R2 & R3 & R4).
    unfold setupCard_part_000, setupCard_with. cbv zeta. unfold ranged. by sg.
  - unfold animate. cbn [fst].
    set (stepped := world_step fixedTimeStep fixedTimeStep maxSubSteps o g).
    assert (ranged v (cleanupPhysics stepped)) as Hr2.
    { apply ranged_cleanupPhysics.
      eapply ranged_steady; [apply steady_world_step|done]. }
    destruct (step_throws o); [done|].
    eapply ranged_steady; [apply steady_update_snowballs|].
    eapply ranged_steady; [apply steady_sync_card|done].
Qed.

Lemma ranged_constructor (v : Revision) (rect : DOMRect) (size : R) :
  1 <= size <= 5 -> ranged v (constructor v rect size).
Proof.
  intros Hs. unfold ranged.
  destruct v; (split; [reflexivity|]; split; [simpl; lra|]; split; [exact Hs|]);
    intros r m Hm;
    cbv [constructor initPhysics setupCard_game_js setupCard_with empty_game] in Hm;
    sg; by rewrite lookup_empty in Hm.
Qed.

Lemma ranged_run (v : Revision) (inputs : list Input) (g : Game) :
  Forall in_range inputs -> ranged v g -> ranged v (run v g inputs).
Proof.
  revert g. induction inputs as [|i t IH]; intros g Hin Hr; [done|].
  apply Forall_cons in Hin as [Hi Hin].
  change (run v g (i :: t)) with (run v (handle v g i) t).
  apply IH; [done|]. by apply ranged_handle.
Qed.

End Panel.

(** ** The snow canvases over a run *)

Section CardInvariant.
Context `{Three}.

(** A property of the card that [addSnowSplat], the pose update and
    [setupCard] keep is kept by every handler. *)
Variable Q : option CardSetup -> Prop.
Variable ok : nat -> nat -> Prop.
Hypothesis Q_splat : forall random p normal cs,
  Q (Some cs) -> Q (Some (addSnowSplat random p normal cs)).
Hypothesis Q_pose : forall cm cs,
  geometry_width cm = geometry_width (card cs) ->
  geometry_height cm = geometry_height (card cs) ->
  Q (Some cs) -> Q (Some (set_card cm cs)).
Hypothesis Q_setup : forall imageWidth imageHeight p b a,
  ok imageWidth imageHeight -> Q None ->
  Q (Some (mkCardSetup
             (mkCardMesh 4 (4 * (INR imageHeight / INR imageWidth)) p quat_identity)
             b a (new_snow_canvas imageWidth imageHeight)
             (new_snow_canvas imageWidth imageHeight) (mkTexture 1) (mkTexture 1))).

Lemma card_inv_dispatchEvent (g : Game) (e : CollideEvent) :
  Q (cardSetup g) -> Q (cardSetup (dispatchEvent g e)).
Proof.
  destruct (dispatchEvent_cases g e)
    as [->|(s & sb & cs & cb & _ & _ & Hcs & _ & _ & _ & ->)]; [done|].
  rewrite Hcs. unfold on_card_hit. cbv zeta. sg. apply Q_splat.
Qed.

Lemma card_inv_world_step (dt t : R) (n : nat) (o : StepOutcome) (g : Game) :
  Q (cardSetup g) -> Q (cardSetup (world_step dt t n o g)).
Proof.
  unfold world_step.
  apply (fold_left_preserves (fun g0 => Q (cardSetup g0))).
  intros g0 s Hg0. unfold internalStep.
  change (Q (cardSetup (fold_left dispatchEvent (collisions s) g0))).
  apply (fold_left_preserves (fun g1 => Q (cardSetup g1))); [|done].
  intros g1 e. apply card_inv_dispatchEvent.
Qed.

Lemma card_inv_animate (o : StepOutcome) (g : Game) :
  Q (cardSetup g) -> Q (cardSetup (fst (animate o g))).
Proof.
  intros Hq. unfold animate. cbn [fst].
  set (stepped := world_step fixedTimeStep fixedTimeStep maxSubSteps o g).
  assert (Q (cardSetup (cleanupPhysics stepped))) as H2.
  { destruct (cleanupPhysics_frame stepped) as (_ & _ & _ & _ & _ & -> & _).
    by apply card_inv_world_step. }
  destruct (step_throws o); [done|].
  destruct (update_snowballs_frame (sync_card (cleanupPhysics stepped)))
    as (_ & _ & _ & _ & _ & -> & _).
  destruct (sync_card_cases (cleanupPhysics stepped))
    as [->|(cs & cb & Hcs & _ & ->)]; [done|].
  sg. apply Q_pose; [done|done|]. by rewrite <- Hcs.
Qed.

Lemma card_inv_handle (v : Revision) (g : Game) (i : Input) :
  accepts ok i -> Q (cardSetup g) -> Q (cardSetup (handle v g i)).
Proof.
  intros Hi Hq. destruct i; cbn [handle].
  - unfold startAiming, updateAimVisuals. by sg.
  - unfold updateAiming, updateAimVisuals. destruct (isAiming g) eqn:Ha; sg;
      rewrite ?Ha; done.
  - unfold throwSnowball. by destruct (isAiming g).
  - done.
  - done.
  - done.
  - destruct v; [done|]. destruct (cardSetup g) eqn:Hcs; [by rewrite Hcs|].
    unfold setupCard_part_000, setupCard_with. cbv zeta. sg. by apply Q_setup.
  - by apply card_inv_animate.
Qed.

Lemma card_inv_run (v : Revision) (inputs : list Input) (g : Game) :
  Forall (accepts ok) inputs -> Q (cardSetup g) -> Q (cardSetup (run v g inputs)).
Proof.
  revert g. induction inputs as [|i t IH]; intros g Hin Hq; [done|].
  apply Forall_cons in Hin as [Hi Hin].
  change (run v g (i :: t)) with (run v (handle v g i) t).
  by apply IH, card_inv_handle.
Qed.

End CardInvariant.

Lemma accepts_all (i : Input) : accepts (fun _ _ => True) i.
Proof. by destruct i. Qed.

Section SnowCanvas.
Context `{Three}.

Lemma snow_disc_size (c c' : Canvas) (op : DrawOp) :
  width c' = width c -> height c' = height c ->
  snow_disc c op -> snow_disc c' op.
Proof.
  intros Ew Eh (opacity & a & -> & Ha & Hs & He). exists opacity, a.
  split; [done|]. split; [|done]. unfold arc_in_canvas in *. by rewrite Ew, Eh.
Qed.

(** The small circles are full circles in the style that is set. *)
Lemma small_circles_discs (random : nat -> R) (todo i : nat)
    (x y size opacity : R) (c : Canvas) :
  fillStyle c = mkRGBA 255 255 255 opacity ->
  exists ops,
    painted (small_circles random todo i x y size c) = painted c ++ ops /\
    Forall (snow_disc c) ops.
Proof.
  revert i c. induction todo as [|todo IH]; intros i c Hstyle;
    cbn [small_circles]; cbv zeta.
  - exists []. by rewrite app_nil_r.
  - match goal with
    | |- context [small_circles random todo (S i) x y size ?c1] =>
        destruct (IH (S i) c1) as (ops & Hp & Hin); [exact Hstyle|]
    end.
    cbn [painted fill arc beginPath path fillStyle width height app] in Hp.
    eexists (_ :: ops). split.
    + rewrite Hp, <- app_assoc. reflexivity.
    + constructor.
      * exists opacity. eexists. rewrite Hstyle. split; [reflexivity|].
        split; [|done].
        split; cbn [arc_x arc_y]; apply clamp_bounds; apply pos_INR.
      * eapply Forall_impl; [exact Hin|]. intros op. by apply snow_disc_size.
Qed.

(** A splat is six white full circles centred on the canvas. *)
Lemma draw_splat_discs (random : nat -> R) (p : Vec3) (c : Canvas) :
  exists ops,
    painted (draw_splat random p c) = painted c ++ ops /\
    length ops = 6%nat /\ Forall (snow_disc c) ops.
Proof.
  pose proof (draw_splat_length random p c) as Hlen.
  unfold draw_splat in *. cbv zeta in *.
  match goal with
  | |- context [small_circles random 5 0 ?x ?y ?s ?c2] =>
      destruct (small_circles_discs random 5 0 x y s (0.3 + random 1%nat * 0.3) c2)
        as (smalls & Hs & Hd); [reflexivity|]
  end.
  rewrite Hs in Hlen |- *.
  cbn [painted fill arc beginPath path fillStyle set_fillStyle app] in Hlen |- *.
  eexists (_ :: smalls). split; [rewrite <- app_assoc; reflexivity|].
  split.
  { rewrite !length_app in Hlen. cbn [length] in Hlen |- *. lia. }
  constructor.
  - eexists _, _. split; [reflexivity|]. split; [|done].
    split; cbn [arc_x arc_y]; [apply splat_x_bounds|apply splat_y_bounds].
  - eapply Forall_impl; [exact Hd|]. intros op. by apply snow_disc_size.
Qed.

Lemma snow_only_draw_splat (random : nat -> R) (p : Vec3) (c : Canvas) :
  snow_only c -> snow_only (draw_splat random p c).
Proof.
  intros (ops & Hp & Hin).
  destruct (draw_splat_discs random p c) as (splat & Hp' & _ & Hs).
  destruct (draw_splat_size random p c) as (Ew & Eh).
  exists (ops ++ splat).
  split; [by rewrite Hp', Hp, Ew, Eh|].
  eapply Forall_impl; [|intros op; by apply snow_disc_size].
  apply Forall_app. by split.
Qed.

Lemma snow_only_new (w h : nat) : snow_only (new_snow_canvas w h).
Proof. exists []. split; [reflexivity|constructor]. Qed.

Lemma card_snow_only_handle (v : Revision) (g : Game) (i : Input) :
  card_snow_only (cardSetup g) -> card_snow_only (cardSetup (handle v g i)).
Proof.
  apply (card_inv_handle card_snow_only (fun _ _ => True)); [| | |apply accepts_all].
  - intros random p normal cs [Hf Hb]. unfold addSnowSplat. cbv zeta.
    unfold card_snow_only. cbn [snowCanvasFront snowCanvasBack].
    destruct (hitFront (card cs) normal).
    + split; [by apply snow_only_draw_splat|done].
    + split; [done|by apply snow_only_draw_splat].
  - done.
  - intros iw ih p b a _ _. split; apply snow_only_new.
Qed.

Lemma reachable_card_snow_only (v : Revision) (g : Game) :
  reachable v g -> card_snow_only (cardSetup g).
Proof.
  induction 1 as [rect size|g i Hr IH].
  - destruct v; [|done]. split; apply snow_only_new.
  - by apply card_snow_only_handle.
Qed.

(** X9: snow is never erased.  Whatever the inputs, the drawing operations
    made on the front snow canvas before them are a prefix of those made on
    it after them, and so for the back canvas. *)
Theorem snow_accumulates (v : Revision) (g : Game) (inputs : list Input) :
  snow_front (cardSetup g) `prefix_of` snow_front (cardSetup (run v g inputs)) /\
  snow_back (cardSetup g) `prefix_of` snow_back (cardSetup (run v g inputs)).
Proof.
  apply (card_inv_run
    (fun ocs => snow_front (cardSetup g) `prefix_of` snow_front ocs /\
                snow_back (cardSetup g) `prefix_of` snow_back ocs)
    (fun _ _ => True)); [| | | |done].
  - intros random p normal cs [Hf Hb]. unfold addSnowSplat. cbv zeta.
    cbn [snow_front snow_back snowCanvasFront snowCanvasBack].
    destruct (hitFront (card cs) normal).
    + split; [|done]. etrans; [exact Hf|].
      destruct (draw_splat_painted random p (snowCanvasFront cs))
        as (style & size & smalls & -> & _). by apply prefix_app_r.
    + split; [done|]. etrans; [exact Hb|].
      destruct (draw_splat_painted random p (snowCanvasBack cs))
        as (style & size & smalls & -> & _). by apply prefix_app_r.
  - done.
  - intros iw ih p b a _ [Hf Hb]. cbn [snow_front snow_back] in Hf, Hb.
    apply prefix_nil_inv in Hf, Hb. rewrite Hf, Hb.
    split; apply prefix_nil.
  - apply Forall_forall. intros i _. apply accepts_all.
Qed.

Lemma snow_fits_card_handle (v : Revision) (g : Game) (i : Input) :
  loads_image i -> snow_fits_card (cardSetup g) ->
  snow_fits_card (cardSetup (handle v g i)).
Proof.
  apply (card_inv_handle snow_fits_card (fun imageWidth _ => (0 < imageWidth)%nat)).
  - intros random p normal cs [Hf Hb]. unfold addSnowSplat. cbv zeta.
    unfold snow_fits_card. cbn [snowCanvasFront snowCanvasBack card].
    destruct (hitFront (card cs) normal).
    + destruct (draw_splat_size random p (snowCanvasFront cs)) as [-> ->]. done.
    + destruct (draw_splat_size random p (snowCanvasBack cs)) as [-> ->]. done.
  - intros cm cs Ew Eh [Hf Hb]. unfold snow_fits_card, set_card.
    cbn [snowCanvasFront snowCanvasBack card]. by rewrite Ew, Eh.
  - intros iw ih p b a Hpos _. unfold snow_fits_card.
    cbn [snowCanvasFront snowCanvasBack card geometry_width geometry_height
         new_snow_canvas fillRect set_fillStyle width height].
    assert (0 < INR iw) as Hw by (apply lt_0_INR; lia).
    split; field; lra.
Qed.

(** Where something is painted there is a card. *)
Lemma circles_card (g : Game) (n : nat) :
  circles g = S n ->
  exists cs,
    cardSetup g = Some cs /\
    (length (painted (snowCanvasFront cs))
       + length (painted (snowCanvasBack cs)) = S n)%nat.
Proof.
  unfold circles. destruct (cardSetup g) as [cs|]; [|discriminate].
  intros Hn. by exists cs.
Qed.

Lemma circles_integrate (m : Ref -> Body -> Kinematics) (g : Game) :
  circles (integrate m g) = circles g.
Proof. reflexivity. Qed.

(** A physics step of one internal step. *)
Lemma world_step_once (dt t : R) (es : list CollideEvent)
    (m : Ref -> Body -> Kinematics) (throws : bool) (g : Game) :
  world_step dt t maxSubSteps (mkStepOutcome [mkSubstep es m] throws) g =
  integrate m (fold_left dispatchEvent es g).
Proof. reflexivity. Qed.

(** A frame draws only in its physics step. *)
Lemma circles_animate (o : StepOutcome) (g : Game) :
  circles (fst (animate o g)) =
  circles (world_step fixedTimeStep fixedTimeStep maxSubSteps o g).
Proof.
  unfold animate. cbn [fst].
  set (stepped := world_step fixedTimeStep fixedTimeStep maxSubSteps o g).
  assert (circles (cleanupPhysics stepped) = circles stepped) as H2.
  { unfold circles.
    by destruct (cleanupPhysics_frame stepped) as (_ & _ & _ & _ & _ & -> & _). }
  destruct (step_throws o); [exact H2|].
  rewrite <- H2. unfold circles at 1.
  destruct (update_snowballs_frame (sync_card (cleanupPhysics stepped)))
    as (_ & _ & _ & _ & _ & -> & _).
  destruct (sync_card_cases (cleanupPhysics stepped))
    as [->|(cs & cb & Hcs & _ & ->)]; [done|].
  unfold circles. rewrite Hcs. reflexivity.
Qed.

End SnowCanvas.

(** ** The shape of a splat *)




Section Shape.
Context `{Three}.
Variable random : nat -> R.
Hypothesis random_range : forall n, 0 <= random n < 1.



End Shape.

(** ** A card hit in [src/game.js] *)

Section Hit.
Context `{Three}.



End Hit.

(** ** The snowfall *)

Lemma sign_cases (x : R) :
  (0 < x /\ sign x = 1) \/ (x < 0 /\ sign x = -1) \/ (x = 0 /\ sign x = 0).
Proof.
  unfold sign. destruct (ltb 0 x) eqn:E1.
  - apply ltb_true in E1. by left.
  - apply ltb_false in E1. destruct (ltb x 0) eqn:E2.
    + apply ltb_true in E2. right; by left.
    + apply ltb_false in E2. right; right. split; [lra|done].
Qed.

Lemma move_particle_box (random : nat -> R) (n : nat)
    (t x y z vx vy vz f : R) :
  is_random random -> y < 70 -> vy <= 0 ->
  let '(x', y', z', n') := move_particle random n t x y z vx vy vz f in
  in_box x' y' z'.
Proof.
  intros Hr Hy Hvy. unfold move_particle. cbv zeta.
  pose proof (Hr n) as R0. pose proof (Hr (n + 1)%nat) as R1.
  pose proof (Hr (n + 2)%nat) as R2.
  set (w := sin (t + x * 0.1) * 0.01 * f).
  destruct (ltb (y + vy) (-2)) eqn:Hfell.
  - unfold in_box. split; [|split; [lra|]].
    + destruct (gtb (Rabs (random n * 60 - 30)) 30) eqn:Hg.
      * destruct (sign_cases (random n * 60 - 30)) as [[_ ->]|[[_ ->]|[_ ->]]]; lra.
      * apply gtb_false in Hg. unfold Rabs in Hg. destruct Rcase_abs; lra.
    + destruct (ltb (random (n + 2)%nat * 180 - 20) (-20)) eqn:H1;
        destruct (gtb (random (n + 2)%nat * 180 - 20) 160) eqn:H2; cbn [orb];
        try apply ltb_false in H1; try apply gtb_false in H2; lra.
  - apply ltb_false in Hfell. unfold in_box. split; [|split; [lra|]].
    + destruct (gtb (Rabs (x + (vx + w))) 30) eqn:Hg.
      * destruct (sign_cases (x + (vx + w))) as [[_ ->]|[[_ ->]|[_ ->]]]; lra.
      * apply gtb_false in Hg. unfold Rabs in Hg. destruct Rcase_abs; lra.
    + destruct (ltb (z + (vz + w)) (-20)) eqn:H1;
        destruct (gtb (z + (vz + w)) 160) eqn:H2; cbn [orb];
        try apply ltb_false in H1; try apply gtb_false in H2; lra.
Qed.

Lemma update_particle_cases (random : nat -> R) (t : R) (vs fs : list R)
    (st : list R * nat) (k : nat) :
  update_particle random t vs fs st k = st \/
  exists x y z vx vy vz f x' y' z' n',
    fst st !! (3 * k)%nat = Some x /\ fst st !! (3 * k + 1)%nat = Some y /\
    fst st !! (3 * k + 2)%nat = Some z /\ vs !! (3 * k + 1)%nat = Some vy /\
    move_particle random (snd st) t x y z vx vy vz f = (x', y', z', n') /\
    update_particle random t vs fs st k =
      (<[(3 * k + 2)%nat := z']>
         (<[(3 * k + 1)%nat := y']> (<[(3 * k)%nat := x']> (fst st))), n').
Proof.
  unfold update_particle. cbv zeta.
  destruct (fst st !! (3 * k)%nat) as [x|]; [|by left].
  destruct (fst st !! (3 * k + 1)%nat) as [y|]; [|by left].
  destruct (fst st !! (3 * k + 2)%nat) as [z|]; [|by left].
  destruct (vs !! (3 * k)%nat) as [vx|]; [|by left].
  destruct (vs !! (3 * k + 1)%nat) as [vy|]; [|by left].
  destruct (vs !! (3 * k + 2)%nat) as [vz|]; [|by left].
  destruct (fs !! k) as [f|]; [|by left].
  destruct (move_particle random (snd st) t x y z vx vy vz f)
    as [[[x' y'] z'] n'] eqn:Hm.
  right. exists x, y, z, vx, vy, vz, f, x', y', z', n'. by repeat split.
Qed.

(** An iteration writes only the three entries of its particle. *)
Lemma update_particle_other (random : nat -> R) (t : R) (vs fs : list R)
    (st : list R * nat) (k j : nat) :
  (j < 3 * k \/ 3 * k + 3 <= j)%nat ->
  fst (update_particle random t vs fs st k) !! j = fst st !! j.
Proof.
  intros Hj.
  destruct (update_particle_cases random t vs fs st k)
    as [->|(x & y & z & vx & vy & vz & f & x' & y' & z' & n' & _ & _ & _ & _ & _ & ->)];
    [done|].
  cbn [fst]. rewrite !list_lookup_insert_ne by lia. done.
Qed.

Lemma update_particle_length (random : nat -> R) (t : R) (vs fs : list R)
    (st : list R * nat) (k : nat) :
  length (fst (update_particle random t vs fs st k)) = length (fst st).
Proof.
  destruct (update_particle_cases random t vs fs st k)
    as [->|(x & y & z & vx & vy & vz & f & x' & y' & z' & n' & _ & _ & _ & _ & _ & ->)];
    [done|].
  cbn [fst]. by rewrite !length_insert.
Qed.

Lemma update_particle_box (random : nat -> R) (t : R) (vs fs : list R)
    (st : list R * nat) (k : nat) :
  is_random random -> velocities_fall vs ->
  particles_in_box (fst st) ->
  particles_in_box (fst (update_particle random t vs fs st k)).
Proof.
  intros Hr Hv Hbox.
  destruct (update_particle_cases random t vs fs st k)
    as [->|(x & y & z & vx & vy & vz & f & x' & y' & z' & n'
            & Hx & Hy & Hz & Hvy & Hm & ->)]; [done|].
  cbn [fst]. intros k0 x0 y0 z0.
  destruct (decide (k0 = k)) as [->|Hne].
  - apply lookup_lt_Some in Hx as Lx. apply lookup_lt_Some in Hy as Ly.
    apply lookup_lt_Some in Hz as Lz.
    rewrite (list_lookup_insert_ne _ (3 * k + 2) (3 * k)) by lia.
    rewrite (list_lookup_insert_ne _ (3 * k + 1) (3 * k)) by lia.
    rewrite list_lookup_insert_eq by done.
    rewrite (list_lookup_insert_ne _ (3 * k + 2) (3 * k + 1)) by lia.
    rewrite list_lookup_insert_eq by (by rewrite length_insert).
    rewrite list_lookup_insert_eq by (by rewrite !length_insert).
    intros [= <-] [= <-] [= <-].
    destruct (Hbox k x y z Hx Hy Hz) as (_ & [_ Hy70] & _).
    pose proof (Hv k vy Hvy) as Hfall.
    pose proof (move_particle_box random (snd st) t x y z vx vy vz f Hr Hy70) as HH.
    rewrite Hm in HH. apply HH. lra.
  - rewrite !list_lookup_insert_ne by lia. apply Hbox.
Qed.

Lemma snow_loop_spec (random : nat -> R) (t : R) (vs fs : list R)
    (ks : list nat) (st : list R * nat) :
  is_random random -> velocities_fall vs -> particles_in_box (fst st) ->
  let st' := fold_left (update_particle random t vs fs) ks st in
  length (fst st') = length (fst st) /\ particles_in_box (fst st') /\
  forall j, (forall k, k ∈ ks -> (j < 3 * k \/ 3 * k + 3 <= j)%nat) ->
    fst st' !! j = fst st !! j.
Proof.
  intros Hr Hv. revert st. induction ks as [|k t' IH]; intros st Hbox; [done|].
  cbn [fold_left].
  destruct (IH (update_particle random t vs fs st k)) as (I1 & I2 & I3).
  { by apply update_particle_box. }
  cbv zeta in *. split; [by rewrite I1, update_particle_length|].
  split; [exact I2|].
  intros j Hj. rewrite I3.
  - apply update_particle_other. apply Hj, list_elem_of_here.
  - intros k0 Hk0. apply Hj. by apply list_elem_of_further.
Qed.

Lemma triple_lookup (a b c : R) (l : list R) (k d : nat) :
  (a :: b :: c :: l) !! (3 * S k + d)%nat = l !! (3 * k + d)%nat.
Proof. replace (3 * S k + d)%nat with (S (S (S (3 * k + d)))) by lia. reflexivity. Qed.

Lemma snow_init_ok (random : nat -> R) (todo k : nat) :
  is_random random ->
  length (snow_init random todo k).1.1 = (3 * todo)%nat /\
  length (snow_init random todo k).1.2 = (3 * todo)%nat /\
  length (snow_init random todo k).2 = todo /\
  particles_in_box (snow_init random todo k).1.1 /\
  velocities_fall (snow_init random todo k).1.2.
Proof.
  intros Hr. revert k. induction todo as [|todo IH]; intros k.
  - cbn [snow_init fst snd length]. split; [done|]. split; [done|]. split; [done|].
    split; [intros j x y z Hx; by rewrite lookup_nil in Hx|].
    intros j vy Hvy. by rewrite lookup_nil in Hvy.
  - cbn [snow_init]. cbv zeta. generalize (7 * k)%nat. intros n.
    destruct (IH (S k)) as (L1 & L2 & L3 & Hbox & Hfall).
    destruct (snow_init random todo (S k)) as [[ps vs] fs].
    cbn [fst snd] in *. cbn [length]. rewrite L1, L2, L3.
    split; [lia|]. split; [lia|]. split; [done|]. split.
    + intros j x y z. destruct j as [|j].
      * cbn. intros [= <-] [= <-] [= <-].
        pose proof (Hr n). pose proof (Hr (n + 1)%nat).
        pose proof (Hr (n + 2)%nat). unfold in_box. lra.
      * replace (3 * S j)%nat with (3 * S j + 0)%nat by lia.
        rewrite <- !Nat.add_assoc. rewrite !triple_lookup.
        rewrite Nat.add_0_r. apply Hbox.
    + intros j vy. destruct j as [|j].
      * cbn. intros [= <-]. pose proof (Hr (n + 4)%nat). lra.
      * rewrite triple_lookup. apply Hfall.
Qed.

Lemma snow_ok_setupSnowfall (random : nat -> R) :
  is_random random -> snow_ok (setupSnowfall random).
Proof.
  intros Hr. unfold setupSnowfall. cbv zeta.
  destruct (snow_init_ok random (Z.to_nat 10000) 0 Hr) as (L1 & L2 & L3 & Hbox & Hfall).
  destruct (snow_init random (Z.to_nat 10000) 0) as [[ps vs] fs].
  by constructor.
Qed.

Lemma snow_ok_animate_snow (random : nat -> R) (s s' : Snow) :
  is_random random -> animate_snow random s = Some s' -> snow_ok s -> snow_ok s'.
Proof.
  intros Hr Hs' [L1 L2 L3 Hbox Hfall]. unfold animate_snow in Hs'. cbv zeta in Hs'.
  destruct (iterations (activeSnowCount s * 3)) as [n|]; [|discriminate Hs'].
  injection Hs' as <-.
  destruct (snow_loop_spec random (time s + 0.001) (snowVelocities s)
              (snowRandomFactors s) (seq 0 (Z.to_nat n))
              (positions s, 0%nat) Hr Hfall Hbox) as (I1 & I2 & _).
  constructor; cbn [positions snowVelocities snowRandomFactors snowCount];
    try done. by rewrite I1.
Qed.

Lemma snow_ok_handle (s s' : Snow) (i : SnowInput) :
  snow_input_ok i -> snow_handle s i = Some s' -> snow_ok s -> snow_ok s'.
Proof.
  intros Hi Hs' Hs. destruct i as [random|value]; cbn [snow_handle] in Hs'.
  - by apply (snow_ok_animate_snow random s).
  - injection Hs' as <-. destruct Hs. by constructor.
Qed.

Lemma snow_reachable_ok (s : Snow) : snow_reachable s -> snow_ok s.
Proof.
  induction 1 as [random Hr|s i s' _ IH Hi Hs'].
  - by apply snow_ok_setupSnowfall.
  - by apply (snow_ok_handle s s' i).
Qed.

Lemma snow_reachable_count (s : Snow) :
  snow_reachable s -> snowCount s = Z.to_nat 10000.
Proof.
  induction 1 as [random Hr|s i s' _ IH Hi Hs'].
  - unfold setupSnowfall. cbv zeta.
    by destruct (snow_init random (Z.to_nat 10000) 0) as [[ps vs] fs].
  - destruct i as [random|value]; cbn [snow_handle] in Hs'.
    + unfold animate_snow in Hs'. cbv zeta in Hs'.
      destruct (iterations (activeSnowCount s * 3)); [|discriminate Hs'].
      by injection Hs' as <-.
    + by injection Hs' as <-.
Qed.

(** X15: the snowfall of the later revision stays in its box.  After
    [setupSnowfall] and any number of frames and density changes there are
    still 10000 particles, and each has x in [-30, 30], y in [-2, 70] and z
    in [-20, 160], given that [Math.random()] returns numbers in [0, 1). *)
Theorem snow_stays_in_box (s : Snow) :
  snow_reachable s ->
  length (positions s) = (3 * Z.to_nat 10000)%nat /\
  forall k x y z,
    positions s !! (3 * k)%nat = Some x ->
    positions s !! (3 * k + 1)%nat = Some y ->
    positions s !! (3 * k + 2)%nat = Some z ->
    -30 <= x <= 30 /\ -2 <= y <= 70 /\ -20 <= z <= 160.
Proof.
  intros Hr. destruct (snow_reachable_ok s Hr) as [L1 _ _ Hbox _].
  rewrite L1, (snow_reachable_count s Hr). split; [done|].
  intros k x y z Hx Hy Hz. destruct (Hbox k x y z Hx Hy Hz) as (? & ? & ?).
  repeat split; lra.
Qed.

(** [Math.floor] and the loop count on sample numbers. *)
Example floor_samples :
  floor 2.75 = 2%float /\ floor (-2.75) = (-3)%float /\
  floor 0.5 = 0%float /\ floor (-0.5) = (-1)%float /\
  floor 7 = 7%float /\ floor infinity = infinity.
Proof. repeat split; vm_compute; reflexivity. Qed.

Example iterations_samples :
  iterations 30000 = Some 10000%Z /\ iterations 3.5 = Some 2%Z /\
  iterations 3 = Some 1%Z /\ iterations 0 = Some 0%Z /\
  iterations (-3) = Some 0%Z /\ iterations nan = Some 0%Z /\
  iterations infinity = None.
Proof. repeat split; vm_compute; reflexivity. Qed.

(** The first frame after [setupSnowfall] returns: all 10000 particles are
    active. *)
Lemma first_snow_frame_returns (random : nat -> R) :
  exists s', animate_snow random (setupSnowfall random) = Some s'.
Proof.
  unfold animate_snow, setupSnowfall. cbv zeta.
  destruct (snow_init random (Z.to_nat 10000) 0) as [[ps vs] fs].
  cbn [activeSnowCount].
  assert (iterations (number (Z.of_nat (Z.to_nat 10000)) * 3) = Some 10000%Z)
    as -> by (vm_compute; reflexivity).
  eexists. reflexivity.
Qed.

(** The density slider at its integer positions, computed in binary64. *)
Lemma density_counts (n : Z) :
  (0 <= n <= 100)%Z ->
  floor (number 10000 * (number n / 100)) = number (density_count n) /\
  iterations (number (density_count n) * 3) = Some (density_count n).
Proof.
  intros Hn.
  assert (Forall
            (fun n =>
               floor (number 10000 * (number n / 100)) = number (density_count n) /\
               iterations (number (density_count n) * 3) = Some (density_count n))
            (Z.of_nat <$> seq 0 101)) as Hall.
  { set (l := Z.of_nat <$> seq 0 101). vm_compute in l. subst l.
    repeat (constructor; [split; vm_compute; reflexivity|]). constructor. }
  rewrite Forall_forall in Hall. apply Hall.
  apply list_elem_of_fmap. exists (Z.to_nat n). split; [lia|].
  apply elem_of_seq. lia.
Qed.

(** X16: the snow density slider, in the binary64 arithmetic of
    JavaScript.  At the integer position [n] of a slider from 0 to 100 the
    listener sets [activeSnowCount] to [100 * n], a hundredth of the 10000
    particles per step, except at 57 and at 69, where [n / 100] is rounded
    to a number just below the quotient, the product falls short of the
    integer and [Math.floor] gives 5699 and 6899.  The next frame returns;
    it moves only the entries of that many particles, leaves the array
    lengths, the velocities and the count alone and advances the clock by
    0.001. *)
Theorem density_slider_limits_the_loop (s : Snow) (n : Z) (random : nat -> R) :
  snow_reachable s -> (0 <= n <= 100)%Z ->
  let count :=
    (if (n =? 57) || (n =? 69) then 100 * n - 1 else 100 * n)%Z in
  let s1 := densityInput (number n) s in
  activeSnowCount s1 = number count /\
  (0 <= count <= Z.of_nat (snowCount s))%Z /\
  exists s2,
    animate_snow random s1 = Some s2 /\
    length (positions s2) = length (positions s) /\
    (forall j, (3 * Z.to_nat count <= j)%nat ->
       positions s2 !! j = positions s !! j) /\
    snowVelocities s2 = snowVelocities s /\
    activeSnowCount s2 = number count /\
    time s2 = time s + 0.001.
Proof.
  intros Hreach Hn count s1.
  change count with (density_count n) in *. clear count.
  pose proof (snow_reachable_count s Hreach) as Hcount.
  destruct (density_counts n Hn) as (Hfloor & Hiter).
  assert (activeSnowCount s1 = number (density_count n)) as Hact.
  { subst s1. unfold densityInput. cbv zeta. cbn [activeSnowCount].
    rewrite Hcount. replace (Z.of_nat (Z.to_nat 10000)) with 10000%Z by lia.
    exact Hfloor. }
  split; [exact Hact|].
  split.
  { rewrite Hcount. unfold density_count.
    destruct ((n =? 57)%Z || (n =? 69)%Z) eqn:E; [|lia].
    apply orb_true_iff in E. lia. }
  unfold animate_snow. cbv zeta. rewrite Hact, Hiter.
  eexists. split; [reflexivity|].
  subst s1. unfold densityInput. cbv zeta.
  cbn [positions snowVelocities snowRandomFactors snowCount activeSnowCount time].
  set (ks := seq 0 (Z.to_nat (density_count n))).
  set (f := update_particle random (time s + 0.001) (snowVelocities s)
              (snowRandomFactors s)).
  assert (forall (l : list nat) st,
            length (fst (fold_left f l st)) = length (fst st) /\
            forall j, (forall k, k ∈ l -> (j < 3 * k \/ 3 * k + 3 <= j)%nat) ->
              fst (fold_left f l st) !! j = fst st !! j) as Hloop.
  { induction l as [|k l IH]; intros st; [done|]. cbn [fold_left].
    destruct (IH (f st k)) as (I1 & I2). split.
    - rewrite I1. apply update_particle_length.
    - intros j Hj. rewrite I2.
      + apply update_particle_other. apply Hj, list_elem_of_here.
      + intros k0 Hk0. apply Hj. by apply list_elem_of_further. }
  destruct (Hloop ks (positions s, 0%nat)) as (L & Hother).
  split; [exact L|]. split; [|done].
  intros j Hj. apply Hother. intros k Hk. subst ks.
  apply elem_of_seq in Hk. lia.
Qed.

(** ** The power bar *)

Section Bar.
Context `{Three}.

Lemma handle_maxThrowPower (v : Revision) (g : Game) (i : Input) :
  maxThrowPower (handle v g i) = maxThrowPower g.
Proof.
  destruct i; cbn [handle].
  - unfold startAiming, updateAimVisuals. by sg.
  - unfold updateAiming, updateAimVisuals. destruct (isAiming g) eqn:Ha; sg;
      rewrite ?Ha; done.
  - unfold throwSnowball. by destruct (isAiming g).
  - done.
  - done.
  - done.
  - destruct v; [done|]. by destruct (cardSetup g).
  - pose proof (ui_animate o g) as E. unfold ui in E. by injection E.
Qed.

Lemma reachable_maxThrowPower (v : Revision) (g : Game) :
  reachable v g -> maxThrowPower g = 60.
Proof.
  induction 1 as [rect size|g i Hr IH].
  - by destruct v.
  - by rewrite handle_maxThrowPower.
Qed.

(** X13: the power bar of [src/game.js].  When the power slider is set to
    a value in [0, 100], [currentPower] becomes 0.6 times the value and the
    bar's scale the value over 100; the bar's lower edge stays at y = -2.4
    and its upper edge rises to -2.4 + 1.9 * value / 100, so the bar stays
    within its background (from y = -2.5 to y = -0.5). *)
Theorem power_bar_fills_from_its_base (g : Game) (powerBar : PowerBar) (value : R) :
  reachable game_js g -> 0 <= value <= 100 ->
  let st := powerInput_game_js value (g, powerBar) in
  currentPower (fst st) = 0.6 * value /\
  scale_y (snd st) = value / 100 /\
  powerBar_bottom (snd st) = -2.4 /\
  powerBar_top (snd st) = -2.4 + 1.9 * (value / 100) /\
  powerBarBg_bottom <= powerBar_bottom (snd st) /\
  powerBar_top (snd st) <= powerBarBg_top.
Proof.
  intros Hreach Hv st. subst st.
  pose proof (reachable_maxThrowPower game_js g Hreach) as E.
  unfold powerInput_game_js, updatePowerBar, powerInput, powerBar_bottom,
    powerBar_top, powerBarBg_bottom, powerBarBg_top.
  cbv zeta. sg. cbn [fst snd scale_y position_y]. sg. rewrite E.
  repeat split; lra.
Qed.

End Bar.

(** ** Statements over runs *)

Section Extras.
Context `{Three}.

(** X1: nothing is left behind in the scene or in the world.  In every
    reachable state a snowball object's mesh is in the scene exactly when
    the snowball is in the list, and so is its body in the world; every
    mesh of the scene is the mesh of a listed snowball; every body of the
    world is the ground, the card, the anchor or the body of a listed
    snowball. *)
Theorem scene_and_world_hold_listed_snowballs (v : Revision) (g : Game) :
  reachable v g ->
  (forall s sb, objects g !! s = Some sb ->
     (mesh sb ∈ scene g <-> s ∈ snowballs g) /\
     (body sb ∈ world_bodies g <-> s ∈ snowballs g)) /\
  (forall r, r ∈ scene g ->
     exists s sb, s ∈ snowballs g /\ objects g !! s = Some sb /\ mesh sb = r) /\
  (forall r, r ∈ world_bodies g ->
     r = groundBody \/
     (exists cs, cardSetup g = Some cs /\ (r = cardBody cs \/ r = anchorBody cs)) \/
     (exists s sb, s ∈ snowballs g /\ objects g !! s = Some sb /\ body sb = r)).
Proof.
  intros Hreach. pose proof (reachable_sound v g Hreach) as Hs.
  destruct Hs as [Smesh Sbody Sscene Sworld _ _ _].
  split; [|split].
  - intros s sb Hsb. split; [by apply Smesh|by apply Sbody].
  - intros r Hr. destruct (Sscene r Hr) as (s & sb & Hsb & <-).
    exists s, sb. split; [by apply (Smesh s sb Hsb)|done].
  - intros r Hr. destruct (Sworld r Hr) as [?|[?|(s & sb & Hsb & <-)]];
      [by left|by right; left|].
    right; right. exists s, sb. split; [by apply (Sbody s sb Hsb)|done].
Qed.

(** X2: removal never takes a body created during setup.  In every
    reachable state the ground body is in the world, a static plane of mass
    0; in [src/game.js] the card exists; and where the card exists, its
    body and its anchor are in the world, the card body dynamic, of mass 1,
    with a box whose half extents are half the width and half the height of
    the card's geometry, the anchor static. *)
Theorem static_bodies_stay_in_world (v : Revision) (g : Game) :
  reachable v g ->
  (groundBody ∈ world_bodies g /\
   exists b, bodies g !! groundBody = Some b /\
     mass b = 0 /\ body_type b = STATIC /\ shapes b = [Plane]) /\
  (v = game_js -> is_Some (cardSetup g)) /\
  (forall cs, cardSetup g = Some cs ->
     cardBody cs ∈ world_bodies g /\ anchorBody cs ∈ world_bodies g /\
     exists cb ab,
       bodies g !! cardBody cs = Some cb /\
       mass cb = 1 /\ body_type cb = DYNAMIC /\
       shapes cb =
         [Box (mkVec3 (geometry_width (card cs) / 2)
                 (geometry_height (card cs) / 2) 0.1)] /\
       bodies g !! anchorBody cs = Some ab /\
       mass ab = 0 /\ body_type ab = STATIC).
Proof.
  intros Hreach. pose proof (reachable_sound v g Hreach) as Hs.
  destruct Hs as [_ _ _ _ Sground Scard _].
  split; [|split].
  - destruct Sground as (Hin & b & Hb & Hc). split; [done|].
    exists b. unfold constants in Hc. injection Hc as -> -> -> _ _. done.
  - intros ->. destruct (game_js_card_static g Hreach) as (cs & Hcs & _). eauto.
  - intros cs Hcs. destruct (Scard cs Hcs) as (I1 & I2 & cb & ab & Hcb & Ccb & Hab & Cab).
    split; [done|]. split; [done|]. exists cb, ab.
    unfold constants in Ccb, Cab.
    injection Ccb as -> -> -> _ _. injection Cab as -> -> _ _ _. done.
Qed.

(** X4: between two handlers only listed snowballs are pending removal,
    no listed snowball has hit the card, the age of a listed snowball is not
    negative and, unless it is pending removal, at most 5. *)
Theorem listed_snowballs_are_fresh (v : Revision) (g : Game) :
  reachable v g ->
  (forall s, s ∈ toRemove g -> s ∈ snowballs g) /\
  (forall s sb, s ∈ snowballs g -> objects g !! s = Some sb ->
     isCollided sb = false /\ 0 <= timeAlive sb /\
     (s ∉ toRemove g -> timeAlive sb <= 5)).
Proof.
  intros Hreach. destruct (reachable_rested v g Hreach) as [Hp Hf].
  split; [exact Hp|]. intros s sb Hin Hsb.
  destruct (Hf s sb Hin Hsb) as (Hc & Ht).
  destruct (sound_ball v g (reachable_sound v g Hreach) s sb Hsb) as (H0 & _).
  done.
Qed.


(** X6: [isAiming] follows the mouse button.  After any inputs it is true
    exactly when the last button event was a mousedown, whatever frames,
    moves, slider, resize or load events came in between; the cannon is
    still at (0, -1.5, 4); and the aim line has two points, the first the
    cannon's position, when aiming, and none when not. *)
Theorem aiming_follows_mouse_button (v : Revision) (rect : DOMRect) (size : R)
    (inputs : list Input) :
  let g := run v (constructor v rect size) inputs in
  isAiming g = held false inputs /\
  cannon_position g = mkVec3 0 (-1.5) 4 /\
  if isAiming g then exists tip, aimLine g = [cannon_position g; tip]
  else aimLine g = [].
Proof.
  intros g. subst g. split.
  - rewrite run_held. by destruct v.
  - apply (reachable_aim_shown v). apply reachable_run, reachable_init.
Qed.

(** X7: with the sliders within the ranges of the page (size from 1 to 5,
    power from 0 to 100), [maxThrowPower] stays 60 and [currentPower] stays
    within [0, 60]; the power slider at [value] gives [currentPower] 0.6
    times [value]; and every snowball's mesh and body have the same
    radius, between 0.2 and 1 in [src/game.js], 0.1 and 0.5 in the later
    revision. *)
Theorem sliders_bound_power_and_size (v : Revision) (rect : DOMRect) (size : R)
    (inputs : list Input) :
  1 <= size <= 5 -> Forall in_range inputs ->
  let g := run v (constructor v rect size) inputs in
  maxThrowPower g = 60 /\ 0 <= currentPower g <= 60 /\
  (forall value, currentPower (handle v g (PowerInput value)) = 0.6 * value) /\
  forall s sb, objects g !! s = Some sb ->
    exists m b,
      meshes g !! mesh sb = Some m /\ bodies g !! body sb = Some b /\
      shapes b = [Sphere (sphere_radius m)] /\
      min_radius v <= sphere_radius m <= max_radius v.
Proof.
  intros Hsize Hin g.
  assert (reachable v g) as Hreach by apply reachable_run, reachable_init.
  destruct (ranged_run v inputs (constructor v rect size) Hin
              (ranged_constructor v rect size Hsize)) as (R1 & R2 & R3 & R4).
  fold g in R1, R2, R3, R4.
  split; [exact R1|]. split; [exact R2|].
  split; [intros value; cbn [handle]; unfold powerInput; sg; rewrite R1; lra|].
  intros s sb Hsb.
  destruct (sound_ball v g (reachable_sound v g Hreach) s sb Hsb)
    as (_ & m & b & Hm & Hb & Hc).
  exists m, b. unfold constants in Hc. injection Hc as _ _ -> _ _.
  split; [done|]. split; [done|]. split; [done|]. by apply (R4 (mesh sb)).
Qed.

(** X10: all that is ever painted on a snow canvas is the transparent
    fill of the whole canvas made by [setupCard], followed by full circles,
    each an arc from 0 to [2 * PI] filled in white of some opacity, whose
    centres lie on the canvas. *)
Theorem snow_canvases_hold_centred_circles (v : Revision) (g : Game)
    (cs : CardSetup) :
  reachable v g -> cardSetup g = Some cs ->
  snow_only (snowCanvasFront cs) /\ snow_only (snowCanvasBack cs).
Proof.
  intros Hreach Hcs. pose proof (reachable_card_snow_only v g Hreach) as Hq.
  by rewrite Hcs in Hq.
Qed.


Lemma snow_fits_card_run (v : Revision) (inputs : list Input) (g : Game) :
  Forall loads_image inputs -> snow_fits_card (cardSetup g) ->
  snow_fits_card (cardSetup (run v g inputs)).
Proof.
  revert g. induction inputs as [|i t IH]; intros g Hin Hq; [done|].
  apply Forall_cons in Hin as [Hi Hin].
  change (run v g (i :: t)) with (run v (handle v g i) t).
  apply IH; [done|]. by apply snow_fits_card_handle.
Qed.

Lemma snow_fits_card_constructor (v : Revision) (rect : DOMRect) (size : R) :
  snow_fits_card (cardSetup (constructor v rect size)).
Proof.
  destruct v; [|exact I]. unfold snow_fits_card.
  cbn [constructor setupCard_game_js setupCard_with cardSetup set_cardSetup
       snowCanvasFront snowCanvasBack card geometry_width geometry_height
       new_snow_canvas fillRect set_fillStyle width height].
  rewrite INR_512, INR_768. split; lra.
Qed.

(** X12: the snow canvases have the proportions of the card, in both
    revisions, when the image that was loaded is not empty: canvas width
    times card height is canvas height times card width. *)
Theorem snow_canvas_fits_card (v : Revision) (rect : DOMRect) (size : R)
    (inputs : list Input) (cs : CardSetup) :
  Forall loads_image inputs ->
  cardSetup (run v (constructor v rect size) inputs) = Some cs ->
  INR (width (snowCanvasFront cs)) * geometry_height (card cs) =
    INR (height (snowCanvasFront cs)) * geometry_width (card cs) /\
  INR (width (snowCanvasBack cs)) * geometry_height (card cs) =
    INR (height (snowCanvasBack cs)) * geometry_width (card cs).
Proof.
  intros Hin Hcs.
  pose proof (snow_fits_card_run v inputs (constructor v rect size) Hin
                (snow_fits_card_constructor v rect size)) as Hq.
  by rewrite Hcs in Hq.
Qed.

Lemma frac_bounds (a w : R) : 0 < w -> 0 <= a <= w -> 0 <= a / w <= 1.
Proof.
  intros Hw Ha. unfold Rdiv. pose proof (Rinv_0_lt_compat w Hw) as Hi.
  assert (w * / w = 1) as E by (apply Rinv_r; lra).
  split; nra.
Qed.

(** X14: a mouse event inside the canvas rectangle aims within range.
    Its normalised coordinates lie in [-1, 1]; [startAiming] turns the
    cannon by an azimuth in [-PI/2, PI/2], which is PI/2 at the left edge
    and -PI/2 at the right edge, and by an elevation in [0, PI/2], which is
    0 at the bottom edge.  In [src/game.js] the elevation is PI/2 on the
    whole upper half of the canvas; in the later revision it is PI/2 at the
    top edge only. *)
Theorem mouse_inside_canvas_aims_in_range (v : Revision) (event : MouseEvent)
    (g : Game) :
  0 < rect_width (canvasRect g) -> 0 < rect_height (canvasRect g) ->
  inside (canvasRect g) event ->
  let x := ndc_x (canvasRect g) event in
  let y := ndc_y (canvasRect g) event in
  -1 <= x <= 1 /\ -1 <= y <= 1 /\
  cannon_rotation (startAiming v event g) =
    rotateX (- elevationAngle v y) (rotateY (azimuthAngle x) euler_zero) /\
  - (PI / 2) <= azimuthAngle x <= PI / 2 /\
  0 <= elevationAngle v y <= PI / 2 /\
  (clientX event = rect_left (canvasRect g) -> azimuthAngle x = PI / 2) /\
  (clientX event = rect_left (canvasRect g) + rect_width (canvasRect g) ->
   azimuthAngle x = - (PI / 2)) /\
  (clientY event = rect_top (canvasRect g) + rect_height (canvasRect g) ->
   elevationAngle v y = 0) /\
  match v with
  | game_js => 0 <= y -> elevationAngle v y = PI / 2
  | part_000 => elevationAngle v y = PI / 2 <-> y = 1
  end.
Proof.
  intros Hw Hh [Hx Hy] x y.
  set (rect := canvasRect g) in *.
  assert (0 <= (clientX event - rect_left rect) / rect_width rect <= 1) as Fx.
  { apply frac_bounds; lra. }
  assert (0 <= (clientY event - rect_top rect) / rect_height rect <= 1) as Fy.
  { apply frac_bounds; lra. }
  assert (-1 <= x <= 1) as Bx by (subst x; unfold ndc_x; lra).
  assert (-1 <= y <= 1) as By by (subst y; unfold ndc_y; lra).
  pose proof PI_RGT_0 as Hpi.
  split; [exact Bx|]. split; [exact By|].
  split; [reflexivity|].
  split; [by apply azimuthAngle_bounds|].
  split; [by apply elevationAngle_bounds|].
  split.
  { intros E. subst x. unfold azimuthAngle, ndc_x. rewrite E.
    replace (rect_left rect - rect_left rect) with 0 by lra.
    unfold Rdiv at 2. rewrite Rmult_0_l. lra. }
  split.
  { intros E. subst x. unfold azimuthAngle, ndc_x. rewrite E.
    replace (rect_left rect + rect_width rect - rect_left rect)
      with (rect_width rect) by lra.
    unfold Rdiv at 2. rewrite Rinv_r by lra. lra. }
  split.
  { intros E. subst y. unfold ndc_y. rewrite E.
    replace (rect_top rect + rect_height rect - rect_top rect)
      with (rect_height rect) by lra.
    unfold Rdiv at 1. rewrite Rinv_r by lra.
    replace (- (1) * 2 + 1) with (-1) by lra.
    destruct v; cbn [elevationAngle].
    - rewrite clamp_id; lra.
    - lra. }
  destruct v; cbn [elevationAngle].
  - intros H0. apply clamp_above; nra.
  - split; intros E; nra.
Qed.

(** X17: a frame whose physics step raises an error.  [catch] still
    empties [toRemove]: the listed snowballs that were pending after the
    step leave the list, their meshes the scene and their bodies the world;
    but no snowball ages, no mesh moves and the card mesh is not updated;
    the frame is rendered all the same. *)
Theorem failed_step_still_cleans_up (v : Revision) (o : StepOutcome) (g : Game) :
  reachable v g -> step_throws o = true ->
  let stepped := world_step fixedTimeStep fixedTimeStep maxSubSteps o g in
  let g' := fst (animate o g) in
  toRemove g' = [] /\
  (forall s, s ∈ snowballs g' <-> s ∈ snowballs g /\ (s ∉ toRemove stepped)) /\
  (forall s sb, s ∈ toRemove stepped -> objects g !! s = Some sb ->
     (mesh sb ∉ scene g') /\ (body sb ∉ world_bodies g')) /\
  objects g' = objects stepped /\ meshes g' = meshes g /\
  bodies g' = bodies stepped /\ cardSetup g' = cardSetup stepped /\
  snd (animate o g) =
    [RequestAnimationFrame; WorldStep (1 / 60) (1 / 60) 3; render g'].
Proof.
  intros Hreach Ho stepped g'.
  pose proof (reachable_wf v g Hreach) as Hwf.
  assert (wf stepped) as Hw1 by by apply wf_world_step.
  assert (g' = cleanupPhysics stepped) as Eg.
  { subst g'. unfold animate. by rewrite Ho. }
  destruct (world_step_frame fixedTimeStep fixedTimeStep maxSubSteps o g)
    as ((E1 & _) & Hev & Em & _).
  fold stepped in E1, Hev, Em.
  destruct (cleanupPhysics_frame stepped) as (F1 & F2 & F3 & _ & _ & F6 & _).
  rewrite Eg. split; [reflexivity|].
  split; [intros s; by rewrite cleanupPhysics_snowballs, E1|].
  split.
  { intros s sb Hin Hsb. destruct (Hev s sb Hsb) as (sb1 & Hsb1 & <- & <- & _).
    by destruct (cleanupPhysics_removes stepped s sb1 Hw1 Hin Hsb1) as (_ & ? & ?). }
  split; [exact F1|]. split; [by rewrite F2|]. split; [exact F3|].
  split; [exact F6|].
  unfold animate. rewrite Ho. reflexivity.
Qed.

End Extras.

(** ** Rendering and the side of a hit *)

Section More.
Context `{Three}.

Lemma normalize_sign (a : Vec3) : vz (normalize a) < 0 <-> vz a < 0.
Proof.
  unfold normalize. cbv zeta. cbn [vz].
  set (d := if Req_dec_T (vlength a) 0 then 1 else vlength a).
  assert (0 < d) as Hd.
  { subst d. destruct (Req_dec_T (vlength a) 0) as [E|N]; [lra|].
    unfold vlength in *. pose proof (sqrt_pos (vx a * vx a + vy a * vy a + vz a * vz a)).
    lra. }
  pose proof (Rinv_0_lt_compat d Hd) as Hi. unfold Rdiv.
  split; intros Hz; nra.
Qed.

(** X19: the side of a hit depends on the sign of the local normal's z
    only, not on its length: normalising is immaterial, and a normal that
    is zero in the card's local space counts as a hit on the back. *)
Theorem side_ignores_normal_length (cm : CardMesh) (normal : Vec3) :
  let local :=
    worldToLocal (card_position cm) (card_quaternion cm)
      (vadd normal (card_position cm)) in
  (hitFront cm normal = true <-> vz local < 0) /\
  (local = vec3_zero -> hitFront cm normal = false).
Proof.
  intros local. unfold hitFront, localNormal. fold local. split.
  - rewrite ltb_true. apply normalize_sign.
  - intros E. apply ltb_false. rewrite E.
    assert (~ vz (normalize vec3_zero) < 0) as Hn.
    { rewrite normalize_sign. simpl. lra. }
    lra.
Qed.

(** X18: what is rendered is where the physics says.  At the end of a
    frame whose physics step returns, every mesh of the scene is the mesh
    of a listed snowball whose body is in the world, and it has the
    position and the quaternion of that body. *)
Theorem rendered_snowballs_sit_on_their_bodies (v : Revision) (o : StepOutcome)
    (g : Game) :
  reachable v g -> step_throws o = false ->
  let g' := fst (animate o g) in
  forall r, r ∈ scene g' ->
    exists s sb m b,
      s ∈ snowballs g' /\ objects g' !! s = Some sb /\ mesh sb = r /\
      meshes g' !! r = Some m /\ bodies g' !! body sb = Some b /\
      body sb ∈ world_bodies g' /\
      mesh_position m = position b /\ mesh_quaternion m = quaternion b.
Proof.
  intros Hreach Ho g' r Hr.
  assert (reachable v g') as Hreach'.
  { subst g'. apply (reachable_step v g (AnimationFrame o) Hreach). }
  pose proof (reachable_sound v g' Hreach') as Hs'.
  destruct (sound_scene v g' Hs' r Hr) as (s & sb & Hsb & Em).
  assert (s ∈ snowballs g') as Hin.
  { apply (sound_mesh v g' Hs' s sb Hsb). by rewrite Em. }
  pose proof (reachable_wf v g Hreach) as Hwf.
  pose proof (reachable_sound v g Hreach) as Hs.
  set (stepped := world_step fixedTimeStep fixedTimeStep maxSubSteps o g).
  set (g1 := sync_card (cleanupPhysics stepped)).
  destruct (before_update o g Hwf) as (Hwf1 & _).
  fold stepped in Hwf1. fold g1 in Hwf1.
  assert (wf stepped) as Hw1 by by apply wf_world_step.
  assert (sound v g1) as Hs1.
  { eapply sound_steady; [apply steady_sync_card|].
    apply sound_cleanupPhysics; [done|].
    eapply sound_steady; [apply steady_world_step|done]. }
  assert (g' = update_snowballs g1) as Hg'.
  { subst g' g1 stepped. by apply animate_no_throw. }
  assert (s ∈ snowballs g1) as Hin1.
  { destruct (update_snowballs_frame g1) as ((E1 & _) & _).
    rewrite Hg', E1 in Hin. exact Hin. }
  destruct (wf_snowballs g1 Hwf1 s Hin1) as [sb1 Hsb1].
  destruct (wf_objects g1 Hwf1 s sb1 Hsb1) as (_ & _ & _ & _ & [b Hb]).
  assert (body sb1 ∈ world_bodies g1) as Hw.
  { by apply (sound_body v g1 Hs1 s sb1 Hsb1). }
  pose proof (animate_updates v o g s sb1 b Hreach Ho Hin1 Hsb1 Hb Hw) as HH.
  cbv zeta in HH. fold g' in HH.
  destruct HH as (_ & Ho' & (m' & Hm' & Hp & Hq) & Hb' & _).
  assert (sb = mkSnowball (mesh sb1) (body sb1) (timeAlive sb1 + 1 / 60)
                 (isCollided sb1)) as Esb by congruence.
  exists s, sb, m', b. rewrite Esb in *. cbn [mesh body] in *.
  split; [done|]. split; [done|]. split; [done|].
  split; [by rewrite <- Em|]. split; [done|].
  split; [|done].
  apply (sound_body v g' Hs' s _ Ho'). exact Hin.
Qed.

End More.

(** ** Examples *)

Example sample_thrown_object :
  objects sample_thrown !! 5%nat = Some (mkSnowball 3 4 0 false).
Proof. reflexivity. Qed.

Example sample_start_card : cardSetup sample_start = Some sample_card.
Proof. reflexivity. Qed.

Example sample_thrown_card :
  cardSetup sample_thrown = Some sample_card /\
  bodies sample_thrown !! 1%nat = Some sample_card_body /\
  listeners sample_thrown !! 4%nat = Some 5%nat.
Proof. split; [|split]; reflexivity. Qed.

Lemma sample_random_is_random : is_random sample_random.
Proof. intros n. unfold sample_random. lra. Qed.

(** X1 (witness): the first snowball after the first throw. *)
Lemma scene_and_world_hold_listed_snowballs_witness :
  (3%nat ∈ scene sample_thrown <-> 5%nat ∈ snowballs sample_thrown) /\
  (4%nat ∈ world_bodies sample_thrown <-> 5%nat ∈ snowballs sample_thrown).
Proof.
  pose proof (scene_and_world_hold_listed_snowballs game_js sample_thrown
                sample_thrown_reachable) as (Ht & _).
  exact (Ht 5%nat (mkSnowball 3 4 0 false) sample_thrown_object).
Defined.

(** X2 (witness): the ground, the card and the anchor after the first throw. *)
Lemma static_bodies_stay_in_world_witness :
  groundBody ∈ world_bodies sample_thrown /\
  cardBody sample_card ∈ world_bodies sample_thrown /\
  anchorBody sample_card ∈ world_bodies sample_thrown.
Proof.
  pose proof (static_bodies_stay_in_world game_js sample_thrown
                sample_thrown_reachable) as ((Hg & _) & _ & Hc).
  destruct (Hc sample_card (proj1 sample_thrown_card)) as (H1 & H2 & _).
  split; [exact Hg|]. split; [exact H1|exact H2].
Defined.

(** X3 (witness): the first snowball is gone after 302 quiet frames. *)
Lemma snowball_is_gone_after_302_frames_witness :
  5%nat ∈ snowballs sample_thrown /\
  (5%nat ∉ snowballs (run game_js sample_thrown sample_quiet_frames)).
Proof.
  assert (5%nat ∈ snowballs sample_thrown) as Hin.
  { change (5%nat ∈ [5%nat]). apply list_elem_of_here. }
  assert (Forall returns sample_quiet_frames) as Hret.
  { apply Forall_replicate. reflexivity. }
  assert (302 <= frames sample_quiet_frames)%nat as Hfr.
  { vm_compute. lia. }
  split; [exact Hin|].
  exact (snowball_is_gone_after_302_frames game_js sample_thrown 5 sample_quiet_frames
           sample_thrown_reachable Hin Hret Hfr).
Defined.

(** X4 (witness): the first snowball after the first throw. *)
Lemma listed_snowballs_are_fresh_witness :
  isCollided (mkSnowball 3 4 0 false) = false /\
  0 <= timeAlive (mkSnowball 3 4 0 false) /\
  ((5%nat ∉ toRemove sample_thrown) -> timeAlive (mkSnowball 3 4 0 false) <= 5).
Proof.
  pose proof (listed_snowballs_are_fresh game_js sample_thrown
                sample_thrown_reachable) as (_ & Hf).
  assert (5%nat ∈ snowballs sample_thrown) as Hin.
  { change (5%nat ∈ [5%nat]). apply list_elem_of_here. }
  exact (Hf 5%nat (mkSnowball 3 4 0 false) Hin sample_thrown_object).
Defined.


(** X7 (witness): size 3, power 50, then a throw. *)
Lemma sliders_bound_power_and_size_witness :
  maxThrowPower (run game_js sample_start sample_slider_inputs) = 60 /\
  0 <= currentPower (run game_js sample_start sample_slider_inputs) <= 60.
Proof.
  assert (1 <= 5 <= 5) as Hsize by lra.
  assert (Forall in_range sample_slider_inputs) as Hin.
  { repeat constructor; simpl; lra. }
  pose proof (sliders_bound_power_and_size (H := three_math) game_js sample_rect 5
                sample_slider_inputs Hsize Hin) as HH.
  cbv zeta in HH. destruct HH as (H1 & H2 & _).
  split; [exact H1|exact H2].
Defined.


(** The frame of the hit leaves eight drawing operations on the two snow
    canvases: the two fills of [setupCard] and the six circles of the
    splat. *)
Example sample_despawned_circles : circles sample_despawned = 8%nat.
Proof.
  destruct (draws_inv sample_thrown sample_hit sample_hit_draws)
    as (s & sb & cs & _ & _ & _ & _ & _ & _ & _ & Hc).
  change (circles sample_thrown) with 2%nat in Hc.
  change sample_despawned
    with (fst (animate (mkStepOutcome [mkSubstep [sample_hit] still] false)
                 sample_thrown)).
  rewrite circles_animate, world_step_once, circles_integrate.
  cbn [fold_left]. exact Hc.
Qed.

(** X10 (witness): the canvases of [src/game.js] after the frame in which
    the first snowball hits the card. *)
Lemma snow_canvases_hold_centred_circles_witness :
  exists cs,
    cardSetup sample_despawned = Some cs /\
    (length (painted (snowCanvasFront cs))
       + length (painted (snowCanvasBack cs)) = 8)%nat /\
    snow_only (snowCanvasFront cs) /\ snow_only (snowCanvasBack cs).
Proof.
  destruct (circles_card sample_despawned 7 sample_despawned_circles)
    as (cs & Hcs & Hlen).
  exists cs. split; [exact Hcs|]. split; [exact Hlen|].
  exact (snow_canvases_hold_centred_circles game_js sample_despawned cs
           sample_despawned_reachable Hcs).
Defined.


Example sample_loaded_state :
  cardSetup (run (H := three_math) part_000 (constructor part_000 sample_rect 5)
               [TextureLoaded 512 768]) = Some sample_loaded_card.
Proof. reflexivity. Qed.

(** X12 (witness): the later revision with an image of 512 by 768. *)
Lemma snow_canvas_fits_card_witness :
  INR (width (snowCanvasFront sample_loaded_card))
    * geometry_height (card sample_loaded_card) =
  INR (height (snowCanvasFront sample_loaded_card))
    * geometry_width (card sample_loaded_card).
Proof.
  assert (Forall loads_image [TextureLoaded 512 768]) as Hin.
  { apply Forall_cons. split; [|apply Forall_nil_2].
    unfold loads_image, accepts. lia. }
  pose proof (snow_canvas_fits_card (H := three_math) part_000 sample_rect 5
                [TextureLoaded 512 768] sample_loaded_card Hin
                sample_loaded_state) as HH.
  exact (proj1 HH).
Defined.

(** X13 (witness): the power slider at 50. *)
Lemma power_bar_fills_from_its_base_witness :
  scale_y (snd (powerInput_game_js 50 (sample_start, powerBar_start))) = 50 / 100 /\
  powerBar_bottom (snd (powerInput_game_js 50 (sample_start, powerBar_start))) = -2.4.
Proof.
  assert (0 <= 50 <= 100) as Hv by lra.
  pose proof (power_bar_fills_from_its_base sample_start powerBar_start 50
                sample_start_reachable Hv) as HH.
  cbv zeta in HH. destruct HH as (_ & H1 & H2 & _).
  split; [exact H1|exact H2].
Defined.

(** X14 (witness): a click at the centre of the canvas. *)
Lemma mouse_inside_canvas_aims_in_range_witness :
  -1 <= ndc_x (canvasRect sample_start) sample_click <= 1 /\
  -1 <= ndc_y (canvasRect sample_start) sample_click <= 1.
Proof.
  assert (0 < rect_width (canvasRect sample_start)) as Hw.
  { change (0 < 800). lra. }
  assert (0 < rect_height (canvasRect sample_start)) as Hh.
  { change (0 < 600). lra. }
  assert (inside (canvasRect sample_start) sample_click) as Hin.
  { change ((0 <= 400 <= 0 + 800) /\ (0 <= 300 <= 0 + 600)). lra. }
  pose proof (mouse_inside_canvas_aims_in_range game_js sample_click sample_start
                Hw Hh Hin) as HH.
  cbv zeta in HH. destruct HH as (H1 & H2 & _).
  split; [exact H1|exact H2].
Defined.

(** X15 (witness): the snowfall after its first frame. *)
Lemma snow_stays_in_box_witness :
  exists s',
    animate_snow sample_random (setupSnowfall sample_random) = Some s' /\
    length (positions s') = (3 * Z.to_nat 10000)%nat /\
    forall k x y z,
      positions s' !! (3 * k)%nat = Some x ->
      positions s' !! (3 * k + 1)%nat = Some y ->
      positions s' !! (3 * k + 2)%nat = Some z ->
      -30 <= x <= 30 /\ -2 <= y <= 70 /\ -20 <= z <= 160.
Proof.
  destruct (first_snow_frame_returns sample_random) as [s' Hs'].
  exists s'. split; [exact Hs'|].
  exact (snow_stays_in_box s'
           (snow_reachable_step _ (SnowFrame sample_random) s'
              (snow_reachable_init sample_random sample_random_is_random)
              sample_random_is_random Hs')).
Defined.

(** X16 (witness): the density slider at 57 leaves 5699 active particles,
    not 5700. *)
Lemma density_slider_limits_the_loop_witness :
  activeSnowCount (densityInput (number 57) (setupSnowfall sample_random))
    = 5699%float /\
  exists s2,
    animate_snow sample_random
      (densityInput (number 57) (setupSnowfall sample_random)) = Some s2 /\
    activeSnowCount s2 = 5699%float /\
    time s2 = time (setupSnowfall sample_random) + 0.001.
Proof.
  assert (0 <= 57 <= 100)%Z as Hn by lia.
  pose proof (density_slider_limits_the_loop (setupSnowfall sample_random) 57
                sample_random
                (snow_reachable_init sample_random sample_random_is_random) Hn)
    as HH.
  cbv zeta in HH. destruct HH as (H1 & _ & s2 & H2 & _ & _ & _ & H3 & H4).
  split; [exact H1|].
  exists s2. split; [exact H2|]. split; [exact H3|exact H4].
Defined.

(** X17 (witness): the first snowball, marked in the frame of the fall,
    is removed by a frame whose step fails. *)
Lemma failed_step_still_cleans_up_witness :
  toRemove (fst (animate failing_step sample_fallen)) = [] /\
  (5%nat ∉ snowballs (fst (animate failing_step sample_fallen))).
Proof.
  pose proof (failed_step_still_cleans_up game_js failing_step sample_fallen
                sample_fallen_reachable eq_refl) as HH.
  cbv zeta in HH. destruct HH as (H1 & H2 & _).
  split; [exact H1|].
  intros Hin. apply H2 in Hin as [_ Hn]. apply Hn.
  exact (proj2 sample_fallen_state).
Defined.

(** X18 (witness): the frame after the first throw; mesh 3 is in the
    scene. *)
Lemma rendered_snowballs_sit_on_their_bodies_witness :
  3%nat ∈ scene (fst (animate quiet_step sample_thrown)) /\
  exists s sb m b,
    s ∈ snowballs (fst (animate quiet_step sample_thrown)) /\
    objects (fst (animate quiet_step sample_thrown)) !! s = Some sb /\
    mesh sb = 3%nat /\
    meshes (fst (animate quiet_step sample_thrown)) !! 3%nat = Some m /\
    bodies (fst (animate quiet_step sample_thrown)) !! body sb = Some b /\
    body sb ∈ world_bodies (fst (animate quiet_step sample_thrown)) /\
    mesh_position m = position b /\ mesh_quaternion m = quaternion b.
Proof.
  assert (3%nat ∈ scene (fst (animate quiet_step sample_thrown))) as Hin.
  { rewrite (animate_no_throw quiet_step sample_thrown eq_refl).
    destruct (update_snowballs_frame
                (sync_card (cleanupPhysics
                   (world_step fixedTimeStep fixedTimeStep maxSubSteps
                      quiet_step sample_thrown)))) as ((_ & E & _) & _).
    rewrite E. change (3%nat ∈ [3%nat]). apply list_elem_of_here. }
  pose proof (rendered_snowballs_sit_on_their_bodies game_js quiet_step
                sample_thrown sample_thrown_reachable eq_refl) as HH.
  cbv zeta in HH. split; [exact Hin|]. exact (HH 3%nat Hin).
Defined.

(** ** The extent of the misplacement in the later revision *)

Section Stretch.
Context `{Three}.

Lemma reachable_card_is_4_wide (g : Game) :
  reachable part_000 g -> card_is_4_wide (cardSetup g).
Proof.
  induction 1 as [rect size|g i Hr IH]; [exact I|].
  revert IH. apply (card_inv_handle card_is_4_wide (fun _ _ => True));
    [| | |apply accepts_all].
  - intros random p normal cs Hq. exact Hq.
  - intros cm cs Ew _ Hq. unfold card_is_4_wide, set_card. cbn [card].
    by rewrite Ew.
  - intros iw ih p b a _ _. reflexivity.
Qed.

(** X20: the extent of the misplacement in the later revision.  Its card
    is always 4 wide, while [addSnowSplat] divides by 1.5: a contact at
    local x within [-1.5, 1.5] is painted 4/3 times as far from the middle
    of the canvas as the spec's pixel is, and every contact on the two
    outer strips of the face, from 1.5 to 2 and from -2 to -1.5, is
    painted on the edge of the canvas. *)
Theorem later_revision_stretches_splats (g : Game) (cs : CardSetup)
    (random : nat -> R) (p normal : Vec3) :
  reachable part_000 g -> cardSetup g = Some cs ->
  let c := hit_canvas normal cs in
  let W := INR (width c) in
  geometry_width (card cs) / 2 = 2 /\
  exists style x y size smalls,
    painted (hit_canvas normal (addSnowSplat random p normal cs)) =
      painted c ++ FillPath style [mkArc x y size 0 (PI * 2)] :: smalls /\
    (-1.5 <= vx p <= 1.5 ->
       x - W / 2 = 4 / 3 * (spec_pixel_x 2 W (vx p) - W / 2)) /\
    (1.5 <= vx p -> x = W) /\
    (vx p <= -1.5 -> x = 0).
Proof.
  intros Hreach Hcs c W.
  pose proof (reachable_card_is_4_wide g Hreach) as Hw. rewrite Hcs in Hw.
  cbn [card_is_4_wide] in Hw. split; [rewrite Hw; lra|].
  rewrite hit_canvas_addSnowSplat. fold c.
  destruct (draw_splat_painted random p c) as (style & size & smalls & Hp & _).
  exists style, (splat_x p c), (splat_y p c), size, smalls.
  split; [exact Hp|].
  pose proof (pos_INR (width c)) as HW. fold W in HW.
  unfold splat_x, splat_u, spec_pixel_x, spec_u. fold W. clearbody W.
  split; [|split].
  - intros Hx. rewrite clamp_id by lra. lra.
  - intros Hx. rewrite clamp_above by lra. lra.
  - intros Hx.
    assert (Rmax 0 (Rmin 1 ((vx p / 1.5 + 1) * 0.5)) = 0) as ->.
    { unfold Rmax, Rmin. repeat destruct Rle_dec; lra. }
    lra.
Qed.

End Stretch.

(** X20 (witness): the later revision with an image of 512 by 768, and a
    contact at local x = 1.5. *)
Lemma later_revision_stretches_splats_witness :
  geometry_width (card sample_loaded_card) / 2 = 2 /\
  exists style x y size smalls,
    painted (hit_canvas (H := three_math) sample_normal
               (addSnowSplat (H := three_math) sample_random (mkVec3 1.5 0 0.1)
                  sample_normal sample_loaded_card)) =
      painted (hit_canvas (H := three_math) sample_normal sample_loaded_card)
      ++ FillPath style [mkArc x y size 0 (PI * 2)] :: smalls /\
    x = INR (width (hit_canvas (H := three_math) sample_normal sample_loaded_card)).
Proof.
  assert (reachable (H := three_math) part_000
            (run part_000 (constructor part_000 sample_rect 5)
               [TextureLoaded 512 768])) as Hreach.
  { apply reachable_run, reachable_init. }
  pose proof (later_revision_stretches_splats _ sample_loaded_card sample_random
                (mkVec3 1.5 0 0.1) sample_normal Hreach sample_loaded_state) as HH.
  cbv zeta in HH. destruct HH as (H1 & style & x & y & size & smalls & Hp & _ & Hx & _).
  split; [exact H1|]. exists style, x, y, size, smalls.
  split; [exact Hp|]. apply Hx. cbn [vx]. lra.
Defined.
